(** * Progress inference for the construction-progress dashboard

    A shallow embedding of the status normaliser, the item history builder,
    the item scorer, the category/scope aggregator and the configuration
    validator, together with the properties stated about them.

    Modelling conventions.
    - A JavaScript string is its sequence of UTF-16 code units ([jsstring]).
      Literals are written in UTF-8 and decoded by [utf16].
    - A JavaScript [number] is an IEEE 754 binary64 value ([jsnumber]): a
      finite one is written as the rational it is, and every addition,
      subtraction, product and quotient is the exact result rounded to the
      nearest such value.  A configured value and an item score, which the
      program only compares and copies, are finite numbers, written [Q].
    - A [Map] or [Set] that the program iterates over is a list in insertion
      order (entries with distinct keys, distinct values); where only lookup
      and membership are observed it is stdpp's [gmap] or [gset].  Plain
      objects whose entry order is observable ([Object.entries]) are
      association lists in insertion order.
    - The cached configuration read by [getConfigSafe] is an explicit
      argument [cfg]. *)

From Stdlib Require Import ZArith QArith Qpower Qround Qabs Lqa Ascii String.
From stdpp Require Import gmap sorting.

Local Open Scope N_scope.

(** ** JavaScript strings *)

Definition jsstring := list N.

Fixpoint bytes_of (s : string) : list N :=
  match s with
  | EmptyString => []
  | String a r => N_of_ascii a :: bytes_of r
  end.

(** UTF-8 to UTF-16: one code unit per code point of the Basic Multilingual
    Plane, a surrogate pair above it. *)
Fixpoint decode_utf8 (bs : list N) : jsstring :=
  match bs with
  | [] => []
  | b0 :: r0 =>
    if b0 <? 128 then b0 :: decode_utf8 r0
    else match r0 with
    | [] => []
    | b1 :: r1 =>
      if b0 <? 224 then ((b0 - 192) * 64 + (b1 - 128)) :: decode_utf8 r1
      else match r1 with
      | [] => []
      | b2 :: r2 =>
        if b0 <? 240
        then ((b0 - 224) * 4096 + (b1 - 128) * 64 + (b2 - 128)) :: decode_utf8 r2
        else match r2 with
        | [] => []
        | b3 :: r3 =>
          let cp := (b0 - 240) * 262144 + (b1 - 128) * 4096
                    + (b2 - 128) * 64 + (b3 - 128) in
          let v := cp - 65536 in
          (55296 + v / 1024) :: (56320 + v mod 1024) :: decode_utf8 r3
        end
      end
    end
  end.

Definition utf16 (s : string) : jsstring := decode_utf8 (bytes_of s).

(** [s.startsWith(k)] at position 0. *)
Fixpoint startsWith (s k : jsstring) : bool :=
  match k, s with
  | [], _ => true
  | _ :: _, [] => false
  | c :: k', d :: s' => N.eqb c d && startsWith s' k'
  end.

(** [s.includes(k)]: [k] occurs in [s] as a contiguous run of code units. *)
Fixpoint includes (s k : jsstring) : bool :=
  startsWith s k ||
  match s with
  | [] => false
  | _ :: s' => includes s' k
  end.

(** ECMAScript WhiteSpace and LineTerminator code points, all in the BMP. *)
Definition isWhiteSpace (c : N) : bool :=
  ((9 <=? c) && (c <=? 13)) || (c =? 32) || (c =? 160) || (c =? 5760)
  || ((8192 <=? c) && (c <=? 8202)) || (c =? 8232) || (c =? 8233)
  || (c =? 8239) || (c =? 8287) || (c =? 12288) || (c =? 65279).

Fixpoint trimStart (s : jsstring) : jsstring :=
  match s with
  | [] => []
  | c :: r => if isWhiteSpace c then trimStart r else s
  end.

Definition trim (s : jsstring) : jsstring :=
  rev (trimStart (rev (trimStart s))).

(** [toLowerCase], as far as a keyword scan can tell.  The letters whose
    lower case is, or contains, a Basic Latin letter are mapped as
    [String.prototype.toLowerCase] maps them: [A-Z], KELVIN SIGN (U+212A, to
    [k]) and I WITH DOT ABOVE (U+0130, to [i] and U+0307).  Every other cased
    letter (Greek, Cyrillic, ...) is kept as it is: its lower case holds no
    Basic Latin or Hebrew code unit, and the keywords looked for are made of
    those, so [includes] of a keyword answers on the result as it does on the
    source's. *)
Definition lowerUnit (c : N) : list N :=
  if (65 <=? c) && (c <=? 90) then [c + 32]
  else if c =? 8490 then [107]
  else if c =? 304 then [105; 775]
  else [c].

Definition toLowerCase (s : jsstring) : jsstring := flat_map lowerUnit s.

(** Strict equality of two strings. *)
Definition streq (a b : jsstring) : bool := bool_decide (a = b).

(** Own-property lookup in an object literal, entries in insertion order. *)
Fixpoint lookupEntry {V} (o : list (jsstring * V)) (k : jsstring) : option V :=
  match o with
  | [] => None
  | (k', v) :: r => if streq k' k then Some v else lookupEntry r k
  end.

(** [xs.some(p)] *)
Definition some {A} (p : A → bool) (xs : list A) : bool := existsb p xs.

(** [s.add(x)] on a [Set] kept as the list of its values in insertion order:
    a value already there keeps its place. *)
Definition setAdd (s : list jsstring) (x : jsstring) : list jsstring :=
  if existsb (streq x) s then s else s ++ [x].

(** ** status-mapper *)

(** The string enum [WorkStatus]: each member is its own name. *)
Module WorkStatus.
Definition COMPLETED : jsstring := Eval vm_compute in utf16 "COMPLETED".
Definition COMPLETED_OK : jsstring := Eval vm_compute in utf16 "COMPLETED_OK".
Definition NOT_OK : jsstring := Eval vm_compute in utf16 "NOT_OK".
Definition DEFECT : jsstring := Eval vm_compute in utf16 "DEFECT".
Definition IN_PROGRESS : jsstring := Eval vm_compute in utf16 "IN_PROGRESS".
Definition HANDLED : jsstring := Eval vm_compute in utf16 "HANDLED".
Definition PENDING : jsstring := Eval vm_compute in utf16 "PENDING".
Definition NOT_STARTED : jsstring := Eval vm_compute in utf16 "NOT_STARTED".
End WorkStatus.

Definition hebrewStatusMap : list (jsstring * jsstring) :=
  [ (utf16 "בוצע", WorkStatus.COMPLETED);
    (utf16 "בוצע - תקין", WorkStatus.COMPLETED_OK);
    (utf16 "תקין", WorkStatus.COMPLETED_OK);
    (utf16 "לא תקין", WorkStatus.NOT_OK);
    (utf16 "ליקוי", WorkStatus.DEFECT);
    (utf16 "בטיפול", WorkStatus.IN_PROGRESS);
    (utf16 "טופל", WorkStatus.HANDLED);
    (utf16 "ממתין", WorkStatus.PENDING);
    (utf16 "לא התחיל", WorkStatus.NOT_STARTED);
    (utf16 "בביצוע", WorkStatus.IN_PROGRESS);
    (utf16 "הושלם", WorkStatus.COMPLETED);
    (utf16 "נמצא ליקוי", WorkStatus.DEFECT);
    (utf16 "תוקן", WorkStatus.HANDLED);
    (utf16 "קיימים אי תאומים", WorkStatus.DEFECT);
    (utf16 "קיימים אי תיאומים", WorkStatus.DEFECT);
    (utf16 "אי תאומים", WorkStatus.DEFECT);
    (utf16 "אי תיאומים", WorkStatus.DEFECT);
    (utf16 "יש הערות", WorkStatus.DEFECT);
    (utf16 "בוצע - יש הערות", WorkStatus.DEFECT);
    (utf16 "בוצע - יש ליקויים", WorkStatus.DEFECT);
    (utf16 "בוצע - נמצאו אי תאומים", WorkStatus.DEFECT);
    (utf16 "בוצע - נמצאו אי תיאומים", WorkStatus.DEFECT);
    (utf16 "נמצאו אי תאומים", WorkStatus.DEFECT);
    (utf16 "נמצאו אי תיאומים", WorkStatus.DEFECT);
    (utf16 "בוצע חלקי", WorkStatus.DEFECT);
    (utf16 "בוצע חלקית", WorkStatus.DEFECT);
    (utf16 "לטיפול", WorkStatus.PENDING);
    (utf16 "נדרש מעקב", WorkStatus.PENDING);
    (utf16 "נדרש ביצוע", WorkStatus.PENDING);
    (utf16 "בוצע עם הערות", WorkStatus.DEFECT) ].

(** The partial-match loop over [Object.entries(hebrewStatusMap)]: the first
    entry, in the order given, whose key occurs in the text. *)
Fixpoint firstIncluded (entries : list (jsstring * jsstring)) (text : jsstring)
  : option jsstring :=
  match entries with
  | [] => None
  | (hebrew, status) :: r =>
    if includes text hebrew then Some status else firstIncluded r text
  end.

(** [normalizeStatus] of the status mapper.  Inputs naming a member inherited
    from [Object.prototype] (such as "constructor") are outside the model:
    the table is read by own properties only. *)
Definition normalizeStatus (hebrewStatus : jsstring) : jsstring :=
  let trimmed := trim hebrewStatus in
  match lookupEntry hebrewStatusMap trimmed with
  | Some s => s
  | None =>
    match firstIncluded hebrewStatusMap trimmed with
    | Some s => s
    | None => WorkStatus.IN_PROGRESS
    end
  end.

Definition isPositiveStatus (status : jsstring) : bool :=
  streq status WorkStatus.COMPLETED
  || streq status WorkStatus.COMPLETED_OK
  || streq status WorkStatus.HANDLED.

Definition isNegativeStatus (status : jsstring) : bool :=
  streq status WorkStatus.NOT_OK || streq status WorkStatus.DEFECT.

Definition NEGATIVE_KEYWORDS : list jsstring :=
  map utf16
  [ "אי תיאומים"; "אי תאומים"; "נמצאו אי"; "קיימים אי"; "יש הערות";
    "יש ליקויים"; "ליקוי"; "ליקויים"; "לא תקין"; "חסר"; "חסרות"; "חסרים";
    "חסרה"; "שבור"; "שבורים"; "שבורה"; "סדוק"; "סדוקים"; "פגם"; "פגמים";
    "בעיה"; "בעיות"; "לתקן"; "תיקון"; "תיקונים"; "לא בוצע"; "לא הותקן";
    "לא הותקנו"; "לא הושלם"; "נזק"; "נזקים"; "missing"; "defect"; "חתוך";
    "להחליף" ]%string.

(** [notes] is [string | null | undefined]; [None] stands for both absent
    values, and [!notes] also holds for the empty string. *)
Definition hasNegativeNotes (notes : option jsstring) : bool :=
  match notes with
  | None | Some [] => false
  | Some n =>
    let lowerNotes := toLowerCase n in
    some (λ keyword, includes lowerNotes (toLowerCase keyword)) NEGATIVE_KEYWORDS
  end.

Definition getEffectiveStatus (status : jsstring) (notes : option jsstring)
  : jsstring :=
  if isNegativeStatus status then status
  else if isPositiveStatus status && hasNegativeNotes notes
       then WorkStatus.DEFECT
       else status.

Definition isTrulyCompleted (status : jsstring) (notes : option jsstring) : bool :=
  isPositiveStatus status && negb (hasNegativeNotes notes).

(** ** The ingestion route's own copy of the normaliser

    The upload route (and the batch script [process-pdfs.js]) carry a second
    [normalizeStatus], with a defect-keyword scan, a partial-work scan and a
    longest-key-first substring search. *)

Module Ingestion.

Definition hebrewStatusMap : list (jsstring * jsstring) :=
  [ (utf16 "בוצע", WorkStatus.COMPLETED);
    (utf16 "בוצע - תקין", WorkStatus.COMPLETED_OK);
    (utf16 "תקין", WorkStatus.COMPLETED_OK);
    (utf16 "לא תקין", WorkStatus.NOT_OK);
    (utf16 "ליקוי", WorkStatus.DEFECT);
    (utf16 "בטיפול", WorkStatus.IN_PROGRESS);
    (utf16 "טופל", WorkStatus.HANDLED);
    (utf16 "ממתין", WorkStatus.PENDING);
    (utf16 "לא התחיל", WorkStatus.NOT_STARTED);
    (utf16 "בביצוע", WorkStatus.IN_PROGRESS);
    (utf16 "הושלם", WorkStatus.COMPLETED);
    (utf16 "נמצא ליקוי", WorkStatus.DEFECT);
    (utf16 "תוקן", WorkStatus.HANDLED);
    (utf16 "קיימים אי תאומים", WorkStatus.DEFECT);
    (utf16 "קיימים אי תיאומים", WorkStatus.DEFECT);
    (utf16 "אי תאומים", WorkStatus.DEFECT);
    (utf16 "אי תיאומים", WorkStatus.DEFECT);
    (utf16 "יש הערות", WorkStatus.DEFECT);
    (utf16 "בוצע - יש הערות", WorkStatus.DEFECT);
    (utf16 "בוצע - יש ליקויים", WorkStatus.DEFECT);
    (utf16 "בוצע - נמצאו אי תאומים", WorkStatus.DEFECT);
    (utf16 "בוצע - נמצאו אי תיאומים", WorkStatus.DEFECT);
    (utf16 "נמצאו אי תאומים", WorkStatus.DEFECT);
    (utf16 "נמצאו אי תיאומים", WorkStatus.DEFECT);
    (utf16 "בוצע חלקי", WorkStatus.IN_PROGRESS);
    (utf16 "לטיפול", WorkStatus.PENDING);
    (utf16 "נדרש מעקב", WorkStatus.PENDING);
    (utf16 "נדרש ביצוע", WorkStatus.PENDING);
    (utf16 "בוצע עם הערות", WorkStatus.DEFECT) ].

Definition DEFECT_KEYWORDS : list jsstring :=
  map utf16
  [ "אי תיאומים"; "אי תאומים"; "נמצאו אי"; "קיימים אי";
    "יש הערות"; "יש ליקויים"; "ליקוי"; "ליקויים";
    "לא תקין"; "חסר"; "חסרה"; "חסרות"; "חסרים";
    "שבור"; "שבורה"; "שבורים"; "סדוק"; "סדוקה"; "סדוקים";
    "פגם"; "פגמים"; "בעיה"; "בעיות"; "לתקן"; "תיקון";
    "לא בוצע"; "לא הותקן"; "לא הותקנו"; "חתוך"; "חתוכים";
    "להחליף"; "החלפה"; "נזק"; "נזקים"; "לא הושלם"; "טעון" ]%string.

Definition PARTIAL_KEYWORDS : list jsstring :=
  map utf16 [ "חלקי"; "חלקית"; "בביצוע"; "בטיפול" ]%string.

(** [xs.filter(Boolean).join(' ')] over the status and the optional notes. *)
Definition joinTruthy (status : jsstring) (notes : option jsstring) : jsstring :=
  match status, notes with
  | [], None | [], Some [] => []
  | [], Some n => n
  | s, None | s, Some [] => s
  | s, Some n => s ++ 32%N :: n
  end.

(** [entries.sort((a, b) => b[0].length - a[0].length)]: a stable sort,
    longest key first. *)
Fixpoint insertByLength (e : jsstring * jsstring) (l : list (jsstring * jsstring))
  : list (jsstring * jsstring) :=
  match l with
  | [] => [e]
  | y :: r =>
    if (length (fst e) <? length (fst y))%nat
    then y :: insertByLength e r
    else e :: l
  end.

Definition sortLongestFirst (l : list (jsstring * jsstring))
  : list (jsstring * jsstring) :=
  foldr insertByLength [] l.

Fixpoint firstIncludedLower (entries : list (jsstring * jsstring))
  (text : jsstring) : option jsstring :=
  match entries with
  | [] => None
  | (hebrew, status) :: r =>
    if includes text (toLowerCase hebrew) then Some status
    else firstIncludedLower r text
  end.

Definition normalizeStatus (hebrewStatus : jsstring) (notes : option jsstring)
  : jsstring :=
  let trimmed := toLowerCase (trim hebrewStatus) in
  let combinedText := toLowerCase (joinTruthy hebrewStatus notes) in
  if some (λ keyword, includes combinedText (toLowerCase keyword)) DEFECT_KEYWORDS
  then WorkStatus.DEFECT
  else if some (λ keyword, includes trimmed (toLowerCase keyword)) PARTIAL_KEYWORDS
  then WorkStatus.IN_PROGRESS
  else match lookupEntry hebrewStatusMap (trim hebrewStatus) with
  | Some s => s
  | None =>
    match firstIncludedLower (sortLongestFirst hebrewStatusMap) trimmed with
    | Some s => s
    | None => WorkStatus.IN_PROGRESS
    end
  end.

End Ingestion.

Local Close Scope N_scope.
Local Open Scope Q_scope.

(** ** JavaScript numbers *)

(** IEEE 754 binary64.  A finite value is written as the rational it is; the
    two zeros are one, since nothing below divides by a zero or prints one. *)
Inductive jsnumber :=
  | Finite (x : Q)
  | PosInfinity
  | NegInfinity
  | NaN.

(** For [x > 0], the exponent [e] with [2^e <= x < 2^(e+1)]. *)
Definition floorLog2 (x : Q) : Z :=
  let e := (Z.log2 (Qnum x) - Z.log2 (Zpos (Qden x)))%Z in
  if Qle_bool (2 ^ e) x then e else (e - 1)%Z.

(** To the nearest integer, a tie to the even one. *)
Definition roundHalfEven (x : Q) : Z :=
  let f := Qfloor x in
  match Qcompare (x - inject_Z f) (1 # 2) with
  | Lt => f
  | Gt => (f + 1)%Z
  | Eq => if Z.even f then f else (f + 1)%Z
  end.

(** The number an arithmetic operation returns when its exact result is [x]:
    the nearest value with a significand of 53 bits and an exponent of at
    least -1022, a tie to the even significand; infinite from [2^1024] on. *)
Definition round64 (x : Q) : jsnumber :=
  let x := Qred x in
  match Qcompare x 0 with
  | Eq => Finite 0
  | sign =>
    let e := Z.max (floorLog2 (Qabs x)) (-1022) in
    let ulp := 2 ^ (e - 52) in
    let y := inject_Z (roundHalfEven (Qabs x / ulp)) * ulp in
    if Qle_bool (2 ^ 1024) y
    then match sign with Lt => NegInfinity | _ => PosInfinity end
    else Finite (Qred (match sign with Lt => - y | _ => y end))
  end.

(** A decimal literal of the source denotes the nearest number. *)
Definition literal (x : Q) : jsnumber := round64 x.

(** The same, for a literal known to be finite. *)
Definition double (x : Q) : Q :=
  match round64 x with
  | Finite y => y
  | _ => 0
  end.

Module Number.

Definition isNegative (a : jsnumber) : bool :=
  match a with
  | Finite x => negb (Qle_bool 0 x)
  | NegInfinity => true
  | PosInfinity | NaN => false
  end.

Definition isZero (a : jsnumber) : bool :=
  match a with
  | Finite x => Qeq_bool x 0
  | _ => false
  end.

Definition infinite (negative : bool) : jsnumber :=
  if negative then NegInfinity else PosInfinity.

(** [a + b] *)
Definition add (a b : jsnumber) : jsnumber :=
  match a, b with
  | NaN, _ | _, NaN => NaN
  | Finite x, Finite y => round64 (x + y)
  | PosInfinity, NegInfinity | NegInfinity, PosInfinity => NaN
  | PosInfinity, _ | _, PosInfinity => PosInfinity
  | NegInfinity, _ | _, NegInfinity => NegInfinity
  end.

(** [-a] *)
Definition neg (a : jsnumber) : jsnumber :=
  match a with
  | Finite x => Finite (- x)
  | PosInfinity => NegInfinity
  | NegInfinity => PosInfinity
  | NaN => NaN
  end.

(** [a - b] *)
Definition sub (a b : jsnumber) : jsnumber := add a (neg b).

(** [a * b] *)
Definition mul (a b : jsnumber) : jsnumber :=
  match a, b with
  | NaN, _ | _, NaN => NaN
  | Finite x, Finite y => round64 (x * y)
  | _, _ =>
    if isZero a || isZero b then NaN
    else infinite (xorb (isNegative a) (isNegative b))
  end.

(** [a / b] *)
Definition div (a b : jsnumber) : jsnumber :=
  match a, b with
  | NaN, _ | _, NaN => NaN
  | Finite x, Finite y =>
    if Qeq_bool y 0
    then if Qeq_bool x 0 then NaN else infinite (isNegative a)
    else round64 (x / y)
  | Finite _, _ => Finite 0
  | _, Finite _ => infinite (xorb (isNegative a) (isNegative b))
  | _, _ => NaN
  end.

(** [Math.abs(a)] *)
Definition abs (a : jsnumber) : jsnumber :=
  match a with
  | Finite x => Finite (Qabs x)
  | PosInfinity | NegInfinity => PosInfinity
  | NaN => NaN
  end.

(** [a < b] *)
Definition lt (a b : jsnumber) : bool :=
  match a, b with
  | Finite x, Finite y => negb (Qle_bool y x)
  | NegInfinity, Finite _ | NegInfinity, PosInfinity | Finite _, PosInfinity => true
  | _, _ => false
  end.

(** [a === b] *)
Definition strictEq (a b : jsnumber) : bool :=
  match a, b with
  | Finite x, Finite y => Qeq_bool x y
  | PosInfinity, PosInfinity | NegInfinity, NegInfinity => true
  | _, _ => false
  end.

(** Whether [a] counts as false: a zero or NaN. *)
Definition falsy (a : jsnumber) : bool :=
  match a with
  | Finite x => Qeq_bool x 0
  | NaN => true
  | _ => false
  end.

End Number.

(** [Math.round(a)]: the nearest integer, a tie upwards. *)
Definition Math_round (a : jsnumber) : jsnumber :=
  match a with
  | Finite x => Finite (inject_Z (Qfloor (x + 0.5)))
  | _ => a
  end.

Arguments round64 : simpl never.
Arguments literal : simpl never.
Arguments Number.add : simpl never.
Arguments Number.sub : simpl never.
Arguments Number.mul : simpl never.
Arguments Number.div : simpl never.

(** ** progress-config *)

Record ProgressThresholds := {
  VERIFIED_NO_DEFECTS : Q;
  CATEGORY_GRADUATED : Q;
  ITEM_FIXED : Q;
  COMPLETED_OK_LATER : Q;
  COMPLETED_OK_FIRST : Q;
  HANDLED : Q;
  COMPLETED_WITH_ISSUES : Q;
  DEFECT_WORK_DONE : Q;
  IN_PROGRESS : Q;
  PENDING : Q;
  UNKNOWN : Q;
  NOT_STARTED : Q;
  CATEGORY_NEVER_SEEN : Q
}.

Record ProgressConfig := {
  categoryWeights : list (jsstring * Q);
  progressThresholds : ProgressThresholds;
  baselineProgress : Q;
  maxProgress : Q;
  defectPenalty : Q;
  defaultCategoryWeight : Q;
  lastUpdated : option jsstring
}.

Definition DEFAULT_CONFIG : ProgressConfig := {|
  categoryWeights :=
    [ (utf16 "ELECTRICAL", 12); (utf16 "PLUMBING", 10);
      (utf16 "SPRINKLERS", 5); (utf16 "WATERPROOFING", 5);
      (utf16 "DRYWALL", 10); (utf16 "FLOORING", 15); (utf16 "AC", 8);
      (utf16 "PAINTING", 10); (utf16 "KITCHEN", 10); (utf16 "OTHER", 15) ];
  progressThresholds := {|
    VERIFIED_NO_DEFECTS := 90;
    CATEGORY_GRADUATED := 90;
    ITEM_FIXED := 90;
    COMPLETED_OK_LATER := 75;
    COMPLETED_OK_FIRST := 50;
    HANDLED := 70;
    COMPLETED_WITH_ISSUES := 65;
    DEFECT_WORK_DONE := 55;
    IN_PROGRESS := 30;
    PENDING := 15;
    UNKNOWN := 15;
    NOT_STARTED := 5;
    CATEGORY_NEVER_SEEN := 0
  |};
  baselineProgress := 30;
  maxProgress := 95;
  defectPenalty := 5;
  defaultCategoryWeight := 10;
  lastUpdated := None
|}.

(** [Object.entries(config.progressThresholds)], in declaration order. *)
Definition thresholdEntries (t : ProgressThresholds) : list (jsstring * Q) :=
  [ (utf16 "VERIFIED_NO_DEFECTS", VERIFIED_NO_DEFECTS t);
    (utf16 "CATEGORY_GRADUATED", CATEGORY_GRADUATED t);
    (utf16 "ITEM_FIXED", ITEM_FIXED t);
    (utf16 "COMPLETED_OK_LATER", COMPLETED_OK_LATER t);
    (utf16 "COMPLETED_OK_FIRST", COMPLETED_OK_FIRST t);
    (utf16 "HANDLED", HANDLED t);
    (utf16 "COMPLETED_WITH_ISSUES", COMPLETED_WITH_ISSUES t);
    (utf16 "DEFECT_WORK_DONE", DEFECT_WORK_DONE t);
    (utf16 "IN_PROGRESS", IN_PROGRESS t);
    (utf16 "PENDING", PENDING t);
    (utf16 "UNKNOWN", UNKNOWN t);
    (utf16 "NOT_STARTED", NOT_STARTED t);
    (utf16 "CATEGORY_NEVER_SEEN", CATEGORY_NEVER_SEEN t) ].

(** The persisted JSON, any field of which may be absent. *)
Record PartialThresholds := {
  p_VERIFIED_NO_DEFECTS : option Q;
  p_CATEGORY_GRADUATED : option Q;
  p_ITEM_FIXED : option Q;
  p_COMPLETED_OK_LATER : option Q;
  p_COMPLETED_OK_FIRST : option Q;
  p_HANDLED : option Q;
  p_COMPLETED_WITH_ISSUES : option Q;
  p_DEFECT_WORK_DONE : option Q;
  p_IN_PROGRESS : option Q;
  p_PENDING : option Q;
  p_UNKNOWN : option Q;
  p_NOT_STARTED : option Q;
  p_CATEGORY_NEVER_SEEN : option Q
}.

Record PartialConfig := {
  p_categoryWeights : option (list (jsstring * Q));
  p_progressThresholds : option PartialThresholds;
  p_baselineProgress : option Q;
  p_maxProgress : option Q;
  p_defectPenalty : option Q;
  p_defaultCategoryWeight : option Q;
  p_lastUpdated : option (option jsstring)
}.

(** What [loadConfig] finds at [CONFIG_FILE_PATH]: no file, a file whose
    reading or parsing throws, or a parsed object. *)
Inductive ConfigFile :=
  | NoFile
  | Unreadable
  | Parsed (config : PartialConfig).

(** [o[k] = v] on an object, [m.set(k, v)] on a [Map] kept as the list of its
    entries: an existing key keeps its place, a new one goes last. *)
Fixpoint setEntry {V} (o : list (jsstring * V)) (k : jsstring) (v : V)
  : list (jsstring * V) :=
  match o with
  | [] => [(k, v)]
  | (k', v') :: r =>
    if streq k' k then (k', v) :: r else (k', v') :: setEntry r k v
  end.

(** [{...a, ...b}] *)
Definition spread {V} (a b : list (jsstring * V)) : list (jsstring * V) :=
  fold_left (λ o kv, setEntry o (fst kv) (snd kv)) b a.

Definition spreadThresholds (d : ProgressThresholds) (p : option PartialThresholds)
  : ProgressThresholds :=
  match p with
  | None => d
  | Some p => {|
      VERIFIED_NO_DEFECTS := default (VERIFIED_NO_DEFECTS d) (p_VERIFIED_NO_DEFECTS p);
      CATEGORY_GRADUATED := default (CATEGORY_GRADUATED d) (p_CATEGORY_GRADUATED p);
      ITEM_FIXED := default (ITEM_FIXED d) (p_ITEM_FIXED p);
      COMPLETED_OK_LATER := default (COMPLETED_OK_LATER d) (p_COMPLETED_OK_LATER p);
      COMPLETED_OK_FIRST := default (COMPLETED_OK_FIRST d) (p_COMPLETED_OK_FIRST p);
      HANDLED := default (HANDLED d) (p_HANDLED p);
      COMPLETED_WITH_ISSUES := default (COMPLETED_WITH_ISSUES d) (p_COMPLETED_WITH_ISSUES p);
      DEFECT_WORK_DONE := default (DEFECT_WORK_DONE d) (p_DEFECT_WORK_DONE p);
      IN_PROGRESS := default (IN_PROGRESS d) (p_IN_PROGRESS p);
      PENDING := default (PENDING d) (p_PENDING p);
      UNKNOWN := default (UNKNOWN d) (p_UNKNOWN p);
      NOT_STARTED := default (NOT_STARTED d) (p_NOT_STARTED p);
      CATEGORY_NEVER_SEEN := default (CATEGORY_NEVER_SEEN d) (p_CATEGORY_NEVER_SEEN p)
    |}
  end.

Definition loadConfig (file : ConfigFile) : ProgressConfig :=
  match file with
  | Parsed config => {|
      categoryWeights :=
        spread (categoryWeights DEFAULT_CONFIG)
               (default [] (p_categoryWeights config));
      progressThresholds :=
        spreadThresholds (progressThresholds DEFAULT_CONFIG)
                         (p_progressThresholds config);
      baselineProgress :=
        default (baselineProgress DEFAULT_CONFIG) (p_baselineProgress config);
      maxProgress := default (maxProgress DEFAULT_CONFIG) (p_maxProgress config);
      defectPenalty :=
        default (defectPenalty DEFAULT_CONFIG) (p_defectPenalty config);
      defaultCategoryWeight :=
        default (defaultCategoryWeight DEFAULT_CONFIG)
                (p_defaultCategoryWeight config);
      lastUpdated := default (lastUpdated DEFAULT_CONFIG) (p_lastUpdated config)
    |}
  | NoFile | Unreadable => DEFAULT_CONFIG
  end.

(** The messages of [validateConfig], each reduced to its kind and the key
    it interpolates. *)
Inductive ConfigError :=
  | WeightsMustSumTo100 (weightSum : jsnumber)
  | NegativeWeight (cat : jsstring)
  | ThresholdOutOfRange (key : jsstring)
  | BaselineOutOfRange
  | MaxOutOfRange
  | BaselineNotBelowMax
  | NegativeDefaultWeight
  | NegativeDefectPenalty.

Inductive ConfigWarning :=
  | ZeroWeight (cat : jsstring)
  | VerifiedNotAboveLater
  | LaterNotAboveFirst
  | HandledNotAboveDefect
  | DefectNotAboveInProgress
  | InProgressNotAbovePending
  | PendingNotAboveNotStarted.

Record ValidationResult := {
  valid : bool;
  errors : list ConfigError;
  warnings : list ConfigWarning
}.

(** [a < b], [a <= b] and [a === b] on finite numbers. *)
Definition ltb (a b : Q) : bool := negb (Qle_bool b a).
Definition leb (a b : Q) : bool := Qle_bool a b.
Definition numeq (a b : Q) : bool := Qeq_bool a b.

(** [cond ? [x] : []]: one conditional [push]. *)
Definition pushIf {A} (cond : bool) (x : A) : list A := if cond then [x] else [].

(** [Object.values(o).reduce((a, b) => a + b, 0)] *)
Definition sumValues (o : list (jsstring * Q)) : jsnumber :=
  foldl (λ a b, Number.add a (Finite b)) (Finite 0) (map snd o).

Definition validateConfig (config : ProgressConfig) : ValidationResult :=
  let weightSum := sumValues (categoryWeights config) in
  let t := progressThresholds config in
  let errors :=
    pushIf (Number.lt (literal 0.01)
                      (Number.abs (Number.sub weightSum (Finite 100))))
           (WeightsMustSumTo100 weightSum)
    ++ flat_map (λ e, pushIf (ltb (snd e) 0) (NegativeWeight (fst e)))
                (categoryWeights config)
    ++ flat_map (λ e, pushIf (ltb (snd e) 0 || ltb 100 (snd e))
                             (ThresholdOutOfRange (fst e)))
                (thresholdEntries t)
    ++ pushIf (ltb (baselineProgress config) 0 || ltb 100 (baselineProgress config))
              BaselineOutOfRange
    ++ pushIf (ltb (maxProgress config) 0 || ltb 100 (maxProgress config))
              MaxOutOfRange
    ++ pushIf (leb (maxProgress config) (baselineProgress config))
              BaselineNotBelowMax
    ++ pushIf (ltb (defaultCategoryWeight config) 0) NegativeDefaultWeight
    ++ pushIf (ltb (defectPenalty config) 0) NegativeDefectPenalty in
  let warnings :=
    flat_map (λ e, pushIf (numeq (snd e) 0) (ZeroWeight (fst e)))
             (categoryWeights config)
    ++ pushIf (leb (VERIFIED_NO_DEFECTS t) (COMPLETED_OK_LATER t)) VerifiedNotAboveLater
    ++ pushIf (leb (COMPLETED_OK_LATER t) (COMPLETED_OK_FIRST t)) LaterNotAboveFirst
    ++ pushIf (leb (HANDLED t) (DEFECT_WORK_DONE t)) HandledNotAboveDefect
    ++ pushIf (leb (DEFECT_WORK_DONE t) (IN_PROGRESS t)) DefectNotAboveInProgress
    ++ pushIf (leb (IN_PROGRESS t) (PENDING t)) InProgressNotAbovePending
    ++ pushIf (leb (PENDING t) (NOT_STARTED t)) PendingNotAboveNotStarted in
  {| valid := bool_decide (length errors = 0%nat);
     errors := errors;
     warnings := warnings |}.

(** ** progress-calculator-v3 *)

(** [getConfigSafe()]: the cached configuration, passed explicitly. *)
Definition getConfigSafe (cfg : ProgressConfig) : ProgressConfig := cfg.
Definition getCategoryWeights (cfg : ProgressConfig) : list (jsstring * Q) :=
  categoryWeights (getConfigSafe cfg).
Definition getProgressThresholds (cfg : ProgressConfig) : ProgressThresholds :=
  progressThresholds (getConfigSafe cfg).

(** Legacy exports, bound once to the defaults. *)
Definition CATEGORY_WEIGHTS : list (jsstring * Q) := categoryWeights DEFAULT_CONFIG.
Definition PROGRESS_THRESHOLDS : ProgressThresholds := progressThresholds DEFAULT_CONFIG.

(** The fields of [ProgressContext] that the scorers read. *)
Record ProgressContext := {
  previousProgress : option Q;
  isFirstTimeSeen : option bool
}.

Definition emptyContext : ProgressContext :=
  {| previousProgress := None; isFirstTimeSeen := None |}.

Record ProgressResult := {
  progress : Q;
  delta : jsnumber;
  reason : jsstring;
  hasRegression : bool
}.

(** [a || b] where [a] is a finite number or [undefined]. *)
Definition orNum (a : option Q) (b : Q) : Q :=
  match a with
  | Some x => if numeq x 0 then b else x
  | None => b
  end.

(** [a || b] where [a] is any number or [undefined]. *)
Definition orNumber (a : option jsnumber) (b : jsnumber) : jsnumber :=
  match a with
  | Some x => if Number.falsy x then b else x
  | None => b
  end.

Definition VERIFICATION_KEYWORDS : list jsstring :=
  map utf16
  [ "תקין"; "מאושר"; "אושר"; "הושלם בהצלחה"; "ללא הערות"; "ללא ליקויים";
    "בסדר"; "ok"; "verified"; "approved" ]%string.

Definition isVerified (notes : option jsstring) : bool :=
  match notes with
  | None | Some [] => false
  | Some n =>
    let lower := toLowerCase n in
    some (λ k, includes lower (toLowerCase k)) VERIFICATION_KEYWORDS
  end.

Definition hasDefect (status : jsstring) (notes : option jsstring) : bool :=
  isNegativeStatus (getEffectiveStatus status notes).

Definition mkResult (progress : Q) (reason : jsstring) (context : ProgressContext)
  : ProgressResult :=
  let previousProgress := orNum (previousProgress context) 0 in
  {| progress := progress;
     delta := Number.sub (Finite progress) (Finite previousProgress);
     reason := reason;
     hasRegression := ltb progress previousProgress |}.

Definition calculateItemProgressV3 (cfg : ProgressConfig) (status : jsstring)
  (notes : option jsstring) (context : ProgressContext) : ProgressResult :=
  let effectiveStatus := getEffectiveStatus status notes in
  let isFirstTime := negb (bool_decide (isFirstTimeSeen context = Some false)) in
  let thresholds := getProgressThresholds cfg in
  let '(progress, reason) :=
    if streq effectiveStatus WorkStatus.COMPLETED_OK then
      (VERIFIED_NO_DEFECTS thresholds, utf16 "verified_no_defects")
    else if streq effectiveStatus WorkStatus.COMPLETED then
      if isVerified notes then
        (VERIFIED_NO_DEFECTS thresholds, utf16 "verified_via_notes")
      else if isFirstTime then
        (COMPLETED_OK_FIRST thresholds, utf16 "completed_ok_first_time")
      else
        (COMPLETED_OK_LATER thresholds, utf16 "completed_ok_later")
    else if streq effectiveStatus WorkStatus.HANDLED then
      (HANDLED thresholds, utf16 "handled")
    else if streq effectiveStatus WorkStatus.DEFECT
            || streq effectiveStatus WorkStatus.NOT_OK then
      (DEFECT_WORK_DONE thresholds, utf16 "defect_work_done")
    else if streq effectiveStatus WorkStatus.IN_PROGRESS then
      (IN_PROGRESS thresholds, utf16 "in_progress")
    else if streq effectiveStatus WorkStatus.PENDING then
      (PENDING thresholds, utf16 "pending")
    else if streq effectiveStatus WorkStatus.NOT_STARTED then
      (NOT_STARTED thresholds, utf16 "not_started")
    else
      (UNKNOWN thresholds, utf16 "unknown_status") in
  mkResult progress reason context.

(** The V2 entry point kept by the V3 file: a delegation. *)
Definition calculateItemProgressV2 (cfg : ProgressConfig) (status : jsstring)
  (notes : option jsstring) (context : ProgressContext) : ProgressResult :=
  calculateItemProgressV3 cfg status notes context.

(** The [Map] of category scores is the list of its entries, the [Set] of
    categories the list of its values, both in insertion order. *)
Definition calculateOverallProgressWithAllCategories (cfg : ProgressConfig)
  (currentCategoryProgress : list (jsstring * jsnumber))
  (categoriesEverSeen : list jsstring) : jsnumber :=
  if bool_decide (length categoriesEverSeen = 0%nat) then Finite 0 else
  let weights := getCategoryWeights cfg in
  let thresholds := getProgressThresholds cfg in
  let config := getConfigSafe cfg in
  let '(weightedSum, totalWeight) :=
    foldl (λ '(weightedSum, totalWeight) category,
             let weight := orNum (lookupEntry weights category)
                                 (defaultCategoryWeight config) in
             let totalWeight := Number.add totalWeight (Finite weight) in
             match lookupEntry currentCategoryProgress category with
             | Some p =>
               (Number.add weightedSum
                  (Number.mul (orNumber (Some p) (Finite 0)) (Finite weight)),
                totalWeight)
             | None =>
               (Number.add weightedSum
                  (Number.mul (Finite (CATEGORY_GRADUATED thresholds))
                              (Finite weight)),
                totalWeight)
             end)
          (Finite 0, Finite 0) categoriesEverSeen in
  if Number.strictEq totalWeight (Finite 0) then Finite 0
  else Math_round (Number.div weightedSum totalWeight).

(** ** progress-calculator-v2, the superseded standalone scorer *)

Module ProgressCalculatorV2.

Definition PROGRESS_THRESHOLDS : ProgressThresholds := {|
  VERIFIED_NO_DEFECTS := 90;
  CATEGORY_GRADUATED := 90;
  ITEM_FIXED := 90;
  COMPLETED_OK_LATER := 75;
  COMPLETED_OK_FIRST := 50;
  HANDLED := 70;
  COMPLETED_WITH_ISSUES := 65;
  DEFECT_WORK_DONE := 55;
  IN_PROGRESS := 30;
  PENDING := 15;
  UNKNOWN := 15;
  NOT_STARTED := 5;
  CATEGORY_NEVER_SEEN := 0
|}.

Definition calculateItemProgressV2 (status : jsstring) (notes : option jsstring)
  (context : ProgressContext) : ProgressResult :=
  let workStatus := status in
  let hasIssuesInNotes := hasNegativeNotes notes in
  let isFirstTime := negb (bool_decide (isFirstTimeSeen context = Some false)) in
  let '(progress, reason) :=
    if streq workStatus WorkStatus.COMPLETED_OK then
      if hasIssuesInNotes then
        (COMPLETED_WITH_ISSUES PROGRESS_THRESHOLDS, utf16 "completed_ok_with_issues")
      else
        (VERIFIED_NO_DEFECTS PROGRESS_THRESHOLDS, utf16 "verified_no_defects")
    else if streq workStatus WorkStatus.COMPLETED then
      if hasIssuesInNotes then
        (COMPLETED_WITH_ISSUES PROGRESS_THRESHOLDS, utf16 "completed_with_issues")
      else if isVerified notes then
        (VERIFIED_NO_DEFECTS PROGRESS_THRESHOLDS, utf16 "verified_via_notes")
      else if isFirstTime then
        (COMPLETED_OK_FIRST PROGRESS_THRESHOLDS, utf16 "completed_ok_first_time")
      else
        (COMPLETED_OK_LATER PROGRESS_THRESHOLDS, utf16 "completed_ok_later")
    else if streq workStatus WorkStatus.HANDLED then
      (HANDLED PROGRESS_THRESHOLDS, utf16 "handled")
    else if streq workStatus WorkStatus.DEFECT
            || streq workStatus WorkStatus.NOT_OK then
      (DEFECT_WORK_DONE PROGRESS_THRESHOLDS, utf16 "defect_work_done")
    else if streq workStatus WorkStatus.IN_PROGRESS then
      (IN_PROGRESS PROGRESS_THRESHOLDS, utf16 "in_progress")
    else if streq workStatus WorkStatus.PENDING then
      (PENDING PROGRESS_THRESHOLDS, utf16 "pending")
    else if streq workStatus WorkStatus.NOT_STARTED then
      (NOT_STARTED PROGRESS_THRESHOLDS, utf16 "not_started")
    else
      (UNKNOWN PROGRESS_THRESHOLDS, utf16 "unknown_status") in
  mkResult progress reason context.

End ProgressCalculatorV2.

(** ** Persisted records, as the routes read them *)

Record Apartment := {
  apartmentId : jsstring;
  number : jsstring
}.

Module WorkItem.
Record t := {
  id : jsstring;
  apartment : option Apartment;
  category : jsstring;
  location : option jsstring;
  description : jsstring;
  status : jsstring;
  notes : option jsstring
}.
End WorkItem.

(** A processed report with its work items; reports arrive ordered by date. *)
Module Report.
Record t := {
  reportDate : Z;
  workItems : list WorkItem.t
}.
End Report.

(** The bucket of site-level items. *)
Definition DEVELOPMENT : jsstring := utf16 "פיתוח".
Definition BAR : jsstring := utf16 "|".

(** ** The statistics route: item history and the disappearance rule *)

Module Stats.

Record ItemHistory := {
  category : jsstring;
  status : jsstring;
  notes : option jsstring;
  description : jsstring;
  location : option jsstring;
  id : jsstring;
  reportDate : Z;
  apartmentNumber : jsstring;
  firstSeenReportIndex : nat;
  lastSeenReportIndex : nat;
  isInLatestReport : bool;
  hadDefectEver : bool;
  defectReportDate : option Z
}.

Definition itemHasDefect (status : jsstring) (notes : option jsstring) : bool :=
  isNegativeStatus status || hasNegativeNotes notes.

Definition itemIsCompleted (status : jsstring) (notes : option jsstring) : bool :=
  isPositiveStatus status && negb (hasNegativeNotes notes).

(** [item.apartment?.number || 'פיתוח'] *)
Definition aptNumberOf (item : WorkItem.t) : jsstring :=
  match WorkItem.apartment item with
  | Some a => match number a with [] => DEVELOPMENT | n => n end
  | None => DEVELOPMENT
  end.

Definition keyOf (item : WorkItem.t) : jsstring :=
  aptNumberOf item ++ BAR ++ WorkItem.category item
  ++ BAR ++ WorkItem.description item.

(** The [Map] [itemHistory] is read by key and walked by [values()]: it is
    the finite map of its entries together with its keys in insertion order
    ([itemKeys]).  The [Set] [categoriesEverSeen] is walked by the
    aggregation: it is the list of its values in insertion order. *)
Record State := {
  itemHistory : gmap jsstring ItemHistory;
  itemKeys : list jsstring;
  categoriesEverSeen : list jsstring;
  apartmentCategoriesEverSeen : gmap jsstring (gset jsstring)
}.

(** The maps before the first report: one empty category set per apartment
    and one for the development bucket. *)
Definition initialState (apartments : list Apartment) : State := {|
  itemHistory := ∅;
  itemKeys := [];
  categoriesEverSeen := [];
  apartmentCategoriesEverSeen :=
    <[DEVELOPMENT := ∅]>
      (foldl (λ m apt, <[number apt := ∅]> m) ∅ apartments)
|}.

(** The keys of the latest report's items. *)
Definition latestKeys (reports : list Report.t) : gset jsstring :=
  match last reports with
  | Some latestReport => list_to_set (map keyOf (Report.workItems latestReport))
  | None => ∅
  end.

(** The body of the inner loop, for one item of the report at [reportIndex]. *)
Definition processItem (itemsInLatestReport : gset jsstring) (reportIndex : nat)
  (date : Z) (st : State) (item : WorkItem.t) : State :=
  let aptNumber := aptNumberOf item in
  let key := keyOf item in
  let isDefectNow := itemHasDefect (WorkItem.status item) (WorkItem.notes item) in
  {| categoriesEverSeen := setAdd (categoriesEverSeen st) (WorkItem.category item);
     itemKeys :=
       match itemHistory st !! key with
       | Some _ => itemKeys st
       | None => itemKeys st ++ [key]
       end;
     apartmentCategoriesEverSeen :=
       alter (λ aptCats, {[ WorkItem.category item ]} ∪ aptCats) aptNumber
             (apartmentCategoriesEverSeen st);
     itemHistory :=
       match itemHistory st !! key with
       | Some existing =>
         <[key := {|
             category := category existing;
             status := WorkItem.status item;
             notes := WorkItem.notes item;
             description := description existing;
             location := location existing;
             id := id existing;
             reportDate := date;
             apartmentNumber := apartmentNumber existing;
             firstSeenReportIndex := firstSeenReportIndex existing;
             lastSeenReportIndex := reportIndex;
             isInLatestReport := bool_decide (key ∈ itemsInLatestReport);
             hadDefectEver :=
               if isDefectNow && negb (hadDefectEver existing) then true
               else hadDefectEver existing;
             defectReportDate :=
               if isDefectNow && negb (hadDefectEver existing) then Some date
               else defectReportDate existing
           |}]> (itemHistory st)
       | None =>
         <[key := {|
             category := WorkItem.category item;
             status := WorkItem.status item;
             notes := WorkItem.notes item;
             description := WorkItem.description item;
             location := WorkItem.location item;
             id := WorkItem.id item;
             reportDate := date;
             apartmentNumber := aptNumber;
             firstSeenReportIndex := reportIndex;
             lastSeenReportIndex := reportIndex;
             isInLatestReport := bool_decide (key ∈ itemsInLatestReport);
             hadDefectEver := isDefectNow;
             defectReportDate := if isDefectNow then Some date else None
           |}]> (itemHistory st)
       end |}.

Definition processReport (itemsInLatestReport : gset jsstring) (reportIndex : nat)
  (st : State) (report : Report.t) : State :=
  foldl (processItem itemsInLatestReport reportIndex (Report.reportDate report))
        st (Report.workItems report).

(** The outer loop, from [reportIndex] on. *)
Fixpoint processReports (itemsInLatestReport : gset jsstring) (reportIndex : nat)
  (st : State) (reports : list Report.t) : State :=
  match reports with
  | [] => st
  | report :: rest =>
    processReports itemsInLatestReport (S reportIndex)
      (processReport itemsInLatestReport reportIndex st report) rest
  end.

(** The history the route holds after its loop over all reports. *)
Definition buildHistory (apartments : list Apartment) (reports : list Report.t)
  : State :=
  processReports (latestKeys reports) 0 (initialState apartments) reports.

Definition latestReportIndex (reports : list Report.t) : nat :=
  (length reports - 1)%nat.

Definition calculateEffectiveProgress (cfg : ProgressConfig)
  (latestReportIndex : nat) (item : ItemHistory) : Q :=
  if isInLatestReport item then
    let isFirstTime := bool_decide (firstSeenReportIndex item = latestReportIndex) in
    progress (calculateItemProgressV2 cfg (status item) (notes item)
                {| previousProgress := None; isFirstTimeSeen := Some isFirstTime |})
  else ITEM_FIXED PROGRESS_THRESHOLDS.

End Stats.

(** ** The timeline route: the same history, replayed report by report *)

Module Timeline.

Record ItemHistory := {
  category : jsstring;
  status : jsstring;
  notes : option jsstring;
  firstSeenReportIndex : nat;
  lastSeenReportIndex : nat;
  hadDefect : bool
}.

Definition keyOf (item : WorkItem.t) : jsstring :=
  WorkItem.category item ++ BAR ++ WorkItem.description item.

(** The update the route writes out for the project, apartment and
    development histories alike. *)
Definition recordItem (key : jsstring) (item : WorkItem.t) (reportIndex : nat)
  (isDefect : bool) (history : gmap jsstring ItemHistory)
  : gmap jsstring ItemHistory :=
  match history !! key with
  | Some existing =>
    <[key := {|
        category := category existing;
        status := WorkItem.status item;
        notes := WorkItem.notes item;
        firstSeenReportIndex := firstSeenReportIndex existing;
        lastSeenReportIndex := reportIndex;
        hadDefect := if isDefect then true else hadDefect existing
      |}]> history
  | None =>
    <[key := {|
        category := WorkItem.category item;
        status := WorkItem.status item;
        notes := WorkItem.notes item;
        firstSeenReportIndex := reportIndex;
        lastSeenReportIndex := reportIndex;
        hadDefect := isDefect
      |}]> history
  end.

Record State := {
  projectItemHistory : gmap jsstring ItemHistory;
  apartmentItemHistory : gmap jsstring (gmap jsstring ItemHistory);
  devItemHistory : gmap jsstring ItemHistory;
  projectCategoriesEverSeen : gset jsstring;
  apartmentCategoriesEverSeen : gmap jsstring (gset jsstring);
  devCategoriesEverSeen : gset jsstring
}.

Definition initialState (apartments : list Apartment) : State := {|
  projectItemHistory := ∅;
  apartmentItemHistory := foldl (λ m apt, <[apartmentId apt := ∅]> m) ∅ apartments;
  devItemHistory := ∅;
  projectCategoriesEverSeen := ∅;
  apartmentCategoriesEverSeen :=
    foldl (λ m apt, <[apartmentId apt := ∅]> m) ∅ apartments;
  devCategoriesEverSeen := ∅
|}.

(** [item.apartmentId]: the foreign key, falsy when null or empty. *)
Definition apartmentIdOf (item : WorkItem.t) : option jsstring :=
  match WorkItem.apartment item with
  | Some a => match apartmentId a with [] => None | i => Some i end
  | None => None
  end.

(** The body of the loop over [report.workItems].  The per-report presence
    sets, which the route fills alongside and reads only when it aggregates,
    are left out; they are created for the same apartments as the two maps
    looked up here. *)
Definition processItem (reportIndex : nat) (st : State) (item : WorkItem.t)
  : State :=
  let key := keyOf item in
  let isDefect :=
    isNegativeStatus (WorkItem.status item) || hasNegativeNotes (WorkItem.notes item) in
  let project := recordItem key item reportIndex isDefect (projectItemHistory st) in
  let projectCats := {[ WorkItem.category item ]} ∪ projectCategoriesEverSeen st in
  match apartmentIdOf item with
  | Some aptId =>
    match apartmentItemHistory st !! aptId, apartmentCategoriesEverSeen st !! aptId with
    | Some aptHistory, Some aptCatsSeen =>
      {| projectItemHistory := project;
         projectCategoriesEverSeen := projectCats;
         apartmentItemHistory :=
           <[aptId := recordItem key item reportIndex isDefect aptHistory]>
             (apartmentItemHistory st);
         apartmentCategoriesEverSeen :=
           <[aptId := {[ WorkItem.category item ]} ∪ aptCatsSeen]>
             (apartmentCategoriesEverSeen st);
         devItemHistory := devItemHistory st;
         devCategoriesEverSeen := devCategoriesEverSeen st |}
    | _, _ =>
      {| projectItemHistory := project;
         projectCategoriesEverSeen := projectCats;
         apartmentItemHistory := apartmentItemHistory st;
         apartmentCategoriesEverSeen := apartmentCategoriesEverSeen st;
         devItemHistory := devItemHistory st;
         devCategoriesEverSeen := devCategoriesEverSeen st |}
    end
  | None =>
    {| projectItemHistory := project;
       projectCategoriesEverSeen := projectCats;
       apartmentItemHistory := apartmentItemHistory st;
       apartmentCategoriesEverSeen := apartmentCategoriesEverSeen st;
       devItemHistory := recordItem key item reportIndex isDefect (devItemHistory st);
       devCategoriesEverSeen := {[ WorkItem.category item ]} ∪ devCategoriesEverSeen st |}
  end.

Definition processReport (reportIndex : nat) (st : State) (report : Report.t)
  : State :=
  foldl (processItem reportIndex) st (Report.workItems report).

Fixpoint processReports (reportIndex : nat) (st : State) (reports : list Report.t)
  : State :=
  match reports with
  | [] => st
  | report :: rest =>
    processReports (S reportIndex) (processReport reportIndex st report) rest
  end.

End Timeline.

(** ** status-mapper: categories *)

(** The string enum [WorkCategory]. *)
Module WorkCategory.
Definition ELECTRICAL : jsstring := Eval vm_compute in utf16 "ELECTRICAL".
Definition PLUMBING : jsstring := Eval vm_compute in utf16 "PLUMBING".
Definition AC : jsstring := Eval vm_compute in utf16 "AC".
Definition FLOORING : jsstring := Eval vm_compute in utf16 "FLOORING".
Definition SPRINKLERS : jsstring := Eval vm_compute in utf16 "SPRINKLERS".
Definition DRYWALL : jsstring := Eval vm_compute in utf16 "DRYWALL".
Definition WATERPROOFING : jsstring := Eval vm_compute in utf16 "WATERPROOFING".
Definition PAINTING : jsstring := Eval vm_compute in utf16 "PAINTING".
Definition KITCHEN : jsstring := Eval vm_compute in utf16 "KITCHEN".
Definition OTHER : jsstring := Eval vm_compute in utf16 "OTHER".
End WorkCategory.

Definition CATEGORY_DISPLAY_ORDER : list jsstring :=
  [ WorkCategory.ELECTRICAL; WorkCategory.PLUMBING; WorkCategory.AC;
    WorkCategory.FLOORING; WorkCategory.SPRINKLERS; WorkCategory.DRYWALL;
    WorkCategory.WATERPROOFING; WorkCategory.PAINTING; WorkCategory.KITCHEN;
    WorkCategory.OTHER ].

Definition hebrewCategoryMap : list (jsstring * jsstring) :=
  [ (utf16 "חשמל", WorkCategory.ELECTRICAL);
    (utf16 "אינסטלציה", WorkCategory.PLUMBING);
    (utf16 "מיזוג", WorkCategory.AC);
    (utf16 "מיזוג אויר", WorkCategory.AC);
    (utf16 "ריצוף", WorkCategory.FLOORING);
    (utf16 "חיפוי", WorkCategory.FLOORING);
    (utf16 "מישק", WorkCategory.FLOORING);
    (utf16 "פנלים", WorkCategory.FLOORING);
    (utf16 "ספרינקלרים", WorkCategory.SPRINKLERS);
    (utf16 "ספרינקלר", WorkCategory.SPRINKLERS);
    (utf16 "כיבוי", WorkCategory.SPRINKLERS);
    (utf16 "כיבוי אש", WorkCategory.SPRINKLERS);
    (utf16 "גבס", WorkCategory.DRYWALL);
    (utf16 "הנמכות", WorkCategory.DRYWALL);
    (utf16 "הנמכה", WorkCategory.DRYWALL);
    (utf16 "סינרים", WorkCategory.DRYWALL);
    (utf16 "קונסטרוקציה", WorkCategory.DRYWALL);
    (utf16 "איטום", WorkCategory.WATERPROOFING);
    (utf16 "צביעה", WorkCategory.PAINTING);
    (utf16 "צבע", WorkCategory.PAINTING);
    (utf16 "מטבח", WorkCategory.KITCHEN);
    (utf16 "חלונות", WorkCategory.OTHER);
    (utf16 "דלת כניסה", WorkCategory.OTHER);
    (utf16 "כללי", WorkCategory.OTHER);
    (utf16 "סניטריה", WorkCategory.OTHER);
    (utf16 "פיתוח", WorkCategory.OTHER);
    (utf16 "עבודות פיתוח", WorkCategory.OTHER);
    (utf16 "אחר", WorkCategory.OTHER) ].

(** [normalizeCategory] of the status mapper: exact entry, then the first
    entry of the table whose key occurs in the text, then OTHER.  As for
    [normalizeStatus], the table is read by own properties only. *)
Definition normalizeCategory (hebrewCategory : jsstring) : jsstring :=
  let trimmed := trim hebrewCategory in
  match lookupEntry hebrewCategoryMap trimmed with
  | Some c => c
  | None =>
    match firstIncluded hebrewCategoryMap trimmed with
    | Some c => c
    | None => WorkCategory.OTHER
    end
  end.

(** [xs.indexOf(x)], [None] standing for -1. *)
Fixpoint indexOf (xs : list jsstring) (x : jsstring) : option nat :=
  match xs with
  | [] => None
  | y :: r => if streq y x then Some 0%nat else S <$> indexOf r x
  end.

(** The sort key of [sortCategoriesByDisplayOrder]: the position in the
    display order, or the last position for a category outside it. *)
Definition displayRank (category : jsstring) : nat :=
  match indexOf CATEGORY_DISPLAY_ORDER category with
  | Some index => index
  | None => (length CATEGORY_DISPLAY_ORDER - 1)%nat
  end.

(** [[...items].sort((a, b) => orderA - orderB)]: a stable sort, smallest rank
    first, of any records that carry a category. *)
Fixpoint insertByRank {T} (category : T → jsstring) (e : T) (l : list T) : list T :=
  match l with
  | [] => [e]
  | y :: r =>
    if (displayRank (category y) <? displayRank (category e))%nat
    then y :: insertByRank category e r
    else e :: l
  end.

Definition sortCategoriesByDisplayOrder {T} (category : T → jsstring)
  (items : list T) : list T :=
  foldr (insertByRank category) [] items.

(** ** progress-calculator-v3: verification, categories, legacy roll-up *)

Definition isTrulyVerified (status : jsstring) (notes : option jsstring) : bool :=
  if streq status WorkStatus.COMPLETED_OK then true
  else if streq status WorkStatus.HANDLED then true
  else if streq status WorkStatus.COMPLETED && isVerified notes then true
  else false.

Module WorkItemForProgress.
Record t := {
  category : jsstring;
  status : jsstring;
  notes : option jsstring
}.
End WorkItemForProgress.

Record CategoryProgress := {
  cp_progress : jsnumber;
  cp_hasRegression : bool;
  cp_itemCount : nat;
  cp_verifiedCount : nat;
  cp_defectCount : nat
}.

(** [items.length] as a number. *)
Definition lengthNum {A} (l : list A) : jsnumber :=
  Finite (inject_Z (Z.of_nat (length l))).

(** The loop of [calculateCategoryProgress]: the running total and the two
    counters. *)
Definition categoryLoop (cfg : ProgressConfig)
  (items : list WorkItemForProgress.t) : jsnumber * nat * nat :=
  foldl (λ '(totalProgress, verifiedCount, defectCount) item,
           let itemResult :=
             calculateItemProgressV3 cfg (WorkItemForProgress.status item)
               (WorkItemForProgress.notes item) emptyContext in
           (Number.add totalProgress (Finite (progress itemResult)),
            if leb (VERIFIED_NO_DEFECTS (getProgressThresholds cfg)) (progress itemResult)
            then S verifiedCount else verifiedCount,
            if hasDefect (WorkItemForProgress.status item) (WorkItemForProgress.notes item)
            then S defectCount else defectCount))
        (Finite 0, 0%nat, 0%nat) items.

Definition calculateCategoryProgress (cfg : ProgressConfig)
  (items : list WorkItemForProgress.t) (previousCategoryProgress : jsnumber)
  : CategoryProgress :=
  match items with
  | [] => {| cp_progress := Finite 0; cp_hasRegression := false; cp_itemCount := 0;
             cp_verifiedCount := 0; cp_defectCount := 0 |}
  | _ =>
    let '(totalProgress, verifiedCount, defectCount) := categoryLoop cfg items in
    let progress := Math_round (Number.div totalProgress (lengthNum items)) in
    {| cp_progress := progress;
       cp_hasRegression := Number.lt progress previousCategoryProgress;
       cp_itemCount := length items;
       cp_verifiedCount := verifiedCount;
       cp_defectCount := defectCount |}
  end.

(** The grouping loop shared by the per-category functions: each item is
    pushed onto the array of its category, in a [Map] kept as the list of its
    entries in insertion order. *)
Definition groupByCategory {T} (category : T → jsstring) (items : list T)
  : list (jsstring * list T) :=
  foldl (λ m item,
           setEntry m (category item)
                    (default [] (lookupEntry m (category item)) ++ [item]))
        [] items.

(** One [set] per entry of [groups], into a fresh [Map]. *)
Definition setEach {A B} (f : A → B) (groups : list (jsstring * A))
  : list (jsstring * B) :=
  foldl (λ m entry, setEntry m (fst entry) (f (snd entry))) [] groups.

Definition calculateProgressByCategory (cfg : ProgressConfig)
  (items : list WorkItemForProgress.t) : list (jsstring * jsnumber) :=
  setEach (λ categoryItems,
             cp_progress (calculateCategoryProgress cfg categoryItems (Finite 0)))
          (groupByCategory WorkItemForProgress.category items).

(** The legacy roll-up over the categories that have items. *)
Definition calculateOverallProgress (cfg : ProgressConfig)
  (categoryProgress : list (jsstring * jsnumber)) : jsnumber :=
  if bool_decide (length categoryProgress = 0%nat) then Finite 0 else
  let weights := getCategoryWeights cfg in
  let config := getConfigSafe cfg in
  let '(weightedSum, totalWeight) :=
    foldl (λ '(weightedSum, totalWeight) entry,
             let weight := orNum (lookupEntry weights (fst entry))
                                 (defaultCategoryWeight config) in
             (Number.add weightedSum (Number.mul (snd entry) (Finite weight)),
              Number.add totalWeight (Finite weight)))
          (Finite 0, Finite 0) categoryProgress in
  if Number.strictEq totalWeight (Finite 0) then Finite 0
  else Math_round (Number.div weightedSum totalWeight).

(** ** The statistics route: buckets and category statistics *)

Module StatsLists.

(** [Array.from(itemHistory.values())]: the entries in insertion order. *)
Definition allItems (st : Stats.State) : list Stats.ItemHistory :=
  omap (λ key, Stats.itemHistory st !! key) (Stats.itemKeys st).

(** The filters behind [completedItemsList], [currentDefectItemsList] and
    [inProgressItemsList]. *)
Definition isCompletedEntry (i : Stats.ItemHistory) : bool :=
  negb (Stats.isInLatestReport i)
  || Stats.itemIsCompleted (Stats.status i) (Stats.notes i).

Definition isCurrentDefectEntry (i : Stats.ItemHistory) : bool :=
  Stats.isInLatestReport i && Stats.itemHasDefect (Stats.status i) (Stats.notes i).

Definition isInProgressEntry (i : Stats.ItemHistory) : bool :=
  Stats.isInLatestReport i
  && negb (Stats.itemIsCompleted (Stats.status i) (Stats.notes i))
  && negb (Stats.itemHasDefect (Stats.status i) (Stats.notes i)).

(** [items.reduce((sum, i) => sum + calculateEffectiveProgress(i), 0)
    / items.length], rounded. *)
Definition averageProgress (cfg : ProgressConfig) (latestReportIndex : nat)
  (items : list Stats.ItemHistory) : jsnumber :=
  Math_round
    (Number.div
       (foldl (λ sum i,
                 Number.add sum
                   (Finite (Stats.calculateEffectiveProgress cfg latestReportIndex i)))
              (Finite 0) items)
       (lengthNum items)).

(** The project-level [categoryProgress] map. *)
Definition categoryProgress (cfg : ProgressConfig) (latestReportIndex : nat)
  (st : Stats.State) : list (jsstring * jsnumber) :=
  setEach (averageProgress cfg latestReportIndex)
          (groupByCategory Stats.category (allItems st)).

Definition overallProgress (cfg : ProgressConfig) (reports : list Report.t)
  (st : Stats.State) : jsnumber :=
  calculateOverallProgressWithAllCategories cfg
    (categoryProgress cfg (Stats.latestReportIndex reports) st)
    (Stats.categoriesEverSeen st).

End StatsLists.

(** ** progress-config: saving *)

(** The JSON written for a configuration: every field present. *)
Definition toJSON (config : ProgressConfig) : PartialConfig := {|
  p_categoryWeights := Some (categoryWeights config);
  p_progressThresholds := Some {|
    p_VERIFIED_NO_DEFECTS := Some (VERIFIED_NO_DEFECTS (progressThresholds config));
    p_CATEGORY_GRADUATED := Some (CATEGORY_GRADUATED (progressThresholds config));
    p_ITEM_FIXED := Some (ITEM_FIXED (progressThresholds config));
    p_COMPLETED_OK_LATER := Some (COMPLETED_OK_LATER (progressThresholds config));
    p_COMPLETED_OK_FIRST := Some (COMPLETED_OK_FIRST (progressThresholds config));
    p_HANDLED := Some (HANDLED (progressThresholds config));
    p_COMPLETED_WITH_ISSUES := Some (COMPLETED_WITH_ISSUES (progressThresholds config));
    p_DEFECT_WORK_DONE := Some (DEFECT_WORK_DONE (progressThresholds config));
    p_IN_PROGRESS := Some (IN_PROGRESS (progressThresholds config));
    p_PENDING := Some (PENDING (progressThresholds config));
    p_UNKNOWN := Some (UNKNOWN (progressThresholds config));
    p_NOT_STARTED := Some (NOT_STARTED (progressThresholds config));
    p_CATEGORY_NEVER_SEEN := Some (CATEGORY_NEVER_SEEN (progressThresholds config))
  |};
  p_baselineProgress := Some (baselineProgress config);
  p_maxProgress := Some (maxProgress config);
  p_defectPenalty := Some (defectPenalty config);
  p_defaultCategoryWeight := Some (defaultCategoryWeight config);
  p_lastUpdated := Some (lastUpdated config)
|}.

(** [config.lastUpdated = new Date().toISOString()] *)
Definition stamp (now : jsstring) (config : ProgressConfig) : ProgressConfig := {|
  categoryWeights := categoryWeights config;
  progressThresholds := progressThresholds config;
  baselineProgress := baselineProgress config;
  maxProgress := maxProgress config;
  defectPenalty := defectPenalty config;
  defaultCategoryWeight := defaultCategoryWeight config;
  lastUpdated := Some now
|}.

(** [saveConfig], when the write succeeds: the file it leaves, given the
    clock.  (A failed write rethrows; that path is not modelled.) *)
Definition saveConfig (now : jsstring) (config : ProgressConfig) : ConfigFile :=
  Parsed (toJSON (stamp now config)).

(** ** progress-calculator: the per-report timeline *)

Record ReportItems := {
  ri_reportId : jsstring;
  ri_reportDate : Z;
  ri_items : list WorkItemForProgress.t
}.

Record ReportProgress := {
  rp_reportDate : Z;
  rp_reportId : jsstring;
  rp_overallProgress : jsnumber;
  rp_categoryProgress : list (jsstring * jsnumber);
  rp_totalIssues : nat
}.

Definition calculateProgressTimeline (cfg : ProgressConfig)
  (reportItems : list ReportItems) : list ReportProgress :=
  map (λ report,
         let categoryProgress := calculateProgressByCategory cfg (ri_items report) in
         let overallProgress := calculateOverallProgress cfg categoryProgress in
         let totalIssues :=
           length (List.filter
                     (λ item, hasNegativeNotes (WorkItemForProgress.notes item)
                              || isNegativeStatus (WorkItemForProgress.status item))
                     (ri_items report)) in
         {| rp_reportDate := ri_reportDate report;
            rp_reportId := ri_reportId report;
            rp_overallProgress := overallProgress;
            rp_categoryProgress := categoryProgress;
            rp_totalIssues := totalIssues |})
      reportItems.

(** ** Predicates used to state the properties *)

(** The three statuses that are neither positive nor negative. *)
Definition isNeutralStatus (status : jsstring) : Prop :=
  status = WorkStatus.IN_PROGRESS
  ∨ status = WorkStatus.PENDING
  ∨ status = WorkStatus.NOT_STARTED.

(** The conditions under which a configuration is rejected, as the claim
    lists them, stated on the configuration alone.  The weights are added up
    one after the other, as numbers, and the total is off target when it
    exceeds 100 by more than 0.01 or falls short of it by more than 0.01. *)
Fixpoint addedUp (total : jsnumber) (weights : list (jsstring * Q)) : jsnumber :=
  match weights with
  | [] => total
  | (_, w) :: rest => addedUp (Number.add total (Finite w)) rest
  end.

Definition weightsOffTarget (c : ProgressConfig) : Prop :=
  let excess := Number.sub (addedUp (Finite 0) (categoryWeights c)) (Finite 100) in
  Number.lt (literal 0.01) excess = true
  ∨ Number.lt excess (Number.neg (literal 0.01)) = true.

Definition someNegativeWeight (c : ProgressConfig) : Prop :=
  ∃ cat w, (cat, w) ∈ categoryWeights c ∧ w < 0.

Definition outOfRange (x : Q) : Prop := x < 0 ∨ 100 < x.

Definition someThresholdOutOfRange (c : ProgressConfig) : Prop :=
  let t := progressThresholds c in
  outOfRange (VERIFIED_NO_DEFECTS t)
  ∨ outOfRange (CATEGORY_GRADUATED t)
  ∨ outOfRange (ITEM_FIXED t)
  ∨ outOfRange (COMPLETED_OK_LATER t)
  ∨ outOfRange (COMPLETED_OK_FIRST t)
  ∨ outOfRange (HANDLED t)
  ∨ outOfRange (COMPLETED_WITH_ISSUES t)
  ∨ outOfRange (DEFECT_WORK_DONE t)
  ∨ outOfRange (IN_PROGRESS t)
  ∨ outOfRange (PENDING t)
  ∨ outOfRange (UNKNOWN t)
  ∨ outOfRange (NOT_STARTED t)
  ∨ outOfRange (CATEGORY_NEVER_SEEN t).

Definition errorCondition (c : ProgressConfig) : Prop :=
  weightsOffTarget c
  ∨ someNegativeWeight c
  ∨ someThresholdOutOfRange c
  ∨ outOfRange (baselineProgress c)
  ∨ outOfRange (maxProgress c)
  ∨ maxProgress c <= baselineProgress c
  ∨ defaultCategoryWeight c < 0
  ∨ defectPenalty c < 0.



(** A configuration whose thresholds are all equal and one of whose weights is
    zero: every ordering rule is broken, nothing else is. *)
Definition flatConfig : ProgressConfig := {|
  categoryWeights := [ (utf16 "ELECTRICAL", 100); (utf16 "KITCHEN", 0) ];
  progressThresholds := {|
    VERIFIED_NO_DEFECTS := 50; CATEGORY_GRADUATED := 50; ITEM_FIXED := 50;
    COMPLETED_OK_LATER := 50; COMPLETED_OK_FIRST := 50; HANDLED := 50;
    COMPLETED_WITH_ISSUES := 50; DEFECT_WORK_DONE := 50; IN_PROGRESS := 50;
    PENDING := 50; UNKNOWN := 50; NOT_STARTED := 50; CATEGORY_NEVER_SEEN := 50
  |};
  baselineProgress := 30;
  maxProgress := 95;
  defectPenalty := 0;
  defaultCategoryWeight := 0;
  lastUpdated := None
|}.

(** The presence flag of every item of the history tells whether its key is
    in the latest report. *)
Definition presenceFlagsExact (itemsInLatestReport : gset jsstring)
  (st : Stats.State) : Prop :=
  ∀ key item, Stats.itemHistory st !! key = Some item →
              Stats.isInLatestReport item = bool_decide (key ∈ itemsInLatestReport).

(** The history holds the item [key], flagged as having had a defect. *)
Definition hadDefectAt (st : Stats.State) (key : jsstring) : Prop :=
  ∃ item, Stats.itemHistory st !! key = Some item ∧ Stats.hadDefectEver item = true.

(** Sample data: an apartment with two items in a first report, of which
    only the first is listed again in the second report, with clean notes. *)
Definition apartment1 : Apartment :=
  {| apartmentId := utf16 "apt-1"; number := utf16 "1" |}.

Definition socketItem (status : jsstring) (notes : option jsstring) : WorkItem.t := {|
  WorkItem.id := utf16 "w1";
  WorkItem.apartment := Some apartment1;
  WorkItem.category := utf16 "ELECTRICAL";
  WorkItem.location := None;
  WorkItem.description := utf16 "נקודת חשמל";
  WorkItem.status := status;
  WorkItem.notes := notes
|}.

Definition tapItem : WorkItem.t := {|
  WorkItem.id := utf16 "w2";
  WorkItem.apartment := Some apartment1;
  WorkItem.category := utf16 "PLUMBING";
  WorkItem.location := None;
  WorkItem.description := utf16 "ברז";
  WorkItem.status := WorkStatus.COMPLETED;
  WorkItem.notes := Some (utf16 "חסר כיסוי")
|}.

Definition sampleReports : list Report.t :=
  [ {| Report.reportDate := 1;
       Report.workItems := [ socketItem WorkStatus.DEFECT None; tapItem ] |};
    {| Report.reportDate := 2;
       Report.workItems := [ socketItem WorkStatus.DEFECT None ] |} ].

Definition cleanFollowUp : list Report.t :=
  [ {| Report.reportDate := 3;
       Report.workItems := [ socketItem WorkStatus.COMPLETED_OK None ] |} ].

(** The defaults with two thresholds moved by the administrator: ITEM_FIXED
    down to 80 and DEFECT_WORK_DONE down to 40.  The configuration validates,
    without a warning. *)
Definition retunedConfig : ProgressConfig := {|
  categoryWeights := categoryWeights DEFAULT_CONFIG;
  progressThresholds := {|
    VERIFIED_NO_DEFECTS := 90; CATEGORY_GRADUATED := 90;
    ITEM_FIXED := 80;
    COMPLETED_OK_LATER := 75; COMPLETED_OK_FIRST := 50; HANDLED := 70;
    COMPLETED_WITH_ISSUES := 65;
    DEFECT_WORK_DONE := 40;
    IN_PROGRESS := 30; PENDING := 15; UNKNOWN := 15; NOT_STARTED := 5;
    CATEGORY_NEVER_SEEN := 0
  |};
  baselineProgress := 30;
  maxProgress := 95;
  defectPenalty := 5;
  defaultCategoryWeight := 10;
  lastUpdated := None
|}.

(** The timeline's counterpart: a history holds [key] with [hadDefect] set. *)
Definition hadDefectIn (history : gmap jsstring Timeline.ItemHistory)
  (key : jsstring) : Prop :=
  ∃ item, history !! key = Some item ∧ Timeline.hadDefect item = true.

(** Every defect flag set in [st], in the project, apartment and development
    histories, is set in [st']. *)
Definition defectsKept (st st' : Timeline.State) : Prop :=
  (∀ key, hadDefectIn (Timeline.projectItemHistory st) key →
          hadDefectIn (Timeline.projectItemHistory st') key)
  ∧ (∀ key, hadDefectIn (Timeline.devItemHistory st) key →
            hadDefectIn (Timeline.devItemHistory st') key)
  ∧ (∀ aptId key history,
       Timeline.apartmentItemHistory st !! aptId = Some history →
       hadDefectIn history key →
       ∃ history', Timeline.apartmentItemHistory st' !! aptId = Some history'
                   ∧ hadDefectIn history' key).

(** The report lists the item [key] with the given status and notes, and no
    later record of the same report has that key. *)
Definition listsLast (key status : jsstring) (notes : option jsstring)
  (report : Report.t) : Prop :=
  ∃ pre item post,
    Report.workItems report = pre ++ item :: post
    ∧ Stats.keyOf item = key
    ∧ WorkItem.status item = status
    ∧ WorkItem.notes item = notes
    ∧ Forall (λ other, Stats.keyOf other ≠ key) post.

(** The index at which [key] was first seen, or [idx] if it is new. *)
Definition firstSeenOr (st : Stats.State) (key : jsstring) (idx : nat) : nat :=
  match Stats.itemHistory st !! key with
  | Some existing => Stats.firstSeenReportIndex existing
  | None => idx
  end.

(** The score the statistics route reports for [key] when [reports] is the
    whole list of processed reports. *)
Definition scoreAfter (cfg : ProgressConfig) (apartments : list Apartment)
  (reports : list Report.t) (key : jsstring) : option Q :=
  Stats.calculateEffectiveProgress cfg (Stats.latestReportIndex reports)
    <$> Stats.itemHistory (Stats.buildHistory apartments reports) !! key.

(** What the history holds for [key] after a report that lists it. *)
Definition recorded (itemsInLatestReport : gset jsstring) (key : jsstring)
  (st : Stats.State) (status : jsstring) (notes : option jsstring) (first : nat)
  : Prop :=
  ∃ item, Stats.itemHistory st !! key = Some item
          ∧ Stats.status item = status
          ∧ Stats.notes item = notes
          ∧ Stats.isInLatestReport item = bool_decide (key ∈ itemsInLatestReport)
          ∧ Stats.firstSeenReportIndex item = first.

(** Four reports listing the sample socket item with a given status, each
    followed by another item. *)
Definition statusReport (date : Z) (status : jsstring) : Report.t :=
  {| Report.reportDate := date;
     Report.workItems := [ socketItem status None; tapItem ] |}.

(** The scope aggregation as the specification words it: a weighted mean over
    the categories ever seen, the weight of a category being its configured
    weight when defined and the default weight otherwise.  The sums are taken
    over the categories in the order they were first seen, in the arithmetic
    of numbers. *)
Definition sumOver {A} (f : A → jsnumber) (l : list A) : jsnumber :=
  foldl (λ total a, Number.add total (f a)) (Finite 0) l.

Definition specWeight (cfg : ProgressConfig) (category : jsstring) : Q :=
  default (defaultCategoryWeight cfg) (lookupEntry (categoryWeights cfg) category).

Definition specValue (cfg : ProgressConfig) (current : list (jsstring * jsnumber))
  (category : jsstring) : jsnumber :=
  default (Finite (CATEGORY_GRADUATED (progressThresholds cfg)))
          (lookupEntry current category).

Definition specAggregateScope (cfg : ProgressConfig)
  (current : list (jsstring * jsnumber)) (everSeen : list jsstring) : jsnumber :=
  let totalWeight := sumOver (λ c, Finite (specWeight cfg c)) everSeen in
  let weightedSum :=
    sumOver (λ c, Number.mul (Finite (specWeight cfg c)) (specValue cfg current c))
            everSeen in
  if Number.strictEq totalWeight (Finite 0) then Finite 0
  else Math_round (Number.div weightedSum totalWeight).

(** The weight and the value the code uses for a category. *)
Definition codeWeight (cfg : ProgressConfig) (category : jsstring) : Q :=
  orNum (lookupEntry (getCategoryWeights cfg) category)
        (defaultCategoryWeight (getConfigSafe cfg)).

Definition codeValue (cfg : ProgressConfig) (current : list (jsstring * jsnumber))
  (category : jsstring) : jsnumber :=
  match lookupEntry current category with
  | Some p => orNumber (Some p) (Finite 0)
  | None => Finite (CATEGORY_GRADUATED (getProgressThresholds cfg))
  end.

(** The defaults with the kitchen weight moved to OTHER: the weights still sum
    to 100 and the configuration validates, with a zero-weight warning. *)
Definition kitchenOffConfig : ProgressConfig := {|
  categoryWeights :=
    [ (utf16 "ELECTRICAL", 12); (utf16 "PLUMBING", 10);
      (utf16 "SPRINKLERS", 5); (utf16 "WATERPROOFING", 5);
      (utf16 "DRYWALL", 10); (utf16 "FLOORING", 15); (utf16 "AC", 8);
      (utf16 "PAINTING", 10); (utf16 "KITCHEN", 0); (utf16 "OTHER", 25) ];
  progressThresholds := progressThresholds DEFAULT_CONFIG;
  baselineProgress := 30;
  maxProgress := 95;
  defectPenalty := 5;
  defaultCategoryWeight := 10;
  lastUpdated := None
|}.

Definition kitchenAndOther : list (jsstring * jsnumber) :=
  [ (utf16 "KITCHEN", Finite 5); (utf16 "OTHER", Finite 90) ].

(** The closed sets of status and category codes. *)
Definition allStatuses : list jsstring :=
  [ WorkStatus.COMPLETED; WorkStatus.COMPLETED_OK; WorkStatus.NOT_OK;
    WorkStatus.DEFECT; WorkStatus.IN_PROGRESS; WorkStatus.HANDLED;
    WorkStatus.PENDING; WorkStatus.NOT_STARTED ].

(** A string made of white space only. *)
Definition isBlank (s : jsstring) : Prop := Forall (λ c, isWhiteSpace c = true) s.

(** The score, the verified test and the defect test that
    [calculateCategoryProgress] applies to one item. *)
Definition itemScore (cfg : ProgressConfig) (item : WorkItemForProgress.t) : Q :=
  progress (calculateItemProgressV3 cfg (WorkItemForProgress.status item)
              (WorkItemForProgress.notes item) emptyContext).

Definition scoresVerified (cfg : ProgressConfig) (item : WorkItemForProgress.t)
  : bool :=
  leb (VERIFIED_NO_DEFECTS (getProgressThresholds cfg)) (itemScore cfg item).

Definition itemDefect (item : WorkItemForProgress.t) : bool :=
  hasDefect (WorkItemForProgress.status item) (WorkItemForProgress.notes item).

(** A persisted file that gives two weights and nothing else. *)
Definition weightsOnlyJSON : PartialConfig := {|
  p_categoryWeights := Some [ (utf16 "OTHER", 25); (utf16 "GARDEN", 3) ];
  p_progressThresholds := None;
  p_baselineProgress := None;
  p_maxProgress := None;
  p_defectPenalty := None;
  p_defaultCategoryWeight := None;
  p_lastUpdated := None
|}.

(** All the records of all the reports, in the order the route visits them. *)
Definition allRecords (reports : list Report.t) : list WorkItem.t :=
  mjoin (Report.workItems <$> reports).

(** What every entry of the history satisfies. *)
Definition wellFormedEntry (st : Stats.State) (key : jsstring)
  (item : Stats.ItemHistory) : Prop :=
  key = Stats.apartmentNumber item ++ BAR ++ Stats.category item
        ++ BAR ++ Stats.description item
  ∧ (Stats.hadDefectEver item = true ↔ is_Some (Stats.defectReportDate item))
  ∧ Stats.category item ∈ Stats.categoriesEverSeen st.

(** Every entry was first seen no later than last seen, and last seen before
    the report at [bound]. *)
Definition indexBelow (bound : nat) (st : Stats.State) : Prop :=
  ∀ key item, Stats.itemHistory st !! key = Some item →
    (Stats.firstSeenReportIndex item ≤ Stats.lastSeenReportIndex item
     ∧ Stats.lastSeenReportIndex item < bound)%nat.

Definition wellFormedHistory (st : Stats.State) : Prop :=
  ∀ key item, Stats.itemHistory st !! key = Some item → wellFormedEntry st key item.

(** While the report at [idx] is being processed: an entry was last seen at
    [idx] exactly when its key is among the records processed so far. *)
Definition lastSeenTracks (idx : nat) (processed : list WorkItem.t)
  (st : Stats.State) : Prop :=
  ∀ key item, Stats.itemHistory st !! key = Some item →
    (Stats.lastSeenReportIndex item ≤ idx)%nat
    ∧ (Stats.lastSeenReportIndex item = idx ↔ key ∈ Stats.keyOf <$> processed).

(** A score in range: a finite number between 0 and 100. *)
Definition percentage (a : jsnumber) : Prop :=
  ∃ x, a = Finite x ∧ 0 <= x ∧ x <= 100.

(** A whole number between 0 and [bound]. *)
Definition wholeUpTo (bound : Z) (v : Q) : Prop :=
  ∃ n : Z, (0 <= n <= bound)%Z ∧ v == inject_Z n.

(** Configurations of whole numbers, as the defaults are: every threshold a
    whole percentage; every weight, the default weight included, a whole
    number up to 1000. *)
Definition wholeThresholds (cfg : ProgressConfig) : Prop :=
  ∀ key v, (key, v) ∈ thresholdEntries (progressThresholds cfg) → wholeUpTo 100 v.

Definition wholeWeights (cfg : ProgressConfig) : Prop :=
  (∀ c w, (c, w) ∈ categoryWeights cfg → wholeUpTo 1000 w)
  ∧ wholeUpTo 1000 (defaultCategoryWeight cfg).

(** The sum of whole scores, as an integer. *)
Definition wholeSum (scores : list Q) : Z :=
  foldr (λ v total, Qfloor v + total)%Z 0%Z scores.

(** Two weights that add up, in decimals, to 100.01. *)
Definition tolerancePair : ProgressConfig := {|
  categoryWeights :=
    [ (utf16 "ELECTRICAL", double 85.36); (utf16 "OTHER", double 14.65) ];
  progressThresholds := progressThresholds DEFAULT_CONFIG;
  baselineProgress := 30;
  maxProgress := 95;
  defectPenalty := 5;
  defaultCategoryWeight := 10;
  lastUpdated := None
|}.

(** The defaults with a default weight near the top of the number range; the
    configuration validates. *)
Definition hugeDefaultWeight : ProgressConfig := {|
  categoryWeights := categoryWeights DEFAULT_CONFIG;
  progressThresholds := progressThresholds DEFAULT_CONFIG;
  baselineProgress := 30;
  maxProgress := 95;
  defectPenalty := 5;
  defaultCategoryWeight := double (10 ^ 307);
  lastUpdated := None
|}.

(** Thresholds with decimals, on which the order of addition shows. *)
Definition decimalConfig : ProgressConfig := {|
  categoryWeights := categoryWeights DEFAULT_CONFIG;
  progressThresholds := {|
    VERIFIED_NO_DEFECTS := 90; CATEGORY_GRADUATED := 90; ITEM_FIXED := 90;
    COMPLETED_OK_LATER := 75; COMPLETED_OK_FIRST := 50;
    HANDLED := double 65.3;
    COMPLETED_WITH_ISSUES := 65; DEFECT_WORK_DONE := 55;
    IN_PROGRESS := 28;
    PENDING := 15; UNKNOWN := 15;
    NOT_STARTED := double 13.1;
    CATEGORY_NEVER_SEEN := 0
  |};
  baselineProgress := 30;
  maxProgress := 95;
  defectPenalty := 5;
  defaultCategoryWeight := 10;
  lastUpdated := None
|}.

Definition kitchenItem (status : jsstring) : WorkItemForProgress.t :=
  {| WorkItemForProgress.category := WorkCategory.KITCHEN;
     WorkItemForProgress.status := status;
     WorkItemForProgress.notes := None |}.

(** The names every plain object inherits from [Object.prototype].  A table
    kept as a plain object answers the inherited member under such a name,
    not an entry of the table.  The model reads tables by their own entries,
    so what is proved about a read under an arbitrary name is stated for the
    other names. *)
Definition objectPrototypeMembers : list jsstring :=
  map utf16
  [ "constructor"; "__defineGetter__"; "__defineSetter__"; "hasOwnProperty";
    "__lookupGetter__"; "__lookupSetter__"; "isPrototypeOf";
    "propertyIsEnumerable"; "toString"; "valueOf"; "__proto__";
    "toLocaleString" ]%string.

Definition ownName (name : jsstring) : Prop := name ∉ objectPrototypeMembers.

(** * Properties *)

(** ** Strings and status codes *)

Lemma streq_eq (a b : jsstring) : streq a b = true ↔ a = b.
Proof. unfold streq. apply bool_decide_eq_true. Qed.

Lemma streq_refl (a : jsstring) : streq a a = true.
Proof. by apply streq_eq. Qed.

Lemma streq_neq (a b : jsstring) : a ≠ b → streq a b = false.
Proof. unfold streq. apply bool_decide_eq_false_2. Qed.

Lemma elem_of_setAdd (s : list jsstring) (x y : jsstring) :
  y ∈ setAdd s x ↔ y ∈ s ∨ y = x.
Proof.
  unfold setAdd. destruct (existsb (streq x) s) eqn:E.
  - split; [auto |]. intros [? | ->]; [done |].
    apply existsb_exists in E as (z & Hz & Heq).
    apply streq_eq in Heq as ->. by apply list_elem_of_In.
  - by rewrite elem_of_app, list_elem_of_singleton.
Qed.

Lemma neutral_not_negative status :
  isNeutralStatus status → isNegativeStatus status = false.
Proof. by intros [-> | [-> | ->]]. Qed.

Lemma neutral_not_positive status :
  isNeutralStatus status → isPositiveStatus status = false.
Proof. by intros [-> | [-> | ->]]. Qed.

Lemma getEffectiveStatus_neutral status notes :
  isNeutralStatus status → getEffectiveStatus status notes = status.
Proof.
  intros Hs. unfold getEffectiveStatus.
  by rewrite (neutral_not_negative _ Hs), (neutral_not_positive _ Hs).
Qed.

(** The effective status is the raw one unless a positive status meets
    negative notes. *)
Lemma getEffectiveStatus_unpromoted status notes :
  isPositiveStatus status && hasNegativeNotes notes = false →
  getEffectiveStatus status notes = status.
Proof.
  intros H. unfold getEffectiveStatus. rewrite H. by destruct (isNegativeStatus _).
Qed.

(** ** The status normaliser *)

(** The substring loop of the status mapper answers with the first entry of
    the table, in the order written, whose key occurs in the text. *)
Lemma firstIncluded_first pre hebrew status post text :
  Forall (λ e, includes text (fst e) = false) pre →
  includes text hebrew = true →
  firstIncluded (pre ++ (hebrew, status) :: post) text = Some status.
Proof.
  intros Hpre Hin. induction Hpre as [| [k v] pre Hk _ IH]; simpl.
  - by rewrite Hin.
  - simpl in Hk. by rewrite Hk.
Qed.

(** C3 (the code departs from it).  The status mapper's [normalizeStatus] has
    no defect-keyword scan: on "בוצע, נמצאו אי תאומים" there is no exact entry
    and the first key of the table, "בוצע", occurs in the text, so the answer
    is COMPLETED.  The ingestion route's copy scans the defect keywords first
    and answers DEFECT on the same text. *)
Theorem C3_status_mapper_headline_wins :
  normalizeStatus (utf16 "בוצע, נמצאו אי תאומים") = WorkStatus.COMPLETED
  ∧ normalizeStatus (utf16 "בוצע, נמצאו אי תאומים") ≠ WorkStatus.DEFECT
  ∧ Ingestion.normalizeStatus (utf16 "בוצע, נמצאו אי תאומים") None
    = WorkStatus.DEFECT.
Proof. by vm_compute. Qed.

(** C4 (the code departs from it).  The status mapper tries the keys in the
    order of the table, not longest first: "בוצע - תקין." contains both "בוצע"
    and the longer "בוצע - תקין", matches no entry exactly, and is answered
    with COMPLETED, the status of the shorter key.  The ingestion route's
    copy sorts the entries longest key first and answers COMPLETED_OK. *)
Theorem C4_status_mapper_table_order :
  let text := utf16 "בוצע - תקין." in
  includes (trim text) (utf16 "בוצע") = true
  ∧ includes (trim text) (utf16 "בוצע - תקין") = true
  ∧ lookupEntry hebrewStatusMap (trim text) = None
  ∧ lookupEntry hebrewStatusMap (utf16 "בוצע - תקין") = Some WorkStatus.COMPLETED_OK
  ∧ normalizeStatus text = WorkStatus.COMPLETED
  ∧ Ingestion.normalizeStatus text None = WorkStatus.COMPLETED_OK.
Proof. by vm_compute. Qed.

(** ** The configuration store *)

(** C8.  With no persisted file [loadConfig] returns the defaults, and they
    validate: [valid] is true, there is no error (and no warning). *)
Theorem C8_default_config_validates :
  loadConfig NoFile = DEFAULT_CONFIG
  ∧ valid (validateConfig (loadConfig NoFile)) = true
  ∧ errors (validateConfig (loadConfig NoFile)) = []
  ∧ warnings (validateConfig (loadConfig NoFile)) = [].
Proof. by vm_compute. Qed.

(** A file that cannot be read or parsed falls back to the same defaults. *)
Lemma loadConfig_unreadable : loadConfig Unreadable = DEFAULT_CONFIG.
Proof. reflexivity. Qed.

(** ** The item scorer *)

Section Scorer.

Variable cfg : ProgressConfig.

Lemma progress_mkResult p r context : progress (mkResult p r context) = p.
Proof. reflexivity. Qed.

(** The score for each effective status. *)
Lemma score_defect status notes context :
  getEffectiveStatus status notes = WorkStatus.DEFECT
  ∨ getEffectiveStatus status notes = WorkStatus.NOT_OK →
  progress (calculateItemProgressV3 cfg status notes context)
  = DEFECT_WORK_DONE (getProgressThresholds cfg).
Proof.
  unfold calculateItemProgressV3. intros [-> | ->]; reflexivity.
Qed.

Lemma score_neutral status notes context :
  isNeutralStatus status →
  progress (calculateItemProgressV3 cfg status notes context)
  = if streq status WorkStatus.IN_PROGRESS then IN_PROGRESS (getProgressThresholds cfg)
    else if streq status WorkStatus.PENDING then PENDING (getProgressThresholds cfg)
    else NOT_STARTED (getProgressThresholds cfg).
Proof.
  intros Hs. unfold calculateItemProgressV3.
  rewrite (getEffectiveStatus_neutral _ notes Hs).
  by destruct Hs as [-> | [-> | ->]].
Qed.

(** C10.  For a raw status that is neither positive nor negative and notes
    that contain a defect keyword, the effective status is the raw status,
    the score is the threshold of the raw status, and the item still counts
    as a defect for the issue counters. *)
Theorem C10_neutral_status_with_defect_notes status notes context :
  isNeutralStatus status →
  hasNegativeNotes notes = true →
  getEffectiveStatus status notes = status
  ∧ (status = WorkStatus.IN_PROGRESS →
     progress (calculateItemProgressV3 cfg status notes context)
     = IN_PROGRESS (getProgressThresholds cfg))
  ∧ (status = WorkStatus.PENDING →
     progress (calculateItemProgressV3 cfg status notes context)
     = PENDING (getProgressThresholds cfg))
  ∧ (status = WorkStatus.NOT_STARTED →
     progress (calculateItemProgressV3 cfg status notes context)
     = NOT_STARTED (getProgressThresholds cfg))
  ∧ Stats.itemHasDefect status notes = true.
Proof.
  intros Hs Hn. split; [by apply getEffectiveStatus_neutral |].
  repeat split.
  - intros ->. by rewrite score_neutral.
  - intros ->. by rewrite score_neutral.
  - intros ->. by rewrite score_neutral.
  - unfold Stats.itemHasDefect. rewrite Hn. by destruct (isNegativeStatus _).
Qed.

End Scorer.

Lemma C10_witness :
  isNeutralStatus WorkStatus.IN_PROGRESS
  ∧ hasNegativeNotes (Some (utf16 "חסר כיסוי")) = true
  ∧ progress (calculateItemProgressV3 DEFAULT_CONFIG WorkStatus.IN_PROGRESS
                (Some (utf16 "חסר כיסוי")) emptyContext) = 30
  ∧ Stats.itemHasDefect WorkStatus.IN_PROGRESS (Some (utf16 "חסר כיסוי")) = true.
Proof.
  assert (Hs : isNeutralStatus WorkStatus.IN_PROGRESS) by (left; reflexivity).
  assert (Hn : hasNegativeNotes (Some (utf16 "חסר כיסוי")) = true) by (vm_compute; reflexivity).
  pose proof (C10_neutral_status_with_defect_notes DEFAULT_CONFIG
                WorkStatus.IN_PROGRESS (Some (utf16 "חסר כיסוי")) emptyContext Hs Hn)
    as (_ & Hp & _ & _ & Hd).
  exact (conj Hs (conj Hn (conj (Hp eq_refl) Hd))).
Defined.

(** The standalone V2 scorer and V3 agree wherever V3 does not promote a
    positive status to DEFECT (under the default thresholds, which V2 has
    built in). *)
Lemma v2_v3_agree_unpromoted status notes context :
  isPositiveStatus status && hasNegativeNotes notes = false →
  ProgressCalculatorV2.calculateItemProgressV2 status notes context
  = calculateItemProgressV3 DEFAULT_CONFIG status notes context.
Proof.
  intros H.
  unfold ProgressCalculatorV2.calculateItemProgressV2, calculateItemProgressV3.
  rewrite (getEffectiveStatus_unpromoted _ _ H).
  unfold isPositiveStatus in H.
  destruct (streq status WorkStatus.COMPLETED_OK) eqn:E1;
    destruct (streq status WorkStatus.COMPLETED) eqn:E2;
    destruct (streq status WorkStatus.HANDLED) eqn:E3;
    simpl in H; try rewrite H; reflexivity.
Qed.

(** C9 (the code departs from it).  On a COMPLETED item whose notes contain a
    defect keyword the standalone V2 scorer answers COMPLETED_WITH_ISSUES (65)
    and V3 answers DEFECT_WORK_DONE (55); likewise for COMPLETED_OK (65
    against 55) and HANDLED (70 against 55). *)
Theorem C9_v2_v3_differ_on_promoted_defect :
  let notes := Some (utf16 "חסר כיסוי") in
  progress (ProgressCalculatorV2.calculateItemProgressV2
              WorkStatus.COMPLETED notes emptyContext) = 65
  ∧ progress (calculateItemProgressV3 DEFAULT_CONFIG
                WorkStatus.COMPLETED notes emptyContext) = 55
  ∧ progress (ProgressCalculatorV2.calculateItemProgressV2
                WorkStatus.COMPLETED_OK notes emptyContext) = 65
  ∧ progress (calculateItemProgressV3 DEFAULT_CONFIG
                WorkStatus.COMPLETED_OK notes emptyContext) = 55
  ∧ progress (ProgressCalculatorV2.calculateItemProgressV2
                WorkStatus.HANDLED notes emptyContext) = 70
  ∧ progress (calculateItemProgressV3 DEFAULT_CONFIG
                WorkStatus.HANDLED notes emptyContext) = 55.
Proof. by vm_compute. Qed.

(** ** Validation *)

Section Validation.

Lemma ltb_lt a b : ltb a b = true ↔ a < b.
Proof.
  unfold ltb. rewrite negb_true_iff, <- not_true_iff_false, Qle_bool_iff.
  split; [apply Qnot_le_lt | apply Qlt_not_le].
Qed.

Lemma leb_le a b : leb a b = true ↔ a <= b.
Proof. apply Qle_bool_iff. Qed.

Lemma numeq_eq a b : numeq a b = true ↔ a == b.
Proof. apply Qeq_bool_iff. Qed.

Lemma outOfRange_test x : ltb x 0 || ltb 100 x = true ↔ outOfRange x.
Proof. unfold outOfRange. by rewrite orb_true_iff, !ltb_lt. Qed.

Lemma pushIf_nonempty {A} (cond : bool) (x : A) : pushIf cond x ≠ [] ↔ cond = true.
Proof. by destruct cond. Qed.

Lemma flat_map_pushIf_nonempty {A B} (test : A → bool) (mk : A → B) (l : list A) :
  flat_map (λ e, pushIf (test e) (mk e)) l ≠ [] ↔ ∃ e, e ∈ l ∧ test e = true.
Proof.
  induction l as [| a l IH]; simpl.
  - split; [done | by intros (e & He%elem_of_nil & _)].
  - destruct (test a) eqn:Ea; simpl.
    + split; [| done]. intros _. exists a. by rewrite elem_of_cons; auto.
    + rewrite IH. split.
      * intros (e & He & Ht). exists e. rewrite elem_of_cons. auto.
      * intros (e & [-> | He]%elem_of_cons & Ht); [congruence | eauto].
Qed.

Lemma app_nonempty {A} (l1 l2 : list A) : l1 ++ l2 ≠ [] ↔ l1 ≠ [] ∨ l2 ≠ [].
Proof.
  destruct l1 as [| a l1]; simpl.
  - split; [by right | by intros [? | ?]].
  - split; [by left | done].
Qed.

Lemma valid_false_iff config :
  valid (validateConfig config) = false ↔ errors (validateConfig config) ≠ [].
Proof.
  unfold validateConfig; cbv zeta; cbn [valid errors].
  rewrite bool_decide_eq_false. by rewrite length_zero_iff_nil.
Qed.

(** The code's running total is the total of the weights added up in turn. *)
Lemma sumValues_addedUp weights :
  sumValues weights = addedUp (Finite 0) weights.
Proof.
  unfold sumValues. generalize (Finite 0).
  induction weights as [| [cat w] rest IH]; intros total; [done |].
  apply IH.
Qed.

Lemma literal_hundredth : ∃ q, literal 0.01 = Finite q ∧ 0 < q.
Proof. eexists. split; [vm_compute; reflexivity | reflexivity]. Qed.

(** [l < Math.abs(d)] for a positive [l]: [d] is above [l] or below [-l]. *)
Lemma lt_abs l d :
  0 < l →
  Number.lt (Finite l) (Number.abs d) = true
  ↔ Number.lt (Finite l) d = true ∨ Number.lt d (Number.neg (Finite l)) = true.
Proof.
  intros Hl. destruct d as [x | | |]; cbn [Number.abs Number.lt Number.neg].
  - fold (ltb l (Qabs x)) (ltb l x) (ltb x (- l)). rewrite !ltb_lt.
    split.
    + intros H. destruct (Qlt_le_dec x 0) as [Hx | Hx].
      * right. rewrite Qabs_neg in H by lra. lra.
      * left. by rewrite Qabs_pos in H.
    + intros [H | H].
      * rewrite Qabs_pos; lra.
      * rewrite Qabs_neg; lra.
  - tauto.
  - tauto.
  - split; [done | by intros [? | ?]].
Qed.

Lemma thresholds_test (t : ProgressThresholds) :
  (∃ e : jsstring * Q, e ∈ thresholdEntries t ∧ ltb e.2 0 || ltb 100 e.2 = true)
  ↔ outOfRange (VERIFIED_NO_DEFECTS t)
    ∨ outOfRange (CATEGORY_GRADUATED t)
    ∨ outOfRange (ITEM_FIXED t)
    ∨ outOfRange (COMPLETED_OK_LATER t)
    ∨ outOfRange (COMPLETED_OK_FIRST t)
    ∨ outOfRange (HANDLED t)
    ∨ outOfRange (COMPLETED_WITH_ISSUES t)
    ∨ outOfRange (DEFECT_WORK_DONE t)
    ∨ outOfRange (IN_PROGRESS t)
    ∨ outOfRange (PENDING t)
    ∨ outOfRange (UNKNOWN t)
    ∨ outOfRange (NOT_STARTED t)
    ∨ outOfRange (CATEGORY_NEVER_SEEN t).
Proof.
  split.
  - intros (e & He & Ht). apply outOfRange_test in Ht.
    unfold thresholdEntries in He. rewrite !elem_of_cons, elem_of_nil in He.
    repeat (destruct He as [-> | He]; [cbn [snd] in Ht; tauto |]). done.
  - unfold thresholdEntries. intros H.
    repeat match type of H with _ ∨ _ => destruct H as [H | H] end;
      apply outOfRange_test in H;
      (eexists (_, _); split; [| cbn [snd]; exact H]);
      rewrite !elem_of_cons; eauto 20.
Qed.

Lemma errors_nonempty_iff config :
  errors (validateConfig config) ≠ [] ↔ errorCondition config.
Proof.
  unfold errorCondition, validateConfig; cbv zeta; cbn [errors].
  rewrite !app_nonempty, !pushIf_nonempty, !flat_map_pushIf_nonempty.
  rewrite !outOfRange_test, leb_le, !ltb_lt, thresholds_test.
  unfold weightsOffTarget, someNegativeWeight, someThresholdOutOfRange. cbv zeta.
  rewrite sumValues_addedUp.
  destruct literal_hundredth as (q & -> & Hq). rewrite (lt_abs _ _ Hq).
  assert (Hw : (∃ e : jsstring * Q, e ∈ categoryWeights config ∧ ltb e.2 0 = true)
               ↔ ∃ cat w, (cat, w) ∈ categoryWeights config ∧ w < 0).
  { split.
    - intros ([cat w] & He & Ht). exists cat, w. by rewrite <- ltb_lt.
    - intros (cat & w & He & Ht). exists (cat, w). by rewrite ltb_lt. }
  rewrite Hw. tauto.
Qed.



(** At the edge of the tolerance the rounding of the sum decides: 85.36 and
    14.65 add up, as numbers, to a little more than 100.01, and the
    configuration is rejected. *)
Lemma validateConfig_at_the_tolerance :
  valid (validateConfig tolerancePair) = false
  ∧ weightsOffTarget tolerancePair.
Proof. split; [by vm_compute | left; by vm_compute]. Qed.

(** A configuration that breaks every ordering rule and has a zero weight
    still validates, with warnings only. *)
Lemma flatConfig_valid_with_warnings :
  valid (validateConfig flatConfig) = true
  ∧ errors (validateConfig flatConfig) = []
  ∧ warnings (validateConfig flatConfig)
    = [ ZeroWeight (utf16 "KITCHEN"); VerifiedNotAboveLater; LaterNotAboveFirst;
        HandledNotAboveDefect; DefectNotAboveInProgress;
        InProgressNotAbovePending; PendingNotAboveNotStarted ].
Proof. by vm_compute. Qed.

End Validation.

(** ** The item history of the statistics route *)

Section StatsHistory.

Import Stats.

Variable itemsInLatestReport : gset jsstring.

(** A property of the state kept by every item step is kept by the loops. *)
Lemma processReport_invariant (P : State → Prop) :
  (∀ idx date st item, P st → P (processItem itemsInLatestReport idx date st item)) →
  ∀ report idx st, P st → P (processReport itemsInLatestReport idx st report).
Proof.
  intros Hstep report idx. unfold processReport.
  induction (Report.workItems report) as [| item items IH]; intros st Hst; simpl.
  - exact Hst.
  - apply IH, Hstep, Hst.
Qed.

Lemma processReports_invariant (P : State → Prop) :
  (∀ idx date st item, P st → P (processItem itemsInLatestReport idx date st item)) →
  ∀ reports idx st, P st → P (processReports itemsInLatestReport idx st reports).
Proof.
  intros Hstep reports.
  induction reports as [| report rest IH]; intros idx st Hst; simpl.
  - exact Hst.
  - by apply IH, processReport_invariant.
Qed.

Lemma processReports_app earlier later idx st :
  processReports itemsInLatestReport idx st (earlier ++ later)
  = processReports itemsInLatestReport (idx + length earlier)
      (processReports itemsInLatestReport idx st earlier) later.
Proof.
  revert idx st. induction earlier as [| r earlier IH]; intros idx st; simpl.
  - by rewrite Nat.add_0_r.
  - rewrite IH. f_equal. lia.
Qed.

(** One step leaves every other key alone. *)
Lemma processItem_lookup_ne idx date st item key :
  keyOf item ≠ key →
  itemHistory (processItem itemsInLatestReport idx date st item) !! key
  = itemHistory st !! key.
Proof.
  intros Hne. unfold processItem; cbn [itemHistory].
  destruct (itemHistory st !! keyOf item); by rewrite lookup_insert_ne.
Qed.

Lemma processItem_presenceFlags idx date st item :
  presenceFlagsExact itemsInLatestReport st →
  presenceFlagsExact itemsInLatestReport
    (processItem itemsInLatestReport idx date st item).
Proof.
  intros Hst key it. destruct (decide (keyOf item = key)) as [<- | Hne].
  - unfold processItem; cbn [itemHistory].
    destruct (itemHistory st !! keyOf item);
      rewrite lookup_insert_eq; by intros [= <-].
  - rewrite processItem_lookup_ne by done. apply Hst.
Qed.

Lemma processItem_hadDefect idx date st item key :
  hadDefectAt st key →
  hadDefectAt (processItem itemsInLatestReport idx date st item) key.
Proof.
  intros (it & Hit & Hd). destruct (decide (keyOf item = key)) as [<- | Hne].
  - unfold hadDefectAt, processItem; cbn [itemHistory]. rewrite Hit.
    rewrite lookup_insert_eq. eexists; split; [done |]. cbn. rewrite Hd.
    by destruct (itemHasDefect _ _).
  - exists it. by rewrite processItem_lookup_ne.
Qed.

Lemma processReports_hadDefect reports idx st key :
  hadDefectAt st key →
  hadDefectAt (processReports itemsInLatestReport idx st reports) key.
Proof.
  apply (processReports_invariant (λ st, hadDefectAt st key)).
  intros. by apply processItem_hadDefect.
Qed.

End StatsHistory.

Lemma buildHistory_presenceFlags apartments reports :
  presenceFlagsExact (Stats.latestKeys reports)
    (Stats.buildHistory apartments reports).
Proof.
  unfold Stats.buildHistory.
  apply (processReports_invariant _ (presenceFlagsExact _)).
  - intros. by apply processItem_presenceFlags.
  - intros key item. cbn. by rewrite lookup_empty.
Qed.

(** The scores of the two cases, for every configuration: a listed item whose
    effective status is DEFECT or NOT_OK scores the DEFECT_WORK_DONE threshold
    of the active configuration; an item that is not in the latest report
    scores the ITEM_FIXED of the legacy export [PROGRESS_THRESHOLDS], the
    built-in default, whatever the active configuration says. *)
Lemma scores_of_defect_and_disappeared cfg apartments reports key item :
  Stats.itemHistory (Stats.buildHistory apartments reports) !! key = Some item →
  (key ∈ Stats.latestKeys reports →
   getEffectiveStatus (Stats.status item) (Stats.notes item) = WorkStatus.DEFECT
   ∨ getEffectiveStatus (Stats.status item) (Stats.notes item) = WorkStatus.NOT_OK →
   Stats.calculateEffectiveProgress cfg (Stats.latestReportIndex reports) item
   = DEFECT_WORK_DONE (getProgressThresholds cfg))
  ∧ (key ∉ Stats.latestKeys reports →
     Stats.calculateEffectiveProgress cfg (Stats.latestReportIndex reports) item
     = ITEM_FIXED (progressThresholds DEFAULT_CONFIG)).
Proof.
  intros Hitem.
  pose proof (buildHistory_presenceFlags apartments reports key item Hitem) as Hflag.
  unfold Stats.calculateEffectiveProgress. rewrite Hflag. split.
  - intros Hin Heff. rewrite bool_decide_eq_true_2 by done.
    unfold calculateItemProgressV2. by apply score_defect.
  - intros Hout. by rewrite bool_decide_eq_false_2.
Qed.

(** C1 (the code departs from it).  The listed half holds: an item in the
    latest report whose effective status is DEFECT scores the DEFECT_WORK_DONE
    threshold of the active configuration.  The disappeared half reads
    [PROGRESS_THRESHOLDS.ITEM_FIXED], the legacy export bound once to the
    defaults, not the active configuration.  Under [retunedConfig], which sets
    ITEM_FIXED to 80 and DEFECT_WORK_DONE to 40 and validates, the socket
    still listed as DEFECT scores 40, and the tap that is no longer listed
    scores 90, not 80. *)
Theorem C1_disappeared_item_ignores_configured_ITEM_FIXED :
  ∃ socket tap,
    valid (validateConfig retunedConfig) = true
    ∧ Stats.itemHistory (Stats.buildHistory [apartment1] sampleReports)
        !! Stats.keyOf (socketItem WorkStatus.DEFECT None) = Some socket
    ∧ Stats.itemHistory (Stats.buildHistory [apartment1] sampleReports)
        !! Stats.keyOf tapItem = Some tap
    ∧ Stats.isInLatestReport socket = true
    ∧ Stats.isInLatestReport tap = false
    ∧ DEFECT_WORK_DONE (getProgressThresholds retunedConfig) = 40
    ∧ Stats.calculateEffectiveProgress retunedConfig
        (Stats.latestReportIndex sampleReports) socket = 40
    ∧ ITEM_FIXED (getProgressThresholds retunedConfig) = 80
    ∧ Stats.calculateEffectiveProgress retunedConfig
        (Stats.latestReportIndex sampleReports) tap = 90.
Proof.
  eexists _, _.
  split; [by vm_compute |].
  split; [vm_compute; reflexivity |]. split; [vm_compute; reflexivity |].
  by vm_compute.
Qed.

(** ** The item history of the timeline route *)

Section TimelineHistory.

Import Timeline.

Lemma recordItem_hadDefect key' item idx isDefect history key :
  hadDefectIn history key →
  hadDefectIn (recordItem key' item idx isDefect history) key.
Proof.
  intros (it & Hit & Hd). unfold recordItem.
  destruct (decide (key' = key)) as [-> | Hne].
  - rewrite Hit. exists {|
      category := category it;
      status := WorkItem.status item;
      notes := WorkItem.notes item;
      firstSeenReportIndex := firstSeenReportIndex it;
      lastSeenReportIndex := idx;
      hadDefect := if isDefect then true else hadDefect it |}.
    rewrite lookup_insert_eq. split; [done |]. cbn. rewrite Hd. by destruct isDefect.
  - exists it. destruct (history !! key'); by rewrite lookup_insert_ne.
Qed.

Lemma defectsKept_refl st : defectsKept st st.
Proof. repeat split; eauto. Qed.

Lemma defectsKept_trans st1 st2 st3 :
  defectsKept st1 st2 → defectsKept st2 st3 → defectsKept st1 st3.
Proof.
  intros (Hp & Hd & Ha) (Hp' & Hd' & Ha'). repeat split; eauto.
  intros aptId key history Hh Hk.
  destruct (Ha aptId key history Hh Hk) as (h2 & Hh2 & Hk2). eauto.
Qed.

Lemma processItem_defectsKept idx st item :
  defectsKept st (processItem idx st item).
Proof.
  unfold processItem.
  destruct (apartmentIdOf item) as [aptId |] eqn:Eapt.
  - destruct (apartmentItemHistory st !! aptId) as [aptHistory |] eqn:Eh;
      [destruct (apartmentCategoriesEverSeen st !! aptId) eqn:Ec |];
      (split; [| split]); cbn;
      try (intros; by apply recordItem_hadDefect); try (by eauto).
    intros apt key history Hh Hk.
    destruct (decide (aptId = apt)) as [<- | Hne].
    + rewrite lookup_insert_eq. eexists; split; [done |].
      rewrite Eh in Hh. injection Hh as <-. by apply recordItem_hadDefect.
    + rewrite lookup_insert_ne by done. eauto.
  - (split; [| split]); cbn;
      try (intros; by apply recordItem_hadDefect); by eauto.
Qed.

Lemma processReport_defectsKept idx st report :
  defectsKept st (processReport idx st report).
Proof.
  unfold processReport. revert st.
  induction (Report.workItems report) as [| item items IH]; intros st; simpl.
  - apply defectsKept_refl.
  - eapply defectsKept_trans; [apply processItem_defectsKept | apply IH].
Qed.

Lemma processReports_defectsKept reports idx st :
  defectsKept st (processReports idx st reports).
Proof.
  revert idx st. induction reports as [| report rest IH]; intros idx st; simpl.
  - apply defectsKept_refl.
  - eapply defectsKept_trans; [apply processReport_defectsKept | apply IH].
Qed.

Lemma timeline_processReports_app earlier later idx st :
  processReports idx st (earlier ++ later)
  = processReports (idx + length earlier) (processReports idx st earlier) later.
Proof.
  revert idx st. induction earlier as [| r earlier IH]; intros idx st; simpl.
  - by rewrite Nat.add_0_r.
  - rewrite IH. f_equal. lia.
Qed.

End TimelineHistory.

(** C5.  The defect flag is monotonic over the fold.  In the statistics route:
    an item whose [hadDefectEver] is set after the reports [earlier] still has
    it set after the further reports [later], whatever they record.  In the
    timeline route: every [hadDefect] flag set after [earlier], in the
    project, apartment and development histories, is set after [later]. *)
Theorem C5_hadDefectEver_monotonic apartments earlier later key :
  (hadDefectAt
     (Stats.processReports (Stats.latestKeys (earlier ++ later)) 0
        (Stats.initialState apartments) earlier) key →
   hadDefectAt (Stats.buildHistory apartments (earlier ++ later)) key)
  ∧ defectsKept
      (Timeline.processReports 0 (Timeline.initialState apartments) earlier)
      (Timeline.processReports 0 (Timeline.initialState apartments)
         (earlier ++ later)).
Proof.
  split.
  - intros H. unfold Stats.buildHistory. rewrite processReports_app.
    by apply processReports_hadDefect.
  - rewrite timeline_processReports_app. apply processReports_defectsKept.
Qed.

Lemma C5_witness :
  hadDefectAt
    (Stats.processReports (Stats.latestKeys (sampleReports ++ cleanFollowUp)) 0
       (Stats.initialState [apartment1]) sampleReports)
    (Stats.keyOf (socketItem WorkStatus.DEFECT None))
  ∧ Stats.itemHasDefect WorkStatus.COMPLETED_OK None = false
  ∧ hadDefectAt (Stats.buildHistory [apartment1] (sampleReports ++ cleanFollowUp))
      (Stats.keyOf (socketItem WorkStatus.DEFECT None)).
Proof.
  assert (H : hadDefectAt
    (Stats.processReports (Stats.latestKeys (sampleReports ++ cleanFollowUp)) 0
       (Stats.initialState [apartment1]) sampleReports)
    (Stats.keyOf (socketItem WorkStatus.DEFECT None))).
  { eexists. split; vm_compute; reflexivity. }
  split; [exact H |]. split; [vm_compute; reflexivity |].
  exact (proj1 (C5_hadDefectEver_monotonic [apartment1] sampleReports cleanFollowUp
                  (Stats.keyOf (socketItem WorkStatus.DEFECT None))) H).
Defined.

(** ** Scores of one item along successive reports *)

Section ItemAlongReports.

Import Stats.

Variable itemsInLatestReport : gset jsstring.
Variable key : jsstring.

Lemma processItem_firstSeenOr idx date st item :
  firstSeenOr (processItem itemsInLatestReport idx date st item) key idx
  = firstSeenOr st key idx.
Proof.
  unfold firstSeenOr. destruct (decide (keyOf item = key)) as [<- | Hne].
  - unfold processItem; cbn [itemHistory].
    destruct (itemHistory st !! keyOf item); by rewrite lookup_insert_eq.
  - by rewrite processItem_lookup_ne.
Qed.

Lemma foldl_processItem_firstSeenOr idx date items st :
  firstSeenOr (foldl (processItem itemsInLatestReport idx date) st items) key idx
  = firstSeenOr st key idx.
Proof.
  revert st. induction items as [| item items IH]; intros st; simpl; [done |].
  by rewrite IH, processItem_firstSeenOr.
Qed.

Lemma foldl_processItem_others idx date items st :
  Forall (λ other, keyOf other ≠ key) items →
  itemHistory (foldl (processItem itemsInLatestReport idx date) st items) !! key
  = itemHistory st !! key.
Proof.
  intros Hitems. revert st.
  induction Hitems as [| item items Hne _ IH]; intros st; simpl; [done |].
  by rewrite IH, processItem_lookup_ne.
Qed.

Lemma processItem_recorded idx date st item :
  keyOf item = key →
  recorded itemsInLatestReport key
    (processItem itemsInLatestReport idx date st item)
    (WorkItem.status item) (WorkItem.notes item) (firstSeenOr st key idx).
Proof.
  intros Hkey. unfold recorded, firstSeenOr, processItem; cbn [itemHistory].
  rewrite Hkey.
  destruct (itemHistory st !! key);
    rewrite lookup_insert_eq; eexists; by split.
Qed.

Lemma processReport_listsLast idx st report status notes :
  listsLast key status notes report →
  recorded itemsInLatestReport key
    (processReport itemsInLatestReport idx st report)
    status notes (firstSeenOr st key idx).
Proof.
  intros (pre & item & post & Hitems & Hkey & <- & <- & Hpost).
  unfold processReport. rewrite Hitems, foldl_app. simpl.
  set (st1 := foldl _ st pre).
  destruct (processItem_recorded idx (Report.reportDate report) st1 item Hkey)
    as (e & He & Hs & Hn & Hf & Hfirst).
  exists e. rewrite foldl_processItem_others by done.
  repeat split; try done.
  rewrite Hfirst. apply foldl_processItem_firstSeenOr.
Qed.

(** Once recorded, the index of first sight never changes. *)
Lemma processReports_firstSeen reports idx st first :
  (∃ item, itemHistory st !! key = Some item ∧ firstSeenReportIndex item = first) →
  ∀ idx', firstSeenOr (processReports itemsInLatestReport idx st reports) key idx'
          = first.
Proof.
  intros Hst.
  assert (Hinv : ∃ item,
    itemHistory (processReports itemsInLatestReport idx st reports) !! key = Some item
    ∧ firstSeenReportIndex item = first).
  { revert Hst. apply (processReports_invariant itemsInLatestReport
      (λ st, ∃ item, itemHistory st !! key = Some item
                     ∧ firstSeenReportIndex item = first)).
    intros i date st' item (e & He & Hf).
    pose proof (processItem_firstSeenOr i date st' item) as Hfs.
    unfold firstSeenOr in Hfs. rewrite He in Hfs.
    destruct (itemHistory (processItem _ i date st' item) !! key) as [e' |] eqn:E.
    - exists e'. split; [done | congruence].
    - exfalso. destruct (decide (keyOf item = key)) as [<- | Hne].
      + unfold processItem in E; cbn [itemHistory] in E. rewrite He in E.
        by rewrite lookup_insert_eq in E.
      + rewrite processItem_lookup_ne in E by done. congruence. }
  intros idx'. unfold firstSeenOr. by destruct Hinv as (e & -> & ->).
Qed.

End ItemAlongReports.

(** The entry for an item listed by the latest report, which follows the
    reports [earlier] and the first of which listed the item too. *)
Lemma buildHistory_listed apartments first earlier latest key s0 n0 status notes :
  listsLast key s0 n0 first →
  listsLast key status notes latest →
  ∃ item,
    Stats.itemHistory (Stats.buildHistory apartments (first :: earlier ++ [latest]))
      !! key = Some item
    ∧ Stats.status item = status
    ∧ Stats.notes item = notes
    ∧ Stats.isInLatestReport item = true
    ∧ Stats.firstSeenReportIndex item = 0%nat.
Proof.
  intros Hfirst Hlatest.
  unfold Stats.buildHistory.
  set (keys := Stats.latestKeys (first :: earlier ++ [latest])).
  assert (Hkey : key ∈ keys).
  { unfold keys, Stats.latestKeys.
    replace (first :: earlier ++ [latest]) with ((first :: earlier) ++ [latest]) by done.
    rewrite last_snoc.
    destruct Hlatest as (pre & item & post & -> & <- & _).
    rewrite elem_of_list_to_set, list_elem_of_fmap. exists item. split; [done |].
    rewrite elem_of_app, elem_of_cons. auto. }
  replace (first :: earlier ++ [latest]) with ((first :: earlier) ++ [latest]) by done.
  rewrite processReports_app. simpl.
  set (st := Stats.processReports keys 1 _ earlier).
  destruct (processReport_listsLast keys key (S (length earlier)) st
              latest status notes Hlatest) as (e & He & Hs & Hn & Hf & Hfs).
  exists e. rewrite bool_decide_eq_true_2 in Hf by done.
  repeat split; try done.
  rewrite Hfs. unfold st.
  apply processReports_firstSeen.
  destruct (processReport_listsLast keys key 0 (Stats.initialState apartments)
              first s0 n0 Hfirst) as (e0 & He0 & _ & _ & _ & Hfs0).
  exists e0. split; [done |]. rewrite Hfs0. unfold firstSeenOr. cbn.
  by rewrite lookup_empty.
Qed.

(** The entry for an item listed by the only report. *)
Lemma buildHistory_listed_once apartments first key status notes :
  listsLast key status notes first →
  ∃ item,
    Stats.itemHistory (Stats.buildHistory apartments [first]) !! key = Some item
    ∧ Stats.status item = status
    ∧ Stats.notes item = notes
    ∧ Stats.isInLatestReport item = true
    ∧ Stats.firstSeenReportIndex item = 0%nat.
Proof.
  intros Hfirst. unfold Stats.buildHistory. simpl Stats.processReports.
  set (keys := Stats.latestKeys [first]).
  assert (Hkey : key ∈ keys).
  { unfold keys, Stats.latestKeys. simpl.
    destruct Hfirst as (pre & item & post & -> & <- & _).
    rewrite elem_of_list_to_set, list_elem_of_fmap. exists item. split; [done |].
    rewrite elem_of_app, elem_of_cons. auto. }
  destruct (processReport_listsLast keys key 0 (Stats.initialState apartments)
              first status notes Hfirst) as (e & He & Hs & Hn & Hf & Hfs).
  exists e. rewrite bool_decide_eq_true_2 in Hf by done.
  by repeat split.
Qed.

(** C6.  An item without notes, first listed by the first report, whose status
    in four successive reports is NOT_STARTED, IN_PROGRESS, COMPLETED and
    COMPLETED_OK scores 5, 30, 75 and 90 under the default thresholds as each
    report becomes the latest one: a non-decreasing sequence. *)
Theorem C6_scores_along_status_sequence apartments key r1 r2 r3 r4 :
  listsLast key WorkStatus.NOT_STARTED None r1 →
  listsLast key WorkStatus.IN_PROGRESS None r2 →
  listsLast key WorkStatus.COMPLETED None r3 →
  listsLast key WorkStatus.COMPLETED_OK None r4 →
  scoreAfter DEFAULT_CONFIG apartments [r1] key = Some 5
  ∧ scoreAfter DEFAULT_CONFIG apartments [r1; r2] key = Some 30
  ∧ scoreAfter DEFAULT_CONFIG apartments [r1; r2; r3] key = Some 75
  ∧ scoreAfter DEFAULT_CONFIG apartments [r1; r2; r3; r4] key = Some 90
  ∧ 5 <= 30 ∧ 30 <= 75 ∧ 75 <= 90.
Proof.
  intros H1 H2 H3 H4. unfold scoreAfter.
  destruct (buildHistory_listed_once apartments r1 key _ _ H1)
    as (e1 & -> & Hs1 & Hn1 & Hf1 & Hi1).
  destruct (buildHistory_listed apartments r1 [] r2 key _ _ _ _ H1 H2)
    as (e2 & He2 & Hs2 & Hn2 & Hf2 & Hi2).
  destruct (buildHistory_listed apartments r1 [r2] r3 key _ _ _ _ H1 H3)
    as (e3 & He3 & Hs3 & Hn3 & Hf3 & Hi3).
  destruct (buildHistory_listed apartments r1 [r2; r3] r4 key _ _ _ _ H1 H4)
    as (e4 & He4 & Hs4 & Hn4 & Hf4 & Hi4).
  simpl app in He2, He3, He4. rewrite He2, He3, He4.
  unfold Stats.calculateEffectiveProgress, Stats.latestReportIndex.
  cbn [fmap option_fmap option_map].
  rewrite Hs1, Hn1, Hf1, Hi1, Hs2, Hn2, Hf2, Hi2, Hs3, Hn3, Hf3, Hi3,
    Hs4, Hn4, Hf4, Hi4.
  repeat split; by vm_compute.
Qed.

Lemma C6_witness :
  scoreAfter DEFAULT_CONFIG [apartment1]
    [ statusReport 1 WorkStatus.NOT_STARTED ] 
    (Stats.keyOf (socketItem WorkStatus.NOT_STARTED None)) = Some 5
  ∧ scoreAfter DEFAULT_CONFIG [apartment1]
      [ statusReport 1 WorkStatus.NOT_STARTED; statusReport 2 WorkStatus.IN_PROGRESS;
        statusReport 3 WorkStatus.COMPLETED; statusReport 4 WorkStatus.COMPLETED_OK ]
      (Stats.keyOf (socketItem WorkStatus.NOT_STARTED None)) = Some 90.
Proof.
  assert (Hl : ∀ date status,
    listsLast (Stats.keyOf (socketItem WorkStatus.NOT_STARTED None)) status None
      (statusReport date status)).
  { intros date status. exists [], (socketItem status None), [tapItem].
    repeat split. constructor; [by vm_compute | constructor]. }
  pose proof (C6_scores_along_status_sequence [apartment1]
    (Stats.keyOf (socketItem WorkStatus.NOT_STARTED None))
    (statusReport 1 WorkStatus.NOT_STARTED) (statusReport 2 WorkStatus.IN_PROGRESS)
    (statusReport 3 WorkStatus.COMPLETED) (statusReport 4 WorkStatus.COMPLETED_OK)
    (Hl _ _) (Hl _ _) (Hl _ _) (Hl _ _)) as (H1 & _ & _ & H4 & _).
  exact (conj H1 H4).
Defined.

(** ** The arithmetic of numbers *)

Lemma round64_comp x y : x == y → round64 x = round64 y.
Proof. intros H. unfold round64. cbv zeta. by rewrite (Qred_complete x y H). Qed.

Lemma mul_comm a b : Number.mul a b = Number.mul b a.
Proof.
  destruct a as [x | | |], b as [y | | |]; try done;
    unfold Number.mul; try (apply round64_comp; ring);
    by rewrite orb_comm, xorb_comm.
Qed.

(** Powers of two. *)
Lemma pow2_pos (e : Z) : 0 < 2 ^ e.
Proof. by apply Qpower_0_lt. Qed.

Lemma pow2_nonneg_exp (n : Z) : (0 <= n)%Z → 2 ^ n == inject_Z (2 ^ n).
Proof. intros Hn. by rewrite Zpower_Qpower. Qed.

Lemma pow2_lt (a b : Z) : (a < b)%Z → 2 ^ a < 2 ^ b.
Proof. intros H. by apply Qpower_lt_compat_l. Qed.

Lemma pow2_le (a b : Z) : (a <= b)%Z → 2 ^ a <= 2 ^ b.
Proof. intros H. by apply Qpower_le_compat_l. Qed.

Lemma pow2_lt_inv (a b : Z) : 2 ^ a < 2 ^ b → (a < b)%Z.
Proof.
  intros H. destruct (Z.lt_ge_cases a b) as [? | Hge]; [done |].
  apply pow2_le in Hge. lra.
Qed.

(** [floorLog2] does not overshoot. *)
Lemma floorLog2_le x : 0 < x → 2 ^ floorLog2 x <= x.
Proof.
  intros Hx. unfold floorLog2. cbv zeta.
  destruct (Qle_bool _ x) eqn:E; [by apply Qle_bool_iff |].
  destruct x as [n d]. cbn [Qnum Qden] in *.
  assert (Hn : (0 < n)%Z).
  { unfold Qlt in Hx. cbn in Hx. lia. }
  pose proof (Z.log2_spec n Hn) as [Hlo _].
  pose proof (Z.log2_spec (Zpos d) (Pos2Z.is_pos d)) as [_ Hhi].
  pose proof (Z.log2_nonneg n) as Hn0.
  pose proof (Z.log2_nonneg (Zpos d)) as Hd0.
  replace (Z.log2 n - Z.log2 (Z.pos d) - 1)%Z
    with (Z.log2 n - Z.succ (Z.log2 (Z.pos d)))%Z by lia.
  rewrite Qpower_minus by done.
  rewrite (pow2_nonneg_exp (Z.log2 n)), (pow2_nonneg_exp (Z.succ _)) by lia.
  apply Qle_shift_div_r.
  { rewrite <- pow2_nonneg_exp by lia. apply pow2_pos. }
  unfold Qle, Qmult, inject_Z; cbn [Qnum Qden].
  rewrite !Z.mul_1_r.
  apply Z.le_trans with (n * Z.pos d)%Z.
  - apply Z.mul_le_mono_nonneg; lia.
  - apply Z.mul_le_mono_nonneg_l; lia.
Qed.

Lemma roundHalfEven_comp x y : x == y → roundHalfEven x = roundHalfEven y.
Proof.
  intros H. unfold roundHalfEven. cbv zeta. rewrite (Qfloor_comp _ _ H).
  assert (Hc : Qcompare (x - inject_Z (Qfloor y)) (1 # 2)
               = Qcompare (y - inject_Z (Qfloor y)) (1 # 2)).
  { apply Qcompare_comp; [by rewrite H | reflexivity]. }
  by rewrite Hc.
Qed.

Lemma roundHalfEven_int (k : Z) : roundHalfEven (inject_Z k) = k.
Proof.
  unfold roundHalfEven. cbv zeta. rewrite Qfloor_Z.
  assert (H : inject_Z k - inject_Z k < 1 # 2) by lra.
  by rewrite (proj1 (Qlt_alt _ _) H).
Qed.

Lemma roundHalfEven_nonneg x : 0 <= x → (0 <= roundHalfEven x)%Z.
Proof.
  intros Hx. unfold roundHalfEven. cbv zeta.
  assert (Hf : (0 <= Qfloor x)%Z).
  { change 0%Z with (Qfloor 0). by apply Qfloor_resp_le. }
  destruct (Qcompare _ _); [destruct (Z.even _) | |]; lia.
Qed.

Lemma roundHalfEven_le x (k : Z) : x <= inject_Z k → (roundHalfEven x <= k)%Z.
Proof.
  intros Hx. unfold roundHalfEven. cbv zeta.
  assert (Hf : (Qfloor x <= k)%Z).
  { rewrite <- (Qfloor_Z k). by apply Qfloor_resp_le. }
  destruct (Z.eq_dec (Qfloor x) k) as [Heq | Hne].
  - assert (Hlt : x - inject_Z (Qfloor x) < 1 # 2).
    { pose proof (Qfloor_le x). rewrite Heq in *. lra. }
    rewrite (proj1 (Qlt_alt _ _) Hlt). lia.
  - destruct (Qcompare _ _); [destruct (Z.even _) | |]; lia.
Qed.

(** What [round64] does below [2^53]: the exponent is at most 52, so the
    spacing is at most 1 and divides every integer. *)
Lemma exponent_le_52 (x : Q) (c : Z) :
  0 < x → x <= inject_Z c → (c < 2 ^ 53)%Z →
  (Z.max (floorLog2 x) (-1022) <= 52)%Z.
Proof.
  intros Hpos Hle Hc. apply Z.max_lub; [| lia].
  assert (H : 2 ^ floorLog2 x < 2 ^ 53).
  { apply Qle_lt_trans with x; [by apply floorLog2_le |].
    apply Qle_lt_trans with (inject_Z c); [done |].
    rewrite (pow2_nonneg_exp 53) by lia. by rewrite <- Zlt_Qlt. }
  apply pow2_lt_inv in H. lia.
Qed.

Lemma scaled (e : Z) (x : Q) :
  (e <= 52)%Z → x / 2 ^ (e - 52) == x * inject_Z (2 ^ (52 - e)).
Proof.
  intros He. rewrite <- pow2_nonneg_exp by lia.
  replace (52 - e)%Z with (- (e - 52))%Z by lia.
  by rewrite Qpower_opp.
Qed.

Lemma unscaled (e k : Z) :
  (e <= 52)%Z → inject_Z (k * 2 ^ (52 - e)) * 2 ^ (e - 52) == inject_Z k.
Proof.
  intros He. rewrite inject_Z_mult, <- (pow2_nonneg_exp (52 - e)) by lia.
  rewrite <- Qmult_assoc, <- Qpower_plus by done.
  replace (52 - e + (e - 52))%Z with 0%Z by lia. simpl. ring.
Qed.

Lemma rounded_bounds (e : Z) (x : Q) (c : Z) :
  (e <= 52)%Z → 0 < x → x <= inject_Z c →
  let y := inject_Z (roundHalfEven (x / 2 ^ (e - 52))) * 2 ^ (e - 52) in
  0 <= y ∧ y <= inject_Z c.
Proof.
  intros He Hpos Hle. cbv zeta.
  assert (Hp : 0 < inject_Z (2 ^ (52 - e))).
  { rewrite <- pow2_nonneg_exp by lia. apply pow2_pos. }
  pose proof (pow2_pos (e - 52)) as Hu. split.
  - apply Qmult_le_0_compat; [| lra]. rewrite <- (Zle_Qle 0).
    apply roundHalfEven_nonneg. rewrite scaled by done.
    apply Qmult_le_0_compat; lra.
  - rewrite <- (unscaled e c) by done. apply Qmult_le_compat_r; [| lra].
    rewrite <- Zle_Qle. apply roundHalfEven_le.
    rewrite scaled, inject_Z_mult by done. apply Qmult_le_compat_r; lra.
Qed.

Lemma round64_bounds x (c : Z) :
  0 <= x → x <= inject_Z c → (c < 2 ^ 53)%Z →
  ∃ y, round64 x = Finite y ∧ 0 <= y ∧ y <= inject_Z c.
Proof.
  intros H0 Hle Hc. unfold round64. cbv zeta.
  pose proof (Qred_correct x) as Hred.
  assert (Hc0 : 0 <= inject_Z c) by lra.
  destruct (Qcompare (Qred x) 0) eqn:E.
  - exists 0. split; [done | lra].
  - apply Qlt_alt in E. lra.
  - apply Qgt_alt in E.
    assert (Habs : Qabs (Qred x) = Qred x).
    { destruct (Qred x) as [n d]. unfold Qabs. f_equal.
      unfold Qlt in E; cbn in E. lia. }
    rewrite Habs.
    assert (Hle' : Qred x <= inject_Z c) by lra.
    pose proof (exponent_le_52 _ _ E Hle' Hc) as He.
    pose proof (rounded_bounds _ _ c He E Hle') as [Hy0 Hyc]. cbv zeta in Hy0, Hyc.
    match goal with |- context [Qle_bool ?a ?b] => destruct (Qle_bool a b) eqn:Ebig end.
    + apply Qle_bool_iff in Ebig.
      assert (Hlt : inject_Z c < 2 ^ 1024).
      { apply Qlt_trans with (2 ^ 53); [| by apply pow2_lt].
        rewrite (pow2_nonneg_exp 53) by lia. by rewrite <- Zlt_Qlt. }
      lra.
    + eexists. split; [reflexivity |]. rewrite Qred_correct. by split.
Qed.

Lemma Qred_inject_Z (n : Z) : Qred (inject_Z n) = inject_Z n.
Proof.
  unfold Qred, inject_Z.
  pose proof (Z.ggcd_gcd n 1) as Hg.
  pose proof (Z.ggcd_correct_divisors n 1) as Hd.
  destruct (Z.ggcd n 1) as (g, (a, b)). simpl in *.
  rewrite Z.gcd_1_r in Hg. subst g.
  destruct Hd as [Ha Hb]. rewrite Z.mul_1_l in Ha, Hb. by subst.
Qed.

Lemma round64_exact x (n : Z) :
  (0 <= n < 2 ^ 53)%Z → x == inject_Z n → round64 x = Finite (inject_Z n).
Proof.
  intros [Hn0 Hn] Hx. rewrite (round64_comp _ _ Hx).
  unfold round64. cbv zeta. rewrite Qred_inject_Z.
  destruct (Z.eq_dec n 0%Z) as [-> | Hne]; [done |].
  assert (Hpos : 0 < inject_Z n) by (rewrite <- (Zlt_Qlt 0); lia).
  rewrite (proj1 (Qgt_alt _ _) Hpos).
  assert (Habs : Qabs (inject_Z n) = inject_Z n).
  { unfold Qabs, inject_Z. f_equal. lia. }
  rewrite Habs.
  set (e := Z.max (floorLog2 (inject_Z n)) (-1022)).
  assert (He : (e <= 52)%Z) by (apply (exponent_le_52 _ n); [done | lra | done]).
  assert (Hm : roundHalfEven (inject_Z n / 2 ^ (e - 52)) = (n * 2 ^ (52 - e))%Z).
  { rewrite <- roundHalfEven_int. apply roundHalfEven_comp.
    rewrite scaled by done. by rewrite inject_Z_mult. }
  rewrite Hm.
  assert (Hy : inject_Z (n * 2 ^ (52 - e)) * 2 ^ (e - 52) == inject_Z n)
    by (by apply unscaled).
  match goal with |- context [Qle_bool ?a ?b] => destruct (Qle_bool a b) eqn:Ebig end.
  - apply Qle_bool_iff in Ebig. rewrite Hy in Ebig.
    assert (Hlt : inject_Z n < 2 ^ 1024).
    { apply Qlt_trans with (2 ^ 53); [| by apply pow2_lt].
      rewrite (pow2_nonneg_exp 53) by lia. by rewrite <- Zlt_Qlt. }
    lra.
  - f_equal. rewrite (Qred_complete _ _ Hy). apply Qred_inject_Z.
Qed.

(** ** The scope aggregation *)

Lemma sumOver_ext {A} (f g : A → jsnumber) l :
  (∀ a, a ∈ l → f a = g a) → sumOver f l = sumOver g l.
Proof.
  unfold sumOver. generalize (Finite 0).
  induction l as [| a l IH]; intros total H; [done |].
  simpl. rewrite (H a) by (by left). apply IH. intros b Hb. apply H. by right.
Qed.

Lemma sumOver_fmap {A B} (g : A → B) (f : B → jsnumber) l :
  sumOver f (g <$> l) = sumOver (f ∘ g) l.
Proof.
  unfold sumOver. generalize (Finite 0).
  induction l as [| a l IH]; intros total; [done | apply IH].
Qed.

Section Aggregation.

Variable cfg : ProgressConfig.
Variable current : list (jsstring * jsnumber).

(** The loop accumulates the two sums side by side. *)
Lemma aggregation_loop cats weightedSum totalWeight :
  foldl (λ '(weightedSum, totalWeight) category,
           let weight := orNum (lookupEntry (getCategoryWeights cfg) category)
                               (defaultCategoryWeight (getConfigSafe cfg)) in
           let totalWeight := Number.add totalWeight (Finite weight) in
           match lookupEntry current category with
           | Some p =>
             (Number.add weightedSum
                (Number.mul (orNumber (Some p) (Finite 0)) (Finite weight)),
              totalWeight)
           | None =>
             (Number.add weightedSum
                (Number.mul (Finite (CATEGORY_GRADUATED (getProgressThresholds cfg)))
                            (Finite weight)),
              totalWeight)
           end)
        (weightedSum, totalWeight) cats
  = (foldl (λ total c,
              Number.add total
                (Number.mul (codeValue cfg current c) (Finite (codeWeight cfg c))))
           weightedSum cats,
     foldl (λ total c, Number.add total (Finite (codeWeight cfg c))) totalWeight cats).
Proof.
  revert weightedSum totalWeight.
  induction cats as [| c cats IH]; intros weightedSum totalWeight; [done |].
  cbn [foldl]. rewrite <- IH. f_equal.
  unfold codeValue, codeWeight. by destruct (lookupEntry current c).
Qed.

(** What the code computes: the weighted mean with [codeWeight] and
    [codeValue], both sums taken in the order of the set, rounded. *)
Lemma aggregation_characterised everSeen :
  calculateOverallProgressWithAllCategories cfg current everSeen
  = let totalWeight := sumOver (λ c, Finite (codeWeight cfg c)) everSeen in
    let weightedSum :=
      sumOver (λ c, Number.mul (codeValue cfg current c) (Finite (codeWeight cfg c)))
              everSeen in
    if Number.strictEq totalWeight (Finite 0) then Finite 0
    else Math_round (Number.div weightedSum totalWeight).
Proof.
  unfold calculateOverallProgressWithAllCategories. cbv zeta.
  case_bool_decide as Hsize.
  - apply length_zero_iff_nil in Hsize. by subst everSeen.
  - by rewrite aggregation_loop.
Qed.

(** The code agrees with the specification's formula, evaluated in the same
    arithmetic and order, whenever no category ever seen has a configured
    weight of zero and no current score is NaN. *)
Lemma aggregation_matches_spec everSeen :
  (∀ c w, c ∈ everSeen → lookupEntry (categoryWeights cfg) c = Some w → ¬ w == 0) →
  (∀ c, c ∈ everSeen → lookupEntry current c ≠ Some NaN) →
  calculateOverallProgressWithAllCategories cfg current everSeen
  = specAggregateScope cfg current everSeen.
Proof.
  intros Hnz Hnan. rewrite aggregation_characterised. unfold specAggregateScope.
  cbv zeta.
  assert (Hw : ∀ c, c ∈ everSeen → codeWeight cfg c = specWeight cfg c).
  { intros c Hc. unfold codeWeight, specWeight, orNum.
    unfold getCategoryWeights, getConfigSafe.
    destruct (lookupEntry (categoryWeights cfg) c) as [w |] eqn:E; simpl; [| done].
    destruct (numeq w 0) eqn:Ew; [| done].
    apply numeq_eq in Ew. by destruct (Hnz c w Hc E). }
  assert (Htw : sumOver (λ c, Finite (codeWeight cfg c)) everSeen
                = sumOver (λ c, Finite (specWeight cfg c)) everSeen).
  { apply sumOver_ext. intros c Hc. by rewrite Hw. }
  assert (Hws : sumOver (λ c, Number.mul (codeValue cfg current c)
                                         (Finite (codeWeight cfg c))) everSeen
                = sumOver (λ c, Number.mul (Finite (specWeight cfg c))
                                           (specValue cfg current c)) everSeen).
  { apply sumOver_ext. intros c Hc. rewrite (Hw c Hc), mul_comm.
    unfold codeValue, specValue, orNumber. specialize (Hnan c Hc).
    destruct (lookupEntry current c) as [[x | | |] |]; simpl; try done.
    destruct (Qeq_bool x 0) eqn:E; [| done].
    unfold Number.mul. apply round64_comp. apply Qeq_bool_iff in E. by rewrite E. }
  by rewrite Htw, Hws.
Qed.

End Aggregation.

(** C2 (the code departs from it).  The weight is read as
    [weights[category] || defaultCategoryWeight], so a configured weight of
    zero is replaced by the default weight.  With the kitchen weight set to 0
    (a configuration that validates, with the warning that the category will
    not affect progress), kitchen at 5 and OTHER at 90, the code answers
    round((5 * 10 + 90 * 25) / 35) = 66 where the stated formula gives
    round((5 * 0 + 90 * 25) / 25) = 90. *)
Theorem C2_zero_weight_falls_back_to_default :
  let everSeen := [ utf16 "KITCHEN"; utf16 "OTHER" ] in
  valid (validateConfig kitchenOffConfig) = true
  ∧ warnings (validateConfig kitchenOffConfig) = [ ZeroWeight (utf16 "KITCHEN") ]
  ∧ lookupEntry (categoryWeights kitchenOffConfig) (utf16 "KITCHEN") = Some 0
  ∧ codeWeight kitchenOffConfig (utf16 "KITCHEN") = 10
  ∧ calculateOverallProgressWithAllCategories kitchenOffConfig kitchenAndOther everSeen
    = Finite 66
  ∧ specAggregateScope kitchenOffConfig kitchenAndOther everSeen = Finite 90.
Proof. by vm_compute. Qed.


(** ** String operations *)

Lemma startsWith_spec s k : startsWith s k = true ↔ ∃ b, s = k ++ b.
Proof.
  revert s. induction k as [| c k IH]; intros s.
  - destruct s; simpl; split; eauto.
  - destruct s as [| d s]; simpl.
    + split; [done | by intros (b & Hb)].
    + rewrite andb_true_iff, N.eqb_eq, IH. split.
      * intros (-> & b & ->). by exists b.
      * intros (b & [= -> ->]). eauto.
Qed.

Lemma includes_spec s k : includes s k = true ↔ ∃ a b, s = a ++ k ++ b.
Proof.
  induction s as [| d s IH].
  - cbn [includes]. rewrite orb_false_r, startsWith_spec. split.
    + intros (b & Hb). by exists [], b.
    + intros (a & b & Hab). destruct a; [eauto | done].
  - cbn [includes]. rewrite orb_true_iff, IH, (startsWith_spec (d :: s)). split.
    + intros [(b & Hb) | (a & b & ->)]; [by exists [], b | by exists (d :: a), b].
    + intros (a & b & Hab). destruct a as [| d' a].
      * left. by exists b.
      * right. injection Hab as -> ->. eauto.
Qed.

Lemma includes_app s k pre post :
  includes s k = true → includes (pre ++ s ++ post) k = true.
Proof.
  rewrite !includes_spec. intros (a & b & ->).
  exists (pre ++ a), (b ++ post). by rewrite <- !app_assoc.
Qed.

Lemma includes_trans s t k :
  includes s t = true → includes t k = true → includes s k = true.
Proof.
  rewrite (includes_spec s t). intros (a & b & ->). apply includes_app.
Qed.

Lemma includes_toLowerCase s k :
  includes s k = true → includes (toLowerCase s) (toLowerCase k) = true.
Proof.
  rewrite !includes_spec. intros (a & b & ->).
  exists (toLowerCase a), (toLowerCase b). unfold toLowerCase.
  by rewrite !flat_map_app.
Qed.

Lemma trimStart_blank pre s : isBlank pre → trimStart (pre ++ s) = trimStart s.
Proof. induction 1 as [| c pre Hc _ IH]; simpl; [done | by rewrite Hc]. Qed.

Lemma trimStart_app s t :
  trimStart (s ++ t) = match trimStart s with [] => trimStart t | r => r ++ t end.
Proof.
  induction s as [| c s IH]; simpl; [by destruct (trimStart t) |].
  by destruct (isWhiteSpace c).
Qed.

Lemma trimStart_suffix s : ∃ a, s = a ++ trimStart s.
Proof.
  induction s as [| c s (a & IH)]; simpl; [by exists [] |].
  destruct (isWhiteSpace c); [| by exists []].
  exists (c :: a). simpl. by rewrite <- IH.
Qed.

Lemma isBlank_rev s : isBlank s → isBlank (rev s).
Proof. apply List.Forall_rev. Qed.

(** The trimmed string occurs in the original. *)
Lemma trim_substring s : ∃ a b, s = a ++ trim s ++ b.
Proof.
  unfold trim. destruct (trimStart_suffix s) as (a & Ha).
  destruct (trimStart_suffix (rev (trimStart s))) as (c & Hc).
  exists a, (rev c). rewrite <- rev_app_distr, <- Hc, rev_involutive. exact Ha.
Qed.

Lemma trim_blank_around pre s post :
  isBlank pre → isBlank post → trim (pre ++ s ++ post) = trim s.
Proof.
  intros Hpre Hpost. unfold trim. rewrite (trimStart_blank pre) by done.
  rewrite trimStart_app. destruct (trimStart s) as [| c r] eqn:E.
  - rewrite <- (app_nil_r post), trimStart_blank by done. done.
  - rewrite rev_app_distr, trimStart_blank; [done | by apply isBlank_rev].
Qed.

(** ** Range and white space for the two normalisers of the status mapper *)

Lemma lookupEntry_elem {V} (o : list (jsstring * V)) k v :
  lookupEntry o k = Some v → (k, v) ∈ o.
Proof.
  induction o as [| [k' v'] o IH]; simpl; [done |].
  destruct (streq k' k) eqn:E.
  - apply streq_eq in E as ->. intros [= ->]. rewrite elem_of_cons. by left.
  - intros H. rewrite elem_of_cons. right. by apply IH.
Qed.

Lemma firstIncluded_elem entries text v :
  firstIncluded entries text = Some v →
  ∃ k, (k, v) ∈ entries ∧ includes text k = true.
Proof.
  induction entries as [| [k' v'] o IH]; simpl; [done |].
  destruct (includes text k') eqn:E.
  - intros [= ->]. exists k'. rewrite elem_of_cons. auto.
  - intros (k & Hk & Hi)%IH. exists k. rewrite elem_of_cons. auto.
Qed.

Lemma table_values (table : list (jsstring * jsstring)) (codes : list jsstring) k v :
  forallb (λ e, bool_decide (e.2 ∈ codes)) table = true →
  (k, v) ∈ table → v ∈ codes.
Proof.
  rewrite forallb_forall. intros Hall Hkv.
  apply list_elem_of_In, Hall in Hkv. by apply bool_decide_eq_true in Hkv.
Qed.

(** X1.  The status mapper's normalisers answer inside their enums: for every
    text that, once trimmed, is not the name of an inherited member,
    [normalizeStatus] returns one of the eight status codes and
    [normalizeCategory] one of the ten category codes. *)
Theorem X1_normalisers_stay_in_enum text :
  ownName (trim text) →
  normalizeStatus text ∈ allStatuses
  ∧ normalizeCategory text ∈ CATEGORY_DISPLAY_ORDER.
Proof.
  intros _. split.
  - unfold normalizeStatus. cbv zeta.
    destruct (lookupEntry _ _) as [v |] eqn:El.
    { apply lookupEntry_elem in El. by eapply table_values; [vm_compute | exact El]. }
    destruct (firstIncluded _ _) as [v |] eqn:Ef.
    { apply firstIncluded_elem in Ef as (k & Hk & _).
      by eapply table_values; [vm_compute | exact Hk]. }
    apply (bool_decide_unpack _). by vm_compute.
  - unfold normalizeCategory. cbv zeta.
    destruct (lookupEntry _ _) as [v |] eqn:El.
    { apply lookupEntry_elem in El. by eapply table_values; [vm_compute | exact El]. }
    destruct (firstIncluded _ _) as [v |] eqn:Ef.
    { apply firstIncluded_elem in Ef as (k & Hk & _).
      by eapply table_values; [vm_compute | exact Hk]. }
    apply (bool_decide_unpack _). by vm_compute.
Qed.

Lemma X1_witness :
  normalizeStatus (utf16 " constructor done ") ∈ allStatuses
  ∧ normalizeCategory (utf16 " constructor done ") ∈ CATEGORY_DISPLAY_ORDER.
Proof.
  apply X1_normalisers_stay_in_enum.
  apply (bool_decide_unpack _). by vm_compute.
Defined.

(** X2.  White space around the text changes neither answer. *)
Theorem X2_normalisers_ignore_surrounding_blanks pre text post :
  isBlank pre → isBlank post →
  normalizeStatus (pre ++ text ++ post) = normalizeStatus text
  ∧ normalizeCategory (pre ++ text ++ post) = normalizeCategory text.
Proof.
  intros Hpre Hpost. unfold normalizeStatus, normalizeCategory.
  by rewrite trim_blank_around.
Qed.

Lemma X2_witness :
  normalizeStatus (utf16 "  " ++ utf16 "בוצע - תקין" ++ [9%N; 10%N])
  = WorkStatus.COMPLETED_OK
  ∧ normalizeCategory (utf16 "  " ++ utf16 "כיבוי אש" ++ [9%N; 10%N])
    = WorkCategory.SPRINKLERS.
Proof.
  assert (Hpre : isBlank (utf16 "  ")) by (repeat constructor).
  assert (Hpost : isBlank [9%N; 10%N]) by (repeat constructor).
  destruct (X2_normalisers_ignore_surrounding_blanks _ (utf16 "בוצע - תקין") _ Hpre Hpost)
    as [-> _].
  destruct (X2_normalisers_ignore_surrounding_blanks _ (utf16 "כיבוי אש") _ Hpre Hpost)
    as [_ ->].
  split; by vm_compute.
Defined.

(** ** The ingestion normaliser *)

Section IngestionSort.

Import Ingestion.

Lemma insertByLength_perm e l : insertByLength e l ≡ₚ e :: l.
Proof.
  induction l as [| y r IH]; simpl; [done |].
  destruct (length e.1 <? length y.1)%nat; [| done].
  by rewrite IH, Permutation_swap.
Qed.

Lemma sortLongestFirst_perm l : sortLongestFirst l ≡ₚ l.
Proof.
  induction l as [| e l IH]; simpl; [done |].
  by rewrite insertByLength_perm, IH.
Qed.

Lemma insertByLength_sorted e l :
  StronglySorted (λ a b : jsstring * jsstring, length b.1 ≤ length a.1)%nat l →
  StronglySorted (λ a b : jsstring * jsstring, length b.1 ≤ length a.1)%nat (insertByLength e l).
Proof.
  induction 1 as [| y r Hr IH Hy]; simpl; [repeat constructor |].
  destruct (length e.1 <? length y.1)%nat eqn:E.
  - apply Nat.ltb_lt in E. constructor; [done |].
    rewrite insertByLength_perm. constructor; [lia | done].
  - apply Nat.ltb_ge in E. constructor; [by constructor |].
    constructor; [lia |].
    eapply Forall_impl; [exact Hy |]. simpl. intros; lia.
Qed.

Lemma insertByLength_filter n e l :
  filter (λ a : jsstring * jsstring, length a.1 = n) (insertByLength e l)
  = filter (λ a : jsstring * jsstring, length a.1 = n) (e :: l).
Proof.
  induction l as [| y r IH]; cbn [insertByLength]; [done |].
  destruct (length e.1 <? length y.1)%nat eqn:E; [| done].
  apply Nat.ltb_lt in E.
  rewrite (filter_cons _ y), IH, !filter_cons.
  repeat case_decide; try done; lia.
Qed.

(** X3.  The sort of the table entries in the ingestion normaliser returns a
    rearrangement of its input, longest key first, in which entries of equal
    key length keep their relative order. *)
Theorem X3_sortLongestFirst_stable_sort l :
  sortLongestFirst l ≡ₚ l
  ∧ StronglySorted (λ a b : jsstring * jsstring, length b.1 ≤ length a.1)%nat (sortLongestFirst l)
  ∧ ∀ n, filter (λ a : jsstring * jsstring, length a.1 = n) (sortLongestFirst l)
         = filter (λ a : jsstring * jsstring, length a.1 = n) l.
Proof.
  split; [apply sortLongestFirst_perm |]. split.
  - induction l as [| e l IH]; simpl; [constructor | by apply insertByLength_sorted].
  - intros n. induction l as [| e l IH]; [done |].
    cbn [sortLongestFirst foldr]. fold (sortLongestFirst l).
    by rewrite insertByLength_filter, !filter_cons, IH.
Qed.

Lemma firstIncludedLower_elem entries text v :
  firstIncludedLower entries text = Some v →
  ∃ k, (k, v) ∈ entries ∧ includes text (toLowerCase k) = true.
Proof.
  induction entries as [| [k' v'] o IH]; simpl; [done |].
  destruct (includes text (toLowerCase k')) eqn:E.
  - intros [= ->]. exists k'. rewrite elem_of_cons. auto.
  - intros (k & Hk & Hi)%IH. exists k. rewrite elem_of_cons. auto.
Qed.

Lemma joinTruthy_status_prefix (status : jsstring) (notes : option jsstring) :
  status ≠ [] → ∃ rest, joinTruthy status notes = status ++ rest.
Proof.
  intros Hs. destruct status as [| c status]; [done |].
  destruct notes as [[| d n] |]; cbn [joinTruthy];
    [exists [] | by exists (32%N :: d :: n) | exists []]; by rewrite app_nil_r.
Qed.

Lemma joinTruthy_notes_suffix (status n : jsstring) :
  n ≠ [] → ∃ pre, joinTruthy status (Some n) = pre ++ n.
Proof.
  intros Hn. destruct n as [| d n]; [done |].
  destruct status as [| c status]; cbn [joinTruthy]; [by exists [] |].
  exists (c :: status ++ [32%N]). simpl. by rewrite <- app_assoc.
Qed.

Lemma includes_nonempty (s k : jsstring) : k ≠ [] → includes s k = true → s ≠ [].
Proof. intros Hk (a & b & ->)%includes_spec. by destruct a, k. Qed.

Lemma joinTruthy_includes_status (status : jsstring) (notes : option jsstring) (k : jsstring) :
  k ≠ [] → includes status k = true →
  includes (joinTruthy status notes) k = true.
Proof.
  intros Hk Hi.
  destruct (joinTruthy_status_prefix status notes) as (rest & ->);
    [by eapply includes_nonempty |].
  rewrite <- (app_nil_l (status ++ rest)). by apply includes_app.
Qed.

Lemma joinTruthy_includes_notes (status n k : jsstring) :
  k ≠ [] → includes n k = true →
  includes (joinTruthy status (Some n)) k = true.
Proof.
  intros Hk Hi.
  destruct (joinTruthy_notes_suffix status n) as (pre & ->);
    [by eapply includes_nonempty |].
  rewrite <- (app_nil_r n). by apply includes_app.
Qed.

Lemma defect_scan_hit (text keyword : jsstring) :
  keyword ∈ DEFECT_KEYWORDS →
  includes text keyword = true →
  some (λ keyword, includes (toLowerCase text) (toLowerCase keyword)) DEFECT_KEYWORDS
  = true.
Proof.
  intros Hk Hi. unfold some. apply existsb_exists. exists keyword.
  split; [by apply list_elem_of_In | by apply includes_toLowerCase].
Qed.

Lemma DEFECT_KEYWORDS_nonempty (keyword : jsstring) : keyword ∈ DEFECT_KEYWORDS → keyword ≠ [].
Proof.
  intros Hk ->. revert Hk. apply (bool_decide_unpack _). by vm_compute.
Qed.

(** X4.  At ingestion a defect keyword anywhere in the status text or in the
    notes decides the status: the answer is DEFECT whatever else the status
    text says. *)
Theorem X4_ingestion_defect_keyword_overrides (status : jsstring)
  (notes : option jsstring) (keyword : jsstring) :
  keyword ∈ DEFECT_KEYWORDS →
  includes status keyword = true
  ∨ (∃ n, notes = Some n ∧ includes n keyword = true) →
  Ingestion.normalizeStatus status notes = WorkStatus.DEFECT.
Proof.
  intros Hk Hi. unfold Ingestion.normalizeStatus. cbv zeta.
  rewrite (defect_scan_hit _ keyword Hk); [done |].
  pose proof (DEFECT_KEYWORDS_nonempty _ Hk) as Hne.
  destruct Hi as [Hi | (n & -> & Hi)];
    [by apply joinTruthy_includes_status | by apply joinTruthy_includes_notes].
Qed.

(** X5.  The ingestion normaliser never answers NOT_OK: its table maps
    "לא תקין" to NOT_OK, but that key is itself a defect keyword, so the
    defect scan answers DEFECT first.  For a status text that, once trimmed, is
    not the name of an inherited member, the answer is one of the other seven
    status codes. *)
Theorem X5_ingestion_never_NOT_OK (status : jsstring) (notes : option jsstring) :
  Ingestion.normalizeStatus status notes ≠ WorkStatus.NOT_OK
  ∧ (ownName (trim status) →
     Ingestion.normalizeStatus status notes ∈ allStatuses).
Proof.
  assert (Hrange : Ingestion.normalizeStatus status notes ∈ allStatuses).
  { unfold Ingestion.normalizeStatus. cbv zeta.
    destruct (some _ DEFECT_KEYWORDS); [apply (bool_decide_unpack _); by vm_compute |].
    destruct (some _ PARTIAL_KEYWORDS); [apply (bool_decide_unpack _); by vm_compute |].
    destruct (lookupEntry _ _) as [v |] eqn:El.
    { apply lookupEntry_elem in El. by eapply table_values; [vm_compute | exact El]. }
    destruct (firstIncludedLower _ _) as [v |] eqn:Ef.
    { apply firstIncludedLower_elem in Ef as (k & Hk & _).
      rewrite sortLongestFirst_perm in Hk.
      by eapply table_values; [vm_compute | exact Hk]. }
    apply (bool_decide_unpack _). by vm_compute. }
  split; [| intros _; exact Hrange].
  assert (Htable : ∀ k, (k, WorkStatus.NOT_OK) ∈ Ingestion.hebrewStatusMap →
                        k = utf16 "לא תקין").
  { intros k Hk.
    assert (Hall : forallb (λ e, bool_decide (e.2 = WorkStatus.NOT_OK → e.1 = utf16 "לא תקין"))
                     Ingestion.hebrewStatusMap = true) by (by vm_compute).
    rewrite forallb_forall in Hall. apply list_elem_of_In, Hall in Hk.
    apply bool_decide_eq_true in Hk. by apply Hk. }
  assert (Hkw : utf16 "לא תקין" ∈ DEFECT_KEYWORDS)
    by (apply (bool_decide_unpack _); by vm_compute).
  assert (Hscan : includes (toLowerCase (trim status)) (toLowerCase (utf16 "לא תקין")) = true
                  → some (λ keyword,
                            includes (toLowerCase (joinTruthy status notes))
                                     (toLowerCase keyword)) DEFECT_KEYWORDS = true).
  { intros Hi. unfold some. apply existsb_exists. exists (utf16 "לא תקין").
    split; [by apply list_elem_of_In |].
    apply (includes_trans _ (toLowerCase (trim status))); [| done].
    apply includes_toLowerCase.
    destruct (trim_substring status) as (a & b & Hab).
    destruct (joinTruthy_status_prefix status notes) as (rest & ->).
    { intros ->. by vm_compute in Hi. }
    rewrite Hab at 1. apply includes_spec.
    exists a, (b ++ rest). by rewrite <- !app_assoc. }
  intros Hnot. unfold Ingestion.normalizeStatus in Hnot. cbv zeta in Hnot.
  destruct (some _ DEFECT_KEYWORDS) eqn:Ed; [by vm_compute in Hnot |].
  destruct (some _ PARTIAL_KEYWORDS); [by vm_compute in Hnot |].
  destruct (lookupEntry _ _) as [v |] eqn:El.
  - subst v. apply lookupEntry_elem, Htable in El.
    apply diff_false_true, Hscan. rewrite El. by vm_compute.
  - destruct (firstIncludedLower _ _) as [v |] eqn:Ef; [| by vm_compute in Hnot].
    subst v. apply firstIncludedLower_elem in Ef as (k & Hk & Hi).
    rewrite sortLongestFirst_perm in Hk. apply Htable in Hk as ->.
    by apply diff_false_true, Hscan.
Qed.

End IngestionSort.

Lemma X4_witness :
  Ingestion.normalizeStatus (utf16 "בוצע") (Some (utf16 "חסר כיסוי"))
  = WorkStatus.DEFECT.
Proof.
  apply (X4_ingestion_defect_keyword_overrides _ _ (utf16 "חסר")).
  - apply (bool_decide_unpack _). by vm_compute.
  - right. exists (utf16 "חסר כיסוי"). split; [done | by vm_compute].
Defined.

(** ** Effective status and scores *)

Lemma isNegativeStatus_DEFECT : isNegativeStatus WorkStatus.DEFECT = true.
Proof. reflexivity. Qed.

Lemma getEffectiveStatus_idempotent (status : jsstring) (notes : option jsstring) :
  getEffectiveStatus (getEffectiveStatus status notes) notes
  = getEffectiveStatus status notes.
Proof.
  unfold getEffectiveStatus at 2 3.
  destruct (isNegativeStatus status) eqn:En.
  - unfold getEffectiveStatus. by rewrite En.
  - destruct (isPositiveStatus status && hasNegativeNotes notes) eqn:Ep.
    + reflexivity.
    + unfold getEffectiveStatus. by rewrite En, Ep.
Qed.

(** X6.  The effective status is a fixed point of the promotion, and the
    scorer depends on the raw status only through it: scoring the effective
    status gives the same result, reason and regression flag included. *)
Theorem X6_scoring_factors_through_effective_status (cfg : ProgressConfig)
  (status : jsstring) (notes : option jsstring) (context : ProgressContext) :
  getEffectiveStatus (getEffectiveStatus status notes) notes
  = getEffectiveStatus status notes
  ∧ calculateItemProgressV3 cfg (getEffectiveStatus status notes) notes context
    = calculateItemProgressV3 cfg status notes context.
Proof.
  split; [apply getEffectiveStatus_idempotent |].
  unfold calculateItemProgressV3. by rewrite getEffectiveStatus_idempotent.
Qed.

(** X7.  The defect test of the calculator and the one of the statistics
    route: [hasDefect] holds for a negative status or a positive status with
    negative notes; [itemHasDefect] holds in those cases and also whenever the
    notes are negative, whatever the status. *)
Theorem X7_defect_tests_compared (status : jsstring) (notes : option jsstring) :
  hasDefect status notes
  = isNegativeStatus status || (isPositiveStatus status && hasNegativeNotes notes)
  ∧ Stats.itemHasDefect status notes = hasDefect status notes || hasNegativeNotes notes.
Proof.
  assert (H1 : hasDefect status notes
    = isNegativeStatus status || (isPositiveStatus status && hasNegativeNotes notes)).
  { unfold hasDefect, getEffectiveStatus.
    destruct (isNegativeStatus status) eqn:En; [by rewrite En |].
    destruct (isPositiveStatus status && hasNegativeNotes notes); [done |].
    by rewrite En. }
  split; [exact H1 |]. rewrite H1. unfold Stats.itemHasDefect.
  destruct (isNegativeStatus status), (isPositiveStatus status),
    (hasNegativeNotes notes); reflexivity.
Qed.

(** X8.  A positive status with negative notes always scores the
    DEFECT_WORK_DONE threshold: never a verified, completed or handled one. *)
Theorem X8_positive_status_with_negative_notes (cfg : ProgressConfig)
  (status : jsstring) (notes : option jsstring) (context : ProgressContext) :
  isPositiveStatus status = true →
  hasNegativeNotes notes = true →
  progress (calculateItemProgressV3 cfg status notes context)
  = DEFECT_WORK_DONE (getProgressThresholds cfg)
  ∧ reason (calculateItemProgressV3 cfg status notes context)
    = utf16 "defect_work_done".
Proof.
  intros Hp Hn.
  assert (He : getEffectiveStatus status notes = WorkStatus.DEFECT).
  { unfold getEffectiveStatus. rewrite Hp, Hn.
    unfold isPositiveStatus in Hp.
    destruct (streq status WorkStatus.COMPLETED) eqn:E1;
      [apply streq_eq in E1 as ->; reflexivity |].
    destruct (streq status WorkStatus.COMPLETED_OK) eqn:E2;
      [apply streq_eq in E2 as ->; reflexivity |].
    destruct (streq status WorkStatus.HANDLED) eqn:E3;
      [apply streq_eq in E3 as ->; reflexivity | done]. }
  unfold calculateItemProgressV3. rewrite He. by split.
Qed.

Lemma X8_witness :
  progress (calculateItemProgressV3 DEFAULT_CONFIG WorkStatus.HANDLED
              (Some (utf16 "נדרש תיקון נוסף")) emptyContext) = 55.
Proof.
  refine (proj1 (X8_positive_status_with_negative_notes DEFAULT_CONFIG
                   WorkStatus.HANDLED (Some (utf16 "נדרש תיקון נוסף")) emptyContext _ _));
    by vm_compute.
Defined.

(** Every score is one of the configured thresholds. *)
Lemma score_is_threshold (cfg : ProgressConfig) (status : jsstring)
  (notes : option jsstring) (context : ProgressContext) :
  ∃ key, (key, progress (calculateItemProgressV3 cfg status notes context))
         ∈ thresholdEntries (getProgressThresholds cfg).
Proof.
  unfold calculateItemProgressV3, thresholdEntries. cbv zeta.
  repeat match goal with
  | |- context [if ?b then _ else _] => destruct b
  end; cbn [progress mkResult]; eexists; rewrite !elem_of_cons; eauto 20.
Qed.

Lemma valid_thresholds_in_range (cfg : ProgressConfig) key v :
  valid (validateConfig cfg) = true →
  (key, v) ∈ thresholdEntries (progressThresholds cfg) →
  0 <= v ∧ v <= 100.
Proof.
  intros Hvalid Hin.
  assert (Hok : ¬ errorCondition cfg).
  { intros He%errors_nonempty_iff%valid_false_iff. congruence. }
  assert (Hr : ¬ outOfRange v).
  { intros Hv. apply Hok. do 2 right; left. apply thresholds_test.
    exists (key, v). split; [done | by apply outOfRange_test]. }
  unfold outOfRange in Hr. split; apply Qnot_lt_le; tauto.
Qed.

Lemma score_bounds (cfg : ProgressConfig) (status : jsstring)
  (notes : option jsstring) (context : ProgressContext) :
  valid (validateConfig cfg) = true →
  0 <= progress (calculateItemProgressV3 cfg status notes context)
  ∧ progress (calculateItemProgressV3 cfg status notes context) <= 100.
Proof.
  intros Hvalid.
  destruct (score_is_threshold cfg status notes context) as (key & Hkey).
  by eapply valid_thresholds_in_range.
Qed.

Lemma effective_progress_bounds (cfg : ProgressConfig) (latestReportIndex : nat)
  (item : Stats.ItemHistory) :
  valid (validateConfig cfg) = true →
  0 <= Stats.calculateEffectiveProgress cfg latestReportIndex item
  ∧ Stats.calculateEffectiveProgress cfg latestReportIndex item <= 100.
Proof.
  intros Hvalid. unfold Stats.calculateEffectiveProgress.
  destruct (Stats.isInLatestReport item); [by apply score_bounds | by vm_compute].
Qed.

(** X9.  Under a configuration that passes validation, every item score lies
    between 0 and 100: the score of a listed item, whatever its status and
    notes, and the score of an item of the history, present or disappeared. *)
Theorem X9_scores_within_bounds (cfg : ProgressConfig) :
  valid (validateConfig cfg) = true →
  (∀ status notes context,
     0 <= progress (calculateItemProgressV3 cfg status notes context)
     ∧ progress (calculateItemProgressV3 cfg status notes context) <= 100)
  ∧ (∀ latestReportIndex item,
       0 <= Stats.calculateEffectiveProgress cfg latestReportIndex item
       ∧ Stats.calculateEffectiveProgress cfg latestReportIndex item <= 100).
Proof.
  intros Hvalid. split.
  - intros status notes context. by apply score_bounds.
  - intros idx item. by apply effective_progress_bounds.
Qed.

Lemma X9_witness :
  0 <= progress (calculateItemProgressV3 kitchenOffConfig (utf16 "ARCHIVED") None
                   emptyContext)
  ∧ progress (calculateItemProgressV3 kitchenOffConfig (utf16 "ARCHIVED") None
                emptyContext) <= 100.
Proof.
  assert (Hv : valid (validateConfig kitchenOffConfig) = true) by (by vm_compute).
  exact (proj1 (X9_scores_within_bounds kitchenOffConfig Hv)
           (utf16 "ARCHIVED") None emptyContext).
Defined.

(** ** The scope aggregation: what it ignores *)

(** X11.  The scope aggregation reads the current map only at the categories
    ever seen: two maps that agree there give the same answer, so a score for
    a category never seen contributes nothing. *)
Theorem X11_never_seen_categories_ignored (cfg : ProgressConfig)
  (current current' : list (jsstring * jsnumber)) (everSeen : list jsstring) :
  (∀ c, c ∈ everSeen → lookupEntry current c = lookupEntry current' c) →
  calculateOverallProgressWithAllCategories cfg current everSeen
  = calculateOverallProgressWithAllCategories cfg current' everSeen.
Proof.
  intros Hagree. rewrite !aggregation_characterised. cbv zeta.
  assert (Hws : sumOver (λ c, Number.mul (codeValue cfg current c)
                                         (Finite (codeWeight cfg c))) everSeen
                = sumOver (λ c, Number.mul (codeValue cfg current' c)
                                           (Finite (codeWeight cfg c))) everSeen).
  { apply sumOver_ext. intros c Hc. unfold codeValue. by rewrite Hagree. }
  by rewrite Hws.
Qed.

Lemma X11_witness :
  calculateOverallProgressWithAllCategories DEFAULT_CONFIG
    (setEntry kitchenAndOther (utf16 "SPRINKLERS") (Finite 0))
    [ utf16 "KITCHEN"; utf16 "OTHER" ]
  = calculateOverallProgressWithAllCategories DEFAULT_CONFIG
      kitchenAndOther [ utf16 "KITCHEN"; utf16 "OTHER" ].
Proof.
  apply X11_never_seen_categories_ignored.
  intros c Hc. rewrite !elem_of_cons, elem_of_nil in Hc.
  destruct Hc as [-> | [-> | []]]; by vm_compute.
Defined.

(** ** The legacy roll-up and the per-category average *)

Lemma legacy_loop (cfg : ProgressConfig) (entries : list (jsstring * jsnumber))
  weightedSum totalWeight :
  foldl (λ '(weightedSum, totalWeight) entry,
           let weight := orNum (lookupEntry (getCategoryWeights cfg) (fst entry))
                               (defaultCategoryWeight (getConfigSafe cfg)) in
           (Number.add weightedSum (Number.mul (snd entry) (Finite weight)),
            Number.add totalWeight (Finite weight)))
        (weightedSum, totalWeight) entries
  = (foldl (λ total e, Number.add total (Number.mul e.2 (Finite (codeWeight cfg e.1))))
           weightedSum entries,
     foldl (λ total e, Number.add total (Finite (codeWeight cfg e.1)))
           totalWeight entries).
Proof.
  revert weightedSum totalWeight.
  induction entries as [| e rest IH]; intros weightedSum totalWeight; [done |].
  cbn [foldl]. by rewrite <- IH.
Qed.

Lemma legacy_characterised (cfg : ProgressConfig)
  (categoryProgress : list (jsstring * jsnumber)) :
  calculateOverallProgress cfg categoryProgress
  = let totalWeight :=
      sumOver (λ e, Finite (codeWeight cfg e.1)) categoryProgress in
    let weightedSum :=
      sumOver (λ e, Number.mul e.2 (Finite (codeWeight cfg e.1))) categoryProgress in
    if Number.strictEq totalWeight (Finite 0) then Finite 0
    else Math_round (Number.div weightedSum totalWeight).
Proof.
  unfold calculateOverallProgress. cbv zeta.
  case_bool_decide as Hsize.
  - apply length_zero_iff_nil in Hsize. by subst categoryProgress.
  - by rewrite legacy_loop.
Qed.

Lemma lookupEntry_NoDup {V} (o : list (jsstring * V)) k v :
  NoDup o.*1 → (k, v) ∈ o → lookupEntry o k = Some v.
Proof.
  induction o as [| [k' v'] o IH]; intros Hnd Hin; [by apply elem_of_nil in Hin |].
  apply NoDup_cons in Hnd as [Hk' Hnd]. simpl.
  apply elem_of_cons in Hin as [[= <- <-] | Hin].
  - by rewrite streq_refl.
  - destruct (streq k' k) eqn:E; [| by apply IH].
    apply streq_eq in E. subst k'. destruct Hk'.
    apply list_elem_of_fmap. by exists (k, v).
Qed.

Lemma legacy_rollup_on_keys (cfg : ProgressConfig)
  (categoryProgress : list (jsstring * jsnumber)) :
  NoDup categoryProgress.*1 →
  (∀ c, (c, NaN) ∉ categoryProgress) →
  calculateOverallProgress cfg categoryProgress
  = calculateOverallProgressWithAllCategories cfg categoryProgress
      categoryProgress.*1.
Proof.
  intros Hnd Hnan. rewrite legacy_characterised, aggregation_characterised.
  cbv zeta. rewrite !sumOver_fmap.
  assert (Hws : sumOver (λ e, Number.mul e.2 (Finite (codeWeight cfg e.1)))
                  categoryProgress
                = sumOver ((λ c, Number.mul (codeValue cfg categoryProgress c)
                                            (Finite (codeWeight cfg c))) ∘ fst)
                    categoryProgress).
  { apply sumOver_ext. intros [c p] Hin. simpl. unfold codeValue.
    rewrite (lookupEntry_NoDup _ _ _ Hnd Hin). unfold orNumber.
    destruct p as [x | | |]; simpl; try done.
    - unfold Number.mul. destruct (Qeq_bool x 0) eqn:E; [| done].
      apply round64_comp. apply Qeq_bool_iff in E. by rewrite E.
    - by destruct (Hnan c). }
  by rewrite Hws.
Qed.

(** X13.  The legacy roll-up of a map of scores is the all-categories
    aggregation of the same map with the map's own keys, in the map's order,
    as the set of categories ever seen, when no score is NaN. *)
Theorem X13_legacy_rollup_is_all_categories_on_dom (cfg : ProgressConfig)
  (categoryProgress : list (jsstring * jsnumber)) :
  NoDup categoryProgress.*1 →
  (∀ c, (c, NaN) ∉ categoryProgress) →
  calculateOverallProgress cfg categoryProgress
  = calculateOverallProgressWithAllCategories cfg categoryProgress
      categoryProgress.*1.
Proof. apply legacy_rollup_on_keys. Qed.

Lemma X13_witness :
  calculateOverallProgress kitchenOffConfig kitchenAndOther
  = calculateOverallProgressWithAllCategories kitchenOffConfig kitchenAndOther
      kitchenAndOther.*1.
Proof.
  apply X13_legacy_rollup_is_all_categories_on_dom.
  - apply (bool_decide_unpack _). by vm_compute.
  - intros c Hc. unfold kitchenAndOther in Hc.
    rewrite !elem_of_cons, elem_of_nil in Hc. by destruct Hc as [? | [? | []]].
Defined.

(** *** Sums of scores *)

Lemma wholeUpTo_floor bound v : wholeUpTo bound v → v == inject_Z (Qfloor v).
Proof. intros (n & _ & Hn). by rewrite (Qfloor_comp _ _ Hn), Qfloor_Z. Qed.

Lemma wholeUpTo_floor_bounds bound v :
  wholeUpTo bound v → (0 <= Qfloor v <= bound)%Z.
Proof. intros (n & Hb & Hn). by rewrite (Qfloor_comp _ _ Hn), Qfloor_Z. Qed.

Lemma wholeSum_perm scores scores' : scores ≡ₚ scores' → wholeSum scores = wholeSum scores'.
Proof.
  unfold wholeSum.
  induction 1 as [| v l l' _ IH | v w l | l1 l2 l3 _ IH1 _ IH2]; simpl;
    [done | by rewrite IH | lia | by rewrite IH1].
Qed.

(** Adding values between 0 and [b] to a total that stays below [2^53]: the
    total stays finite, and below [b] a value. *)
Lemma sum_bounds (b : Z) (values : list Q) (a : Z) (x : Q) :
  Forall (λ v, 0 <= v ∧ v <= inject_Z b) values →
  0 <= x → x <= inject_Z a →
  (a + b * Z.of_nat (length values) < 2 ^ 53)%Z →
  ∃ y, foldl (λ total v, Number.add total (Finite v)) (Finite x) values = Finite y
       ∧ 0 <= y ∧ y <= inject_Z (a + b * Z.of_nat (length values)).
Proof.
  intros Hall. revert a x.
  induction Hall as [| v values [Hv0 Hvb] _ IH]; intros a x Hx0 Hxa Hsmall.
  - exists x. simpl. rewrite Z.mul_0_r, Z.add_0_r. by repeat split.
  - cbn [foldl length] in *. rewrite Nat2Z.inj_succ in *.
    assert (Hb : (0 <= b)%Z) by (rewrite (Zle_Qle 0); change (0 <= inject_Z b); lra).
    destruct (round64_bounds (x + v) (a + b)) as (y & Hy & Hy0 & Hya).
    { lra. }
    { rewrite inject_Z_plus. lra. }
    { lia. }
    unfold Number.add at 2. rewrite Hy.
    destruct (IH (a + b)%Z y Hy0 Hya) as (z & Hz & Hz0 & Hza); [lia |].
    exists z. split; [done |]. split; [done |].
    by replace (a + b * Z.succ (Z.of_nat (length values)))%Z
      with (a + b + b * Z.of_nat (length values))%Z by lia.
Qed.

(** Adding whole values: the total is exact. *)
Lemma sum_exact (b : Z) (values : list Q) (a : Z) :
  Forall (wholeUpTo b) values →
  (0 <= a)%Z →
  (a + b * Z.of_nat (length values) < 2 ^ 53)%Z →
  foldl (λ total v, Number.add total (Finite v)) (Finite (inject_Z a)) values
  = Finite (inject_Z (a + wholeSum values)).
Proof.
  intros Hall. revert a.
  induction Hall as [| v values Hv _ IH]; intros a Ha Hsmall.
  - simpl. by rewrite Z.add_0_r.
  - cbn [foldl length wholeSum foldr] in *.
    rewrite Nat2Z.inj_succ, Z.mul_succ_r in Hsmall.
    pose proof (wholeUpTo_floor_bounds _ _ Hv) as [Hf0 Hfb].
    assert (Hrest : (0 <= b * Z.of_nat (length values))%Z)
      by (apply Z.mul_nonneg_nonneg; lia).
    unfold Number.add at 2.
    rewrite (round64_exact _ (a + Qfloor v)).
    + rewrite IH by lia. f_equal. f_equal. fold (wholeSum values). lia.
    + lia.
    + rewrite inject_Z_plus. by rewrite <- (wholeUpTo_floor _ _ Hv).
Qed.

Lemma foldl_add_fmap {A} (f : A → Q) (l : list A) (total : jsnumber) :
  foldl (λ total a, Number.add total (Finite (f a))) total l
  = foldl (λ total v, Number.add total (Finite v)) total (f <$> l).
Proof. revert total. induction l as [| a l IH]; intros total; [done | apply IH]. Qed.

Lemma Math_round_percentage (x : Q) :
  0 <= x → x <= 100 → percentage (Math_round (Finite x)).
Proof.
  intros H0 H100. eexists. split; [reflexivity |].
  assert (Hlo : (0 <= Qfloor (x + 0.5))%Z).
  { change 0%Z with (Qfloor 0.5). apply Qfloor_resp_le. lra. }
  assert (Hhi : (Qfloor (x + 0.5) <= 100)%Z).
  { change 100%Z with (Qfloor 100.5). apply Qfloor_resp_le. lra. }
  split.
  - change 0 with (inject_Z 0). by rewrite <- Zle_Qle.
  - change 100 with (inject_Z 100). by rewrite <- Zle_Qle.
Qed.

(** The rounded mean of scores between 0 and 100 is between 0 and 100. *)
Lemma mean_percentage {A} (f : A → Q) (l : list A) :
  l ≠ [] →
  (∀ a, a ∈ l → 0 <= f a ∧ f a <= 100) →
  (Z.of_nat (length l) < 2 ^ 40)%Z →
  percentage
    (Math_round
       (Number.div (foldl (λ total a, Number.add total (Finite (f a))) (Finite 0) l)
                   (lengthNum l))).
Proof.
  intros Hne Hall Hlen. rewrite foldl_add_fmap.
  destruct (sum_bounds 100 (f <$> l) 0 0) as (y & -> & Hy0 & Hy).
  { apply Forall_fmap, Forall_forall. intros a Ha. by apply Hall. }
  { lra. }
  { done. }
  { rewrite length_fmap. lia. }
  rewrite length_fmap, Z.add_0_l, inject_Z_mult in Hy.
  change (inject_Z 100) with 100 in Hy.
  set (n := inject_Z (Z.of_nat (length l))) in *.
  assert (Hn : 0 < n).
  { unfold n. rewrite <- (Zlt_Qlt 0). destruct l; [done | simpl; lia]. }
  unfold lengthNum, Number.div. fold n.
  destruct (Qeq_bool n 0) eqn:E; [apply Qeq_bool_iff in E; lra |].
  destruct (round64_bounds (y / n) 100) as (z & -> & Hz0 & Hz); [| | done |].
  - apply Qle_shift_div_l; lra.
  - change (inject_Z 100) with 100. apply Qle_shift_div_r; lra.
  - by apply Math_round_percentage.
Qed.

(** *** The per-category result *)

(** What the loop of [calculateCategoryProgress] leaves: the running total
    and the two counts. *)
Lemma categoryLoop_spec (cfg : ProgressConfig) (items : list WorkItemForProgress.t) :
  categoryLoop cfg items
  = (foldl (λ total i, Number.add total (Finite (itemScore cfg i))) (Finite 0) items,
     length (filter (λ i, scoresVerified cfg i = true) items),
     length (filter (λ i, itemDefect i = true) items)).
Proof.
  unfold categoryLoop.
  assert (Hgen : ∀ t0 v0 d0,
    foldl (λ '(totalProgress, verifiedCount, defectCount) item,
             let itemResult :=
               calculateItemProgressV3 cfg (WorkItemForProgress.status item)
                 (WorkItemForProgress.notes item) emptyContext in
             (Number.add totalProgress (Finite (progress itemResult)),
              if leb (VERIFIED_NO_DEFECTS (getProgressThresholds cfg))
                     (progress itemResult)
              then S verifiedCount else verifiedCount,
              if hasDefect (WorkItemForProgress.status item)
                           (WorkItemForProgress.notes item)
              then S defectCount else defectCount))
          (t0, v0, d0) items
    = (foldl (λ total i, Number.add total (Finite (itemScore cfg i))) t0 items,
       (v0 + length (filter (λ i, scoresVerified cfg i = true) items))%nat,
       (d0 + length (filter (λ i, itemDefect i = true) items))%nat)).
  { induction items as [| item items IH]; intros t0 v0 d0.
    - simpl. by rewrite !Nat.add_0_r.
    - cbn [foldl]. cbv zeta.
      fold (itemScore cfg item). fold (scoresVerified cfg item). fold (itemDefect item).
      rewrite IH, !filter_cons. f_equal; [f_equal |].
      + destruct (scoresVerified cfg item); case_decide; try done; simpl; lia.
      + destruct (itemDefect item); case_decide; try done; simpl; lia. }
  apply Hgen.
Qed.

Lemma itemScore_whole (cfg : ProgressConfig) (item : WorkItemForProgress.t) :
  wholeThresholds cfg → wholeUpTo 100 (itemScore cfg item).
Proof.
  intros Hwhole. unfold itemScore.
  destruct (score_is_threshold cfg (WorkItemForProgress.status item)
              (WorkItemForProgress.notes item) emptyContext) as (key & Hkey).
  by apply (Hwhole key).
Qed.

(** With thresholds that have decimals the average does depend on the order
    in which the items are added up. *)
Lemma category_average_depends_on_order :
  let notStarted := kitchenItem WorkStatus.NOT_STARTED in
  let handled := kitchenItem WorkStatus.HANDLED in
  let inProgress := kitchenItem WorkStatus.IN_PROGRESS in
  let items := [ notStarted; handled; inProgress; notStarted; inProgress ] in
  cp_progress (calculateCategoryProgress decimalConfig items (Finite 0)) = Finite 30
  ∧ cp_progress (calculateCategoryProgress decimalConfig (rev items) (Finite 0))
    = Finite 29.
Proof. by vm_compute. Qed.

(** X14.  What of the per-category result depends on the order of the items.
    The three counts never do.  With whole-number thresholds, as the defaults
    are, the running total is exact and the whole result is the same for any
    rearrangement of fewer than [2^40] items; with decimal thresholds the
    average can differ ([category_average_depends_on_order]). *)
Theorem X14_category_progress_order (cfg : ProgressConfig)
  (items items' : list WorkItemForProgress.t) (previous : jsnumber) :
  items ≡ₚ items' →
  (cp_itemCount (calculateCategoryProgress cfg items previous)
   = cp_itemCount (calculateCategoryProgress cfg items' previous)
   ∧ cp_verifiedCount (calculateCategoryProgress cfg items previous)
     = cp_verifiedCount (calculateCategoryProgress cfg items' previous)
   ∧ cp_defectCount (calculateCategoryProgress cfg items previous)
     = cp_defectCount (calculateCategoryProgress cfg items' previous))
  ∧ (wholeThresholds cfg →
     (Z.of_nat (length items) < 2 ^ 40)%Z →
     calculateCategoryProgress cfg items previous
     = calculateCategoryProgress cfg items' previous).
Proof.
  intros Hperm. unfold calculateCategoryProgress.
  destruct items as [| i items].
  { apply Permutation_nil_l in Hperm. by subst. }
  destruct items' as [| i' items'].
  { by apply Permutation_nil_r in Hperm. }
  rewrite !categoryLoop_spec.
  cbn [cp_itemCount cp_verifiedCount cp_defectCount].
  assert (Hcounts :
    length (i :: items) = length (i' :: items')
    ∧ length (filter (λ i, scoresVerified cfg i = true) (i :: items))
      = length (filter (λ i, scoresVerified cfg i = true) (i' :: items'))
    ∧ length (filter (λ i, itemDefect i = true) (i :: items))
      = length (filter (λ i, itemDefect i = true) (i' :: items'))).
  { split; [apply Permutation_length, Hperm |]. split; by rewrite Hperm. }
  split; [exact Hcounts |].
  intros Hwhole Hlen. destruct Hcounts as (Hl & Hv & Hd).
  assert (Htotal : ∀ l : list WorkItemForProgress.t,
    (Z.of_nat (length l) < 2 ^ 40)%Z →
    foldl (λ total i, Number.add total (Finite (itemScore cfg i))) (Finite 0) l
    = Finite (inject_Z (wholeSum (itemScore cfg <$> l)))).
  { intros l Hsmall. rewrite foldl_add_fmap.
    rewrite (sum_exact 100 _ 0); [done | | done |].
    - apply Forall_fmap, Forall_forall. intros item _. by apply itemScore_whole.
    - rewrite length_fmap. lia. }
  rewrite (Htotal (i :: items)) by done.
  rewrite (Htotal (i' :: items')) by (by rewrite <- Hl).
  rewrite (wholeSum_perm _ (itemScore cfg <$> i' :: items'))
    by (by apply fmap_Permutation).
  unfold lengthNum. by rewrite Hl, Hv, Hd.
Qed.

Lemma X14_witness :
  let a := kitchenItem WorkStatus.COMPLETED_OK in
  let b := kitchenItem WorkStatus.DEFECT in
  calculateCategoryProgress DEFAULT_CONFIG [a; b; b] (Finite 0)
  = calculateCategoryProgress DEFAULT_CONFIG [b; a; b] (Finite 0).
Proof.
  cbv zeta.
  refine (proj2 (X14_category_progress_order DEFAULT_CONFIG _ _ _ _) _ _).
  - apply Permutation_swap.
  - intros key v Hin. unfold DEFAULT_CONFIG, thresholdEntries in Hin.
    cbn [progressThresholds VERIFIED_NO_DEFECTS CATEGORY_GRADUATED ITEM_FIXED
         COMPLETED_OK_LATER COMPLETED_OK_FIRST HANDLED COMPLETED_WITH_ISSUES
         DEFECT_WORK_DONE IN_PROGRESS PENDING UNKNOWN NOT_STARTED
         CATEGORY_NEVER_SEEN] in Hin.
    rewrite !elem_of_cons, elem_of_nil in Hin.
    repeat (destruct Hin as [[= _ ->] | Hin];
            [eexists; split; [| reflexivity]; lia |]).
    done.
  - by vm_compute.
Defined.

(** *** Maps kept as lists of entries *)

Lemma lookupEntry_setEntry {V} (o : list (jsstring * V)) (k k' : jsstring) (v : V) :
  lookupEntry (setEntry o k v) k'
  = if streq k k' then Some v else lookupEntry o k'.
Proof.
  induction o as [| [k0 v0] o IH]; simpl.
  - done.
  - destruct (streq k0 k) eqn:E0; simpl.
    + apply streq_eq in E0 as ->. by destruct (streq k k').
    + rewrite IH. destruct (streq k0 k') eqn:E1; [| done].
      apply streq_eq in E1 as ->. destruct (streq k k') eqn:E2; [| done].
      apply streq_eq in E2 as ->. by rewrite streq_refl in E0.
Qed.

Lemma lookupEntry_app {V} (a b : list (jsstring * V)) (k : jsstring) :
  lookupEntry (a ++ b) k
  = match lookupEntry a k with Some v => Some v | None => lookupEntry b k end.
Proof.
  induction a as [| [k0 v0] a IH]; simpl; [done |]. by destruct (streq k0 k).
Qed.

Lemma lookupEntry_None {V} (o : list (jsstring * V)) (k : jsstring) :
  lookupEntry o k = None ↔ k ∉ o.*1.
Proof.
  induction o as [| [k0 v0] o IH]; simpl.
  - split; [intros _; apply not_elem_of_nil | done].
  - rewrite not_elem_of_cons. destruct (streq k0 k) eqn:E.
    + apply streq_eq in E as ->. split; [done | by intros [? _]].
    + rewrite IH. split; [| by intros [_ ?]].
      intros H. split; [| done]. intros ->. by rewrite streq_refl in E.
Qed.

(** [set] keeps the keys of a map distinct, and in their order. *)
Lemma setEntry_keys {V} (o : list (jsstring * V)) (k : jsstring) (v : V) :
  (setEntry o k v).*1 = if bool_decide (k ∈ o.*1) then o.*1 else o.*1 ++ [k].
Proof.
  induction o as [| [k0 v0] o IH]; simpl; [done |].
  destruct (streq k0 k) eqn:E.
  - apply streq_eq in E as ->. rewrite bool_decide_eq_true_2; [done | by left].
  - rewrite fmap_cons, IH. simpl. case_bool_decide as H1; case_bool_decide as H2;
      try done.
    + destruct H2. by right.
    + apply elem_of_cons in H2 as [-> | H2]; [by rewrite streq_refl in E | done].
Qed.

Lemma setEntry_NoDup {V} (o : list (jsstring * V)) (k : jsstring) (v : V) :
  NoDup o.*1 → NoDup (setEntry o k v).*1.
Proof.
  intros Hnd. rewrite setEntry_keys. case_bool_decide as H; [done |].
  apply NoDup_app. split; [done |]. split; [| apply NoDup_singleton].
  intros x Hx Hk. apply list_elem_of_singleton in Hk. by subst.
Qed.

Lemma groupByCategory_lookup {T} (category : T → jsstring) (items : list T)
  (c : jsstring) :
  lookupEntry (groupByCategory category items) c
  = match filter (λ i, category i = c) items with
    | [] => None
    | group => Some group
    end.
Proof.
  unfold groupByCategory.
  assert (Hgen : ∀ m : list (jsstring * list T),
    lookupEntry
      (foldl (λ m item,
                setEntry m (category item)
                         (default [] (lookupEntry m (category item)) ++ [item]))
             m items) c
    = match filter (λ i, category i = c) items with
      | [] => lookupEntry m c
      | group => Some (default [] (lookupEntry m c) ++ group)
      end).
  { induction items as [| item items IH]; intros m; [done |].
    cbn [foldl]. rewrite IH, filter_cons, lookupEntry_setEntry.
    case_decide as Hc.
    - subst c. rewrite streq_refl. simpl.
      destruct (filter _ items); simpl; by rewrite <- ?app_assoc.
    - destruct (streq (category item) c) eqn:E; [by apply streq_eq in E |].
      done. }
  rewrite Hgen. simpl. by destruct (filter _ items).
Qed.

Lemma groupByCategory_NoDup {T} (category : T → jsstring) (items : list T) :
  NoDup (groupByCategory category items).*1.
Proof.
  unfold groupByCategory.
  assert (Hgen : ∀ m : list (jsstring * list T), NoDup m.*1 →
    NoDup (foldl (λ m item,
                    setEntry m (category item)
                             (default [] (lookupEntry m (category item)) ++ [item]))
                 m items).*1).
  { induction items as [| item items IH]; intros m Hm; [done |].
    cbn [foldl]. by apply IH, setEntry_NoDup. }
  apply Hgen. simpl. apply NoDup_nil_2.
Qed.

(** One [set] per entry: the last entry of a key decides. *)
Lemma setEach_snoc {A B} (f : A → B) (groups : list (jsstring * A)) e :
  setEach f (groups ++ [e]) = setEntry (setEach f groups) e.1 (f e.2).
Proof. unfold setEach. by rewrite foldl_snoc. Qed.

Lemma setEach_keys {A B} (f : A → B) (groups : list (jsstring * A)) :
  NoDup groups.*1 → (setEach f groups).*1 = groups.*1.
Proof.
  induction groups as [| e groups IH] using rev_ind; intros Hnd; [done |].
  rewrite fmap_app in Hnd. apply NoDup_app in Hnd as (Hnd & Hfresh & _).
  rewrite setEach_snoc, setEntry_keys, IH, fmap_app by done. simpl.
  rewrite bool_decide_eq_false_2; [done |].
  intros Hin. apply (Hfresh _ Hin). by left.
Qed.

Lemma setEach_lookup {A B} (f : A → B) (groups : list (jsstring * A)) c :
  NoDup groups.*1 →
  lookupEntry (setEach f groups) c = f <$> lookupEntry groups c.
Proof.
  induction groups as [| e groups IH] using rev_ind; intros Hnd; [done |].
  rewrite fmap_app in Hnd. apply NoDup_app in Hnd as (Hnd & Hfresh & _).
  rewrite setEach_snoc, lookupEntry_setEntry, lookupEntry_app, IH by done.
  destruct e as [k a]. simpl.
  destruct (streq k c) eqn:E.
  - apply streq_eq in E as ->.
    assert (Hnone : lookupEntry groups c = None).
    { apply lookupEntry_None. intros Hin. apply (Hfresh _ Hin). by left. }
    by rewrite Hnone.
  - by destruct (lookupEntry groups c).
Qed.

(** X15.  [calculateProgressByCategory] holds an entry exactly for the
    categories that have items, and the entry of a category is the
    per-category average of its items, taken in the order given. *)
Theorem X15_progress_by_category (cfg : ProgressConfig)
  (items : list WorkItemForProgress.t) (c : jsstring) :
  lookupEntry (calculateProgressByCategory cfg items) c
  = match filter (λ i, WorkItemForProgress.category i = c) items with
    | [] => None
    | group => Some (cp_progress (calculateCategoryProgress cfg group (Finite 0)))
    end.
Proof.
  unfold calculateProgressByCategory.
  rewrite setEach_lookup by apply groupByCategory_NoDup.
  rewrite groupByCategory_lookup. by destruct (filter _ items).
Qed.

(** ** Loading and saving the configuration *)

(** In [{...a, ...b}] the entries of [b] win, later ones over earlier ones. *)
Lemma lookupEntry_spread {V} (a b : list (jsstring * V)) (k : jsstring) :
  lookupEntry (spread a b) k
  = match lookupEntry (rev b) k with Some v => Some v | None => lookupEntry a k end.
Proof.
  unfold spread. revert a. induction b as [| [k0 v0] b IH]; intros a; simpl; [done |].
  rewrite IH, lookupEntry_app, lookupEntry_setEntry. simpl.
  destruct (lookupEntry (rev b) k); [done |]. by destruct (streq k0 k).
Qed.

Lemma lookupEntry_rev {V} (b : list (jsstring * V)) (k : jsstring) :
  NoDup b.*1 → lookupEntry (rev b) k = lookupEntry b k.
Proof.
  induction b as [| [k0 v0] b IH]; simpl; [done |].
  intros [Hk0 Hb]%NoDup_cons. rewrite lookupEntry_app, IH by done. simpl.
  destruct (streq k0 k) eqn:E; [| by destruct (lookupEntry b k)].
  apply streq_eq in E as ->. by apply lookupEntry_None in Hk0 as ->.
Qed.

(** X16.  What [loadConfig] answers for a category weight: the weight the
    file gives when it gives one, the default weight of that category
    otherwise; so a category of the defaults that the file leaves out comes
    back with its default weight. *)
Theorem X16_loadConfig_category_weights (config : PartialConfig)
  (weights : list (jsstring * Q)) (category : jsstring) :
  p_categoryWeights config = Some weights →
  NoDup weights.*1 →
  lookupEntry (categoryWeights (loadConfig (Parsed config))) category
  = match lookupEntry weights category with
    | Some w => Some w
    | None => lookupEntry (categoryWeights DEFAULT_CONFIG) category
    end.
Proof.
  intros Hw Hnd. cbn [loadConfig categoryWeights]. rewrite Hw. cbn [default].
  by rewrite lookupEntry_spread, lookupEntry_rev.
Qed.

Lemma X16_witness :
  lookupEntry (categoryWeights (loadConfig (Parsed weightsOnlyJSON))) (utf16 "KITCHEN")
  = Some 10
  ∧ lookupEntry (categoryWeights (loadConfig (Parsed weightsOnlyJSON))) (utf16 "OTHER")
    = Some 25.
Proof.
  assert (Hnd : NoDup [ (utf16 "OTHER", 25); (utf16 "GARDEN", 3) ].*1)
    by (apply (bool_decide_unpack _); by vm_compute).
  rewrite !(X16_loadConfig_category_weights weightsOnlyJSON _ _ eq_refl Hnd).
  split; by vm_compute.
Defined.

Lemma spread_cons_other {V} (a b : list (jsstring * V)) (k : jsstring) (v : V) :
  k ∉ b.*1 → spread ((k, v) :: a) b = (k, v) :: spread a b.
Proof.
  unfold spread. revert a. induction b as [| [k0 v0] b IH]; intros a Hk; [done |].
  rewrite fmap_cons in Hk. apply not_elem_of_cons in Hk as [Hne Hk].
  cbn [fold_left setEntry fst snd].
  rewrite (streq_neq k k0) by done. by apply IH.
Qed.

Lemma spread_same_keys {V} (a b : list (jsstring * V)) :
  a.*1 = b.*1 → NoDup a.*1 → spread a b = b.
Proof.
  revert b. induction a as [| [k v] a IH]; intros [| [k' v'] b] Hkeys Hnd;
    try done.
  rewrite !fmap_cons in Hkeys. cbn [fst] in Hkeys. injection Hkeys as <- Hkeys.
  rewrite fmap_cons in Hnd. apply NoDup_cons in Hnd as [Hk Hnd].
  change (spread ((k, v) :: a) ((k, v') :: b)) with
    (spread (setEntry ((k, v) :: a) k v') b).
  cbn [setEntry]. rewrite streq_refl.
  rewrite Hkeys in Hk.
  rewrite spread_cons_other by done. by rewrite IH.
Qed.

(** X17.  Saving and loading again.  A configuration whose category weights
    are given for exactly the categories of the defaults, in their order, is
    read back as it was written, with the time stamp of the save. *)
Theorem X17_save_then_load (now : jsstring) (config : ProgressConfig) :
  (categoryWeights config).*1 = (categoryWeights DEFAULT_CONFIG).*1 →
  loadConfig (saveConfig now config) = stamp now config.
Proof.
  intros Hkeys. unfold saveConfig, stamp, loadConfig, toJSON.
  cbn [p_categoryWeights p_progressThresholds p_baselineProgress p_maxProgress
       p_defectPenalty p_defaultCategoryWeight p_lastUpdated default
       categoryWeights progressThresholds baselineProgress maxProgress
       defectPenalty defaultCategoryWeight lastUpdated].
  rewrite spread_same_keys; [| done | apply (bool_decide_unpack _); by vm_compute].
  unfold spreadThresholds. cbn. by destruct (progressThresholds config).
Qed.

Lemma X17_witness :
  loadConfig (saveConfig (utf16 "2025-01-15T10:00:00.000Z") kitchenOffConfig)
  = stamp (utf16 "2025-01-15T10:00:00.000Z") kitchenOffConfig.
Proof. apply X17_save_then_load. by vm_compute. Defined.

(** ** The statistics route: buckets *)

Lemma positive_not_negative (status : jsstring) :
  isPositiveStatus status = true → isNegativeStatus status = false.
Proof.
  unfold isPositiveStatus. rewrite !orb_true_iff, !streq_eq.
  by intros [[-> | ->] | ->].
Qed.

Lemma completed_excludes_defect (status : jsstring) (notes : option jsstring) :
  Stats.itemIsCompleted status notes = true → Stats.itemHasDefect status notes = false.
Proof.
  unfold Stats.itemIsCompleted, Stats.itemHasDefect.
  intros [Hp Hn]%andb_true_iff. rewrite (positive_not_negative _ Hp).
  by destruct (hasNegativeNotes notes).
Qed.

(** X18.  The three buckets of the statistics response partition the items:
    every history entry is in exactly one of the completed, current-defect and
    in-progress lists, so the three counts add up to the number of items. *)
Theorem X18_buckets_partition (items : list Stats.ItemHistory) :
  (∀ i, (StatsLists.isCompletedEntry i && negb (StatsLists.isCurrentDefectEntry i)
           && negb (StatsLists.isInProgressEntry i))
        || (negb (StatsLists.isCompletedEntry i) && StatsLists.isCurrentDefectEntry i
              && negb (StatsLists.isInProgressEntry i))
        || (negb (StatsLists.isCompletedEntry i)
              && negb (StatsLists.isCurrentDefectEntry i)
              && StatsLists.isInProgressEntry i) = true)
  ∧ (length (filter (λ i, StatsLists.isCompletedEntry i = true) items)
     + length (filter (λ i, StatsLists.isCurrentDefectEntry i = true) items)
     + length (filter (λ i, StatsLists.isInProgressEntry i = true) items)
     = length items)%nat.
Proof.
  assert (Hone : ∀ i,
    (StatsLists.isCompletedEntry i && negb (StatsLists.isCurrentDefectEntry i)
       && negb (StatsLists.isInProgressEntry i))
    || (negb (StatsLists.isCompletedEntry i) && StatsLists.isCurrentDefectEntry i
          && negb (StatsLists.isInProgressEntry i))
    || (negb (StatsLists.isCompletedEntry i)
          && negb (StatsLists.isCurrentDefectEntry i)
          && StatsLists.isInProgressEntry i) = true).
  { intros i. unfold StatsLists.isCompletedEntry, StatsLists.isCurrentDefectEntry,
      StatsLists.isInProgressEntry.
    destruct (Stats.isInLatestReport i); [| done].
    destruct (Stats.itemIsCompleted _ _) eqn:Ec.
    - by rewrite (completed_excludes_defect _ _ Ec).
    - by destruct (Stats.itemHasDefect _ _). }
  split; [exact Hone |].
  induction items as [| i items IH]; [done |].
  rewrite !filter_cons. specialize (Hone i).
  destruct (StatsLists.isCompletedEntry i), (StatsLists.isCurrentDefectEntry i),
    (StatsLists.isInProgressEntry i); try done;
    repeat case_decide; try done; simpl; lia.
Qed.

(** ** The statistics route: invariants of the history *)

Section StatsInvariants.

Import Stats.

Variable itemsInLatestReport : gset jsstring.

Lemma processItem_wellFormed idx date st item :
  wellFormedHistory st →
  wellFormedHistory (processItem itemsInLatestReport idx date st item).
Proof.
  intros Hst key it Hit.
  destruct (decide (keyOf item = key)) as [<- | Hne].
  - unfold processItem in Hit; cbn [itemHistory] in Hit.
    destruct (itemHistory st !! keyOf item) as [existing |] eqn:E;
      rewrite lookup_insert_eq in Hit; injection Hit as <-.
    + destruct (Hst _ _ E) as (Hk & Hd & Hc).
      split; [done |]. split; [| cbn; apply elem_of_setAdd; by left].
      cbn [hadDefectEver defectReportDate].
      destruct (itemHasDefect _ _ && negb (hadDefectEver existing)); [| done].
      split; [by eexists | done].
    + split; [done |].
      split; [| cbn; apply elem_of_setAdd; by right].
      cbn [hadDefectEver defectReportDate].
      destruct (itemHasDefect _ _); [split; [by eexists | done] |].
      split; [done | by intros [? ?]].
  - rewrite processItem_lookup_ne in Hit by done.
    destruct (Hst _ _ Hit) as (Hk & Hd & Hc).
    split; [done |]. split; [done |]. cbn. apply elem_of_setAdd. by left.
Qed.

Lemma processItem_indexBelow idx date st item :
  indexBelow (S idx) st →
  indexBelow (S idx) (processItem itemsInLatestReport idx date st item).
Proof.
  intros Hst key it Hit.
  destruct (decide (keyOf item = key)) as [<- | Hne].
  - unfold processItem in Hit; cbn [itemHistory] in Hit.
    destruct (itemHistory st !! keyOf item) as [existing |] eqn:E;
      rewrite lookup_insert_eq in Hit; injection Hit as <-; cbn; [| lia].
    destruct (Hst _ _ E). lia.
  - rewrite processItem_lookup_ne in Hit by done. exact (Hst _ _ Hit).
Qed.

Lemma processReports_indexBelow reports idx st :
  indexBelow idx st →
  indexBelow (idx + length reports) (processReports itemsInLatestReport idx st reports).
Proof.
  revert idx st. induction reports as [| report rest IH]; intros idx st Hst.
  - simpl. by rewrite Nat.add_0_r.
  - simpl. replace (idx + S (length rest))%nat with (S idx + length rest)%nat by lia.
    apply IH. unfold processReport.
    assert (Hweak : indexBelow (S idx) st).
    { intros key it Hit. destruct (Hst _ _ Hit). lia. }
    revert Hweak. generalize st.
    induction (Report.workItems report) as [| item items IHi]; intros st' Hst'; simpl;
      [done |].
    by apply IHi, processItem_indexBelow.
Qed.

Lemma processItem_lastSeenTracks idx date processed st item :
  lastSeenTracks idx processed st →
  lastSeenTracks idx (processed ++ [item])
    (processItem itemsInLatestReport idx date st item).
Proof.
  intros Hst key it Hit. rewrite fmap_app, elem_of_app.
  change (keyOf <$> [item]) with [keyOf item]. rewrite list_elem_of_singleton.
  destruct (decide (keyOf item = key)) as [<- | Hne].
  - unfold processItem in Hit; cbn [itemHistory] in Hit.
    destruct (itemHistory st !! keyOf item) as [existing |] eqn:E;
      rewrite lookup_insert_eq in Hit; injection Hit as <-; cbn;
      (split; [lia | split; auto]).
  - rewrite processItem_lookup_ne in Hit by done.
    destruct (Hst _ _ Hit) as [Hle Hiff]. split; [done |].
    rewrite Hiff. split; [auto | by intros [? | ?]].
Qed.

Lemma processReport_lastSeenTracks idx st report :
  (∀ key item, itemHistory st !! key = Some item → (lastSeenReportIndex item < idx)%nat) →
  lastSeenTracks idx (Report.workItems report)
    (processReport itemsInLatestReport idx st report).
Proof.
  intros Hbefore. unfold processReport.
  assert (Hgen : ∀ items processed st,
    lastSeenTracks idx processed st →
    lastSeenTracks idx (processed ++ items)
      (foldl (processItem itemsInLatestReport idx (Report.reportDate report)) st items)).
  { induction items as [| item items IH]; intros processed st' Hst'; simpl.
    - by rewrite app_nil_r.
    - replace (processed ++ item :: items) with ((processed ++ [item]) ++ items)
        by (by rewrite <- app_assoc).
      by apply IH, processItem_lastSeenTracks. }
  apply (Hgen _ []). intros key it Hit. specialize (Hbefore _ _ Hit).
  split; [lia |]. rewrite fmap_nil, elem_of_nil. lia.
Qed.

End StatsInvariants.

(** X19.  Every entry of the history the route builds is well formed: its key
    is its apartment number, category and description joined by bars; its
    defect date is set exactly when its defect flag is; its category is among
    the categories ever seen; it was first seen no later than it was last
    seen, and last seen at one of the reports. *)
Theorem X19_history_entries_well_formed (apartments : list Apartment)
  (reports : list Report.t) (key : jsstring) (item : Stats.ItemHistory) :
  Stats.itemHistory (Stats.buildHistory apartments reports) !! key = Some item →
  wellFormedEntry (Stats.buildHistory apartments reports) key item
  ∧ (Stats.firstSeenReportIndex item ≤ Stats.lastSeenReportIndex item)%nat
  ∧ (Stats.lastSeenReportIndex item < length reports)%nat.
Proof.
  intros Hitem. split.
  - revert key item Hitem. fold (wellFormedHistory (Stats.buildHistory apartments reports)).
    unfold Stats.buildHistory.
    apply (processReports_invariant _ wellFormedHistory).
    + intros. by apply processItem_wellFormed.
    + intros key item. cbn. by rewrite lookup_empty.
  - unfold Stats.buildHistory in Hitem.
    eapply (processReports_indexBelow _ reports 0) in Hitem; [exact Hitem |].
    intros key' it'. cbn. by rewrite lookup_empty.
Qed.

Lemma X19_witness :
  ∃ item,
    Stats.itemHistory (Stats.buildHistory [apartment1] sampleReports)
      !! Stats.keyOf tapItem = Some item
    ∧ wellFormedEntry (Stats.buildHistory [apartment1] sampleReports)
        (Stats.keyOf tapItem) item
    ∧ (Stats.firstSeenReportIndex item ≤ Stats.lastSeenReportIndex item)%nat
    ∧ (Stats.lastSeenReportIndex item < 2)%nat.
Proof.
  eexists. split; [vm_compute; reflexivity |].
  apply (X19_history_entries_well_formed [apartment1] sampleReports).
  vm_compute; reflexivity.
Defined.

(** X20.  The presence flag and the index of last sight agree: an entry of the
    history is flagged as in the latest report exactly when it was last seen at
    the last report. *)
Theorem X20_presence_is_last_seen_at_latest (apartments : list Apartment)
  (reports : list Report.t) (key : jsstring) (item : Stats.ItemHistory) :
  Stats.itemHistory (Stats.buildHistory apartments reports) !! key = Some item →
  (Stats.isInLatestReport item = true
   ↔ Stats.lastSeenReportIndex item = Stats.latestReportIndex reports).
Proof.
  intros Hitem.
  rewrite (buildHistory_presenceFlags apartments reports key item Hitem).
  rewrite bool_decide_eq_true.
  destruct (decide (reports = [])) as [-> | Hne].
  { cbn in Hitem. by rewrite lookup_empty in Hitem. }
  destruct (exists_last Hne) as (earlier & latest & ->).
  unfold Stats.latestReportIndex, Stats.latestKeys.
  rewrite last_snoc, length_app. simpl.
  replace (length earlier + 1 - 1)%nat with (length earlier) by lia.
  unfold Stats.buildHistory in Hitem. rewrite processReports_app in Hitem.
  simpl in Hitem.
  set (keys := Stats.latestKeys (earlier ++ [latest])) in *.
  set (st := Stats.processReports keys 0 (Stats.initialState apartments) earlier) in *.
  assert (Hbefore : ∀ key' it', Stats.itemHistory st !! key' = Some it' →
                                (Stats.lastSeenReportIndex it' < length earlier)%nat).
  { intros key' it' Hit'. unfold st in Hit'.
    eapply (processReports_indexBelow keys earlier 0) in Hit'; [apply Hit' |].
    intros ? ?. cbn. by rewrite lookup_empty. }
  destruct (processReport_lastSeenTracks keys (length earlier) st latest Hbefore
              key item Hitem) as [_ Hiff].
  rewrite Hiff, elem_of_list_to_set. done.
Qed.

Lemma X20_witness :
  ∃ item,
    Stats.itemHistory (Stats.buildHistory [apartment1] sampleReports)
      !! Stats.keyOf tapItem = Some item
    ∧ Stats.isInLatestReport item = false
    ∧ Stats.lastSeenReportIndex item ≠ 1%nat.
Proof.
  eexists. split; [vm_compute; reflexivity |].
  split; [reflexivity |].
  intros H.
  apply (X20_presence_is_last_seen_at_latest [apartment1] sampleReports
           (Stats.keyOf tapItem)) in H; [discriminate H | vm_compute; reflexivity].
Defined.

(** ** The statistics route: what the history accumulates *)

Section StatsAccumulation.

Import Stats.

Variable itemsInLatestReport : gset jsstring.

(** A property of states that each record can only switch on is, after the
    loops, what it was before or switched on by one of the records. *)
Lemma processReports_accumulates (D : State → Prop) (E : WorkItem.t → Prop) :
  (∀ idx date st item,
     D (processItem itemsInLatestReport idx date st item) ↔ D st ∨ E item) →
  ∀ reports idx st,
    D (processReports itemsInLatestReport idx st reports)
    ↔ D st ∨ ∃ item, item ∈ allRecords reports ∧ E item.
Proof.
  intros Hstep.
  assert (Hitems : ∀ idx date items st,
    D (foldl (processItem itemsInLatestReport idx date) st items)
    ↔ D st ∨ ∃ item, item ∈ items ∧ E item).
  { intros idx date items. induction items as [| x items IH]; intros st; simpl.
    - split; [auto | intros [? | (? & []%elem_of_nil & _)]; done].
    - rewrite IH, Hstep. split.
      + intros [[? | ?] | (y & Hy & HE)]; [auto | |].
        * right. exists x. rewrite elem_of_cons. auto.
        * right. exists y. rewrite elem_of_cons. auto.
      + intros [? | (y & [-> | Hy]%elem_of_cons & HE)]; eauto. }
  intros reports. unfold allRecords.
  induction reports as [| report rest IH]; intros idx st; simpl.
  - split; [auto | intros [? | (? & []%elem_of_nil & _)]; done].
  - rewrite IH. unfold processReport. rewrite Hitems. split.
    + intros [[? | (y & Hy & HE)] | (y & Hy & HE)]; [auto | |];
        right; exists y; rewrite elem_of_app; auto.
    + intros [? | (y & [Hy | Hy]%elem_of_app & HE)]; eauto.
Qed.

Lemma processItem_hadDefect_iff idx date st item key :
  hadDefectAt (processItem itemsInLatestReport idx date st item) key
  ↔ hadDefectAt st key
    ∨ (keyOf item = key
       ∧ itemHasDefect (WorkItem.status item) (WorkItem.notes item) = true).
Proof.
  unfold hadDefectAt. destruct (decide (keyOf item = key)) as [<- | Hne].
  - unfold processItem; cbn [itemHistory].
    destruct (itemHistory st !! keyOf item) as [existing |] eqn:E;
      rewrite lookup_insert_eq.
    + split.
      * intros (it & [= <-] & Hd). cbn in Hd.
        destruct (itemHasDefect _ _); [by right |].
        left. exists existing. by destruct (hadDefectEver existing).
      * intros H. eexists. split; [done |]. cbn.
        destruct H as [(it & [= <-] & ->) | [_ ->]]; [by rewrite andb_false_r |].
        by destruct (hadDefectEver existing).
    + split.
      * intros (it & [= <-] & Hd). by right.
      * intros [(it & ? & _) | [_ Hd]]; [done |]. eexists. by split.
  - rewrite processItem_lookup_ne by done. split; [auto | by intros [? | [? _]]].
Qed.

Lemma processItem_known_iff idx date st item key :
  is_Some (itemHistory (processItem itemsInLatestReport idx date st item) !! key)
  ↔ is_Some (itemHistory st !! key) ∨ keyOf item = key.
Proof.
  destruct (decide (keyOf item = key)) as [<- | Hne].
  - unfold processItem; cbn [itemHistory].
    destruct (itemHistory st !! keyOf item); rewrite lookup_insert_eq;
      split; eauto.
  - rewrite processItem_lookup_ne by done. split; [auto | by intros [? | ?]].
Qed.

Lemma processItem_category_iff idx date st item c :
  c ∈ categoriesEverSeen (processItem itemsInLatestReport idx date st item)
  ↔ c ∈ categoriesEverSeen st ∨ WorkItem.category item = c.
Proof.
  unfold processItem; cbn [categoriesEverSeen].
  rewrite elem_of_setAdd. split; intros [? | ?]; auto.
Qed.

End StatsAccumulation.

(** X21.  The defect flag is exact: an item of the history has
    [hadDefectEver] set exactly when some record with its key, in some report,
    had a negative status or negative notes. *)
Theorem X21_hadDefectEver_exact (apartments : list Apartment)
  (reports : list Report.t) (key : jsstring) :
  hadDefectAt (Stats.buildHistory apartments reports) key
  ↔ ∃ record, record ∈ allRecords reports
              ∧ Stats.keyOf record = key
              ∧ Stats.itemHasDefect (WorkItem.status record) (WorkItem.notes record)
                = true.
Proof.
  unfold Stats.buildHistory.
  rewrite (processReports_accumulates _ (λ st, hadDefectAt st key)
             (λ record, Stats.keyOf record = key
                        ∧ Stats.itemHasDefect (WorkItem.status record)
                            (WorkItem.notes record) = true)).
  - split; [| auto]. intros [(it & Hit & _) | ?]; [| done].
    cbn in Hit. by rewrite lookup_empty in Hit.
  - intros. apply processItem_hadDefect_iff.
Qed.

(** X22.  The history and the set of categories hold what the reports list,
    no more and no less: a key has an entry exactly when some record has that
    key, and a category counts as ever seen exactly when some record is of
    that category. *)
Theorem X22_history_holds_exactly_the_records (apartments : list Apartment)
  (reports : list Report.t) :
  (∀ key, is_Some (Stats.itemHistory (Stats.buildHistory apartments reports) !! key)
          ↔ ∃ record, record ∈ allRecords reports ∧ Stats.keyOf record = key)
  ∧ (∀ c, c ∈ Stats.categoriesEverSeen (Stats.buildHistory apartments reports)
          ↔ ∃ record, record ∈ allRecords reports ∧ WorkItem.category record = c).
Proof.
  unfold Stats.buildHistory. split.
  - intros key.
    rewrite (processReports_accumulates _
               (λ st, is_Some (Stats.itemHistory st !! key))
               (λ record, Stats.keyOf record = key)).
    + split; [| auto]. intros [[it Hit] | ?]; [| done].
      cbn in Hit. by rewrite lookup_empty in Hit.
    + intros. apply processItem_known_iff.
  - intros c.
    rewrite (processReports_accumulates _
               (λ st, c ∈ Stats.categoriesEverSeen st)
               (λ record, WorkItem.category record = c)).
    + split; [| auto]. intros [Hc | ?]; [| done]. cbn in Hc. by apply elem_of_nil in Hc.
    + intros. apply processItem_category_iff.
Qed.

(** ** The statistics route: disappearance and the overall figure *)

Lemma processReports_others (itemsInLatestReport : gset jsstring) (key : jsstring)
  (reports : list Report.t) (idx : nat) (st : Stats.State) :
  (∀ record, record ∈ allRecords reports → Stats.keyOf record ≠ key) →
  Stats.itemHistory (Stats.processReports itemsInLatestReport idx st reports) !! key
  = Stats.itemHistory st !! key.
Proof.
  revert idx st. induction reports as [| report rest IH]; intros idx st Hrec; [done |].
  simpl. rewrite IH.
  - unfold Stats.processReport. apply foldl_processItem_others.
    apply Forall_forall. intros record Hin. apply Hrec.
    unfold allRecords. simpl. rewrite elem_of_app. auto.
  - intros record Hin. apply Hrec. unfold allRecords. simpl. rewrite elem_of_app. auto.
Qed.

(** X23.  An item keeps what its most recent listing recorded.  If the report
    [r] lists the item and no later report does, the history holds the status
    and notes of that listing; and when later reports exist, the item counts
    as disappeared and scores the ITEM_FIXED of the built-in defaults (90),
    whatever that status was and whatever ITEM_FIXED the active configuration
    sets. *)
Theorem X23_last_listing_sticks (cfg : ProgressConfig) (apartments : list Apartment)
  (earlier : list Report.t) (r : Report.t) (later : list Report.t)
  (key status : jsstring) (notes : option jsstring) :
  listsLast key status notes r →
  (∀ record, record ∈ allRecords later → Stats.keyOf record ≠ key) →
  ∃ item,
    Stats.itemHistory (Stats.buildHistory apartments (earlier ++ r :: later)) !! key
    = Some item
    ∧ Stats.status item = status
    ∧ Stats.notes item = notes
    ∧ (later ≠ [] →
       Stats.calculateEffectiveProgress cfg
         (Stats.latestReportIndex (earlier ++ r :: later)) item
       = ITEM_FIXED (progressThresholds DEFAULT_CONFIG)).
Proof.
  intros Hr Hlater. unfold Stats.buildHistory.
  set (keys := Stats.latestKeys (earlier ++ r :: later)).
  rewrite processReports_app. simpl.
  rewrite processReports_others by done.
  destruct (processReport_listsLast keys key (0 + length earlier)
              (Stats.processReports keys 0 (Stats.initialState apartments) earlier)
              r status notes Hr) as (e & He & Hs & Hn & Hf & _).
  exists e. repeat split; try done.
  intros Hne. unfold Stats.calculateEffectiveProgress. rewrite Hf.
  rewrite bool_decide_eq_false_2; [done |].
  unfold keys, Stats.latestKeys.
  destruct (exists_last Hne) as (mid & final & ->).
  replace (earlier ++ r :: mid ++ [final]) with ((earlier ++ r :: mid) ++ [final])
    by (by rewrite <- app_assoc).
  rewrite last_snoc, elem_of_list_to_set, list_elem_of_fmap.
  intros (record & Hk & Hin). apply (Hlater record); [| done].
  unfold allRecords. rewrite fmap_app, join_app, elem_of_app. right.
  simpl. rewrite app_nil_r. done.
Qed.

Lemma X23_witness :
  ∃ item,
    Stats.itemHistory (Stats.buildHistory [apartment1] sampleReports)
      !! Stats.keyOf tapItem = Some item
    ∧ Stats.status item = WorkStatus.COMPLETED
    ∧ Stats.calculateEffectiveProgress retunedConfig 1 item
      = ITEM_FIXED (progressThresholds DEFAULT_CONFIG).
Proof.
  destruct (X23_last_listing_sticks retunedConfig [apartment1] []
              {| Report.reportDate := 1;
                 Report.workItems := [ socketItem WorkStatus.DEFECT None; tapItem ] |}
              [ {| Report.reportDate := 2;
                   Report.workItems := [ socketItem WorkStatus.DEFECT None ] |} ]
              (Stats.keyOf tapItem) WorkStatus.COMPLETED (Some (utf16 "חסר כיסוי")))
    as (item & Hitem & Hs & _ & Hscore).
  - exists [ socketItem WorkStatus.DEFECT None ], tapItem, []. by repeat split.
  - intros record Hin. unfold allRecords in Hin. simpl in Hin.
    apply list_elem_of_singleton in Hin as ->. by vm_compute.
  - exists item. split; [exact Hitem |]. split; [exact Hs |]. by apply Hscore.
Defined.

Lemma elem_of_allItems (st : Stats.State) (item : Stats.ItemHistory) :
  item ∈ StatsLists.allItems st → ∃ key, Stats.itemHistory st !! key = Some item.
Proof.
  unfold StatsLists.allItems. rewrite list_elem_of_omap.
  intros (key & _ & Hkey). by exists key.
Qed.

Lemma categoryProgress_lookup (cfg : ProgressConfig) (latestReportIndex : nat)
  (st : Stats.State) (c : jsstring) (p : jsnumber) :
  lookupEntry (StatsLists.categoryProgress cfg latestReportIndex st) c = Some p →
  ∃ item group,
    filter (λ i, Stats.category i = c) (StatsLists.allItems st) = item :: group
    ∧ p = StatsLists.averageProgress cfg latestReportIndex (item :: group).
Proof.
  unfold StatsLists.categoryProgress.
  rewrite setEach_lookup by apply groupByCategory_NoDup.
  rewrite groupByCategory_lookup.
  destruct (filter _ _) as [| item group]; [done |].
  intros [= <-]. by exists item, group.
Qed.

(** X24.  In the statistics route a category with a score is a category ever
    seen: every key of the project-level category map is in the ever-seen
    set, so no scored category is left out of the overall figure. *)
Theorem X24_scored_categories_are_ever_seen (cfg : ProgressConfig)
  (apartments : list Apartment) (reports : list Report.t) (c : jsstring) :
  is_Some (lookupEntry
             (StatsLists.categoryProgress cfg (Stats.latestReportIndex reports)
                (Stats.buildHistory apartments reports)) c) →
  c ∈ Stats.categoriesEverSeen (Stats.buildHistory apartments reports).
Proof.
  intros [p Hp]. apply categoryProgress_lookup in Hp as (item & group & Hfilter & _).
  assert (Hin : item ∈ filter (λ i, Stats.category i = c)
                         (StatsLists.allItems (Stats.buildHistory apartments reports)))
    by (rewrite Hfilter, elem_of_cons; auto).
  apply list_elem_of_filter in Hin as [<- Hin].
  apply elem_of_allItems in Hin as (key & Hkey).
  assert (Hwf : wellFormedHistory (Stats.buildHistory apartments reports)).
  { unfold Stats.buildHistory. apply (processReports_invariant _ wellFormedHistory).
    - intros. by apply processItem_wellFormed.
    - intros k i. cbn. by rewrite lookup_empty. }
  by destruct (Hwf _ _ Hkey) as (_ & _ & Hc).
Qed.

Lemma X24_witness :
  utf16 "PLUMBING"
  ∈ Stats.categoriesEverSeen (Stats.buildHistory [apartment1] sampleReports).
Proof.
  apply (X24_scored_categories_are_ever_seen DEFAULT_CONFIG).
  eexists. vm_compute. reflexivity.
Defined.

(** ** Bounds of the overall figure, with whole-number weights *)

Lemma codeWeight_whole (cfg : ProgressConfig) (c : jsstring) :
  wholeWeights cfg → wholeUpTo 1000 (codeWeight cfg c).
Proof.
  intros [Hw Hd]. unfold codeWeight, orNum, getCategoryWeights, getConfigSafe.
  destruct (lookupEntry (categoryWeights cfg) c) as [w |] eqn:E; [| done].
  destruct (numeq w 0); [done |]. apply (Hw c). by apply lookupEntry_elem.
Qed.

Lemma codeValue_percentage (cfg : ProgressConfig)
  (current : list (jsstring * jsnumber)) (c : jsstring) :
  valid (validateConfig cfg) = true →
  (∀ c p, lookupEntry current c = Some p → percentage p) →
  percentage (codeValue cfg current c).
Proof.
  intros Hvalid Hcur. unfold codeValue, orNumber.
  destruct (lookupEntry current c) as [p |] eqn:E.
  - destruct (Number.falsy p); [| by apply (Hcur c)].
    exists 0. split; [done | lra].
  - eexists. split; [done |].
    apply (valid_thresholds_in_range cfg (utf16 "CATEGORY_GRADUATED")); [done |].
    unfold thresholdEntries, getProgressThresholds, getConfigSafe.
    rewrite !elem_of_cons. auto.
Qed.

(** The two sums of the aggregation, side by side: with whole weights the
    total weight is exact and the weighted sum stays below 100 times it. *)
Lemma weighted_loop {A} (v : A → jsnumber) (w : A → Q) (l : list A) (s : Q) (W : Z) :
  (∀ a, a ∈ l → percentage (v a)) →
  (∀ a, a ∈ l → wholeUpTo 1000 (w a)) →
  0 <= s → s <= inject_Z (100 * W) → (0 <= W)%Z →
  (100 * (W + 1000 * Z.of_nat (length l)) < 2 ^ 53)%Z →
  ∃ s' W',
    foldl (λ total a, Number.add total (Number.mul (v a) (Finite (w a))))
          (Finite s) l = Finite s'
    ∧ foldl (λ total a, Number.add total (Finite (w a))) (Finite (inject_Z W)) l
      = Finite (inject_Z W')
    ∧ 0 <= s' ∧ s' <= inject_Z (100 * W') ∧ (0 <= W')%Z.
Proof.
  revert s W. induction l as [| a l IH]; intros s W Hv Hw Hs0 Hs HW Hsmall.
  - by exists s, W.
  - cbn [foldl length] in *. rewrite Nat2Z.inj_succ in Hsmall.
    destruct (Hv a) as (x & Hx & Hx0 & Hx100); [by left |].
    destruct (Hw a) as (n & [Hn0 Hn1000] & Hn); [by left |].
    assert (Hn0' : 0 <= inject_Z n) by (by rewrite <- (Zle_Qle 0)).
    assert (Hprod : ∃ y, Number.mul (Finite x) (Finite (w a)) = Finite y
                         ∧ 0 <= y ∧ y <= inject_Z (100 * n)).
    { unfold Number.mul. apply round64_bounds; [| | lia].
      - rewrite Hn. by apply Qmult_le_0_compat.
      - rewrite Hn, inject_Z_mult. change (inject_Z 100) with 100.
        by apply Qmult_le_compat_r. }
    destruct Hprod as (y & Hy & Hy0 & Hyn).
    assert (Hadd : ∃ z, Number.add (Finite s) (Finite y) = Finite z
                        ∧ 0 <= z ∧ z <= inject_Z (100 * (W + n))).
    { unfold Number.add. apply round64_bounds; [lra | | lia].
      replace (100 * (W + n))%Z with (100 * W + 100 * n)%Z by lia.
      rewrite inject_Z_plus. lra. }
    destruct Hadd as (z & Hz & Hz0 & Hzn).
    assert (Htotal : Number.add (Finite (inject_Z W)) (Finite (w a))
                     = Finite (inject_Z (W + n))).
    { unfold Number.add. apply round64_exact; [lia |].
      by rewrite Hn, inject_Z_plus. }
    rewrite Hx, Hy, Hz, Htotal.
    apply IH; try done; try lia.
    + intros b Hb. apply Hv. by right.
    + intros b Hb. apply Hw. by right.
Qed.

Lemma aggregation_percentage (cfg : ProgressConfig)
  (current : list (jsstring * jsnumber)) (everSeen : list jsstring) :
  valid (validateConfig cfg) = true →
  wholeWeights cfg →
  (∀ c p, lookupEntry current c = Some p → percentage p) →
  (Z.of_nat (length everSeen) < 2 ^ 30)%Z →
  percentage (calculateOverallProgressWithAllCategories cfg current everSeen).
Proof.
  intros Hvalid Hwhole Hcur Hlen. rewrite aggregation_characterised. cbv zeta.
  unfold sumOver.
  destruct (weighted_loop (codeValue cfg current) (codeWeight cfg) everSeen 0 0)
    as (s & W & Hws & Htw & Hs0 & Hs & HW); try done; try lia.
  { intros c _. by apply codeValue_percentage. }
  { intros c _. by apply codeWeight_whole. }
  change (inject_Z 0) with 0 in Htw. rewrite Hws, Htw.
  unfold Number.strictEq, Number.div.
  destruct (Qeq_bool (inject_Z W) 0) eqn:E.
  { exists 0. split; [done | lra]. }
  assert (HWpos : 0 < inject_Z W).
  { apply Qeq_bool_neq in E. rewrite (Zle_Qle 0) in HW.
    change (inject_Z 0) with 0 in HW. apply Qle_lteq in HW as [? | Heq]; [done |].
    by destruct E. }
  rewrite inject_Z_mult in Hs. change (inject_Z 100) with 100 in Hs.
  destruct (round64_bounds (s / inject_Z W) 100) as (z & -> & Hz0 & Hz); [| | done |].
  - apply Qle_shift_div_l; lra.
  - change (inject_Z 100) with 100. apply Qle_shift_div_r; lra.
  - by apply Math_round_percentage.
Qed.

Lemma kitchenOffConfig_whole : wholeWeights kitchenOffConfig.
Proof.
  split.
  - intros c w Hin. unfold kitchenOffConfig in Hin. cbn [categoryWeights] in Hin.
    rewrite !elem_of_cons, elem_of_nil in Hin.
    repeat (destruct Hin as [[= _ ->] | Hin];
            [eexists; split; [| reflexivity]; lia |]).
    done.
  - exists 10%Z. split; [lia | reflexivity].
Qed.

(** X10.  Under a configuration that passes validation and whose weights are
    whole numbers up to 1000, with finite category scores between 0 and 100
    and fewer than [2^30] categories ever seen, none of them named as an
    inherited member, the scope aggregation answers a finite number between 0
    and 100. *)
Theorem X10_overall_progress_within_bounds (cfg : ProgressConfig)
  (current : list (jsstring * jsnumber)) (everSeen : list jsstring) :
  valid (validateConfig cfg) = true →
  wholeWeights cfg →
  (∀ c, c ∈ everSeen → ownName c) →
  (∀ c p, lookupEntry current c = Some p → percentage p) →
  (Z.of_nat (length everSeen) < 2 ^ 30)%Z →
  percentage (calculateOverallProgressWithAllCategories cfg current everSeen).
Proof. intros Hvalid Hwhole _ Hcur Hlen. by apply aggregation_percentage. Qed.

Lemma X10_witness :
  percentage
    (calculateOverallProgressWithAllCategories kitchenOffConfig kitchenAndOther
       [ utf16 "KITCHEN"; utf16 "OTHER"; utf16 "AC" ]).
Proof.
  apply X10_overall_progress_within_bounds.
  - by vm_compute.
  - apply kitchenOffConfig_whole.
  - intros c Hc. rewrite !elem_of_cons, elem_of_nil in Hc.
    destruct Hc as [-> | [-> | [-> | []]]]; apply (bool_decide_unpack _); by vm_compute.
  - intros c p Hp. unfold kitchenAndOther in Hp. apply lookupEntry_elem in Hp.
    rewrite !elem_of_cons, elem_of_nil in Hp.
    destruct Hp as [[= _ ->] | [[= _ ->] | []]]; eexists; (split; [done | lra]).
  - by vm_compute.
Defined.

(** ** A uniform value, with whole numbers *)

Lemma wholeSum_nonneg (b : Z) (values : list Q) :
  Forall (wholeUpTo b) values → (0 <= wholeSum values <= b * Z.of_nat (length values))%Z.
Proof.
  induction 1 as [| v values Hv _ IH]; [simpl; lia |].
  cbn [wholeSum foldr length]. fold (wholeSum values).
  rewrite Nat2Z.inj_succ, Z.mul_succ_r.
  pose proof (wholeUpTo_floor_bounds _ _ Hv). lia.
Qed.

Lemma wholeSum_pos (b : Z) (values : list Q) (v : Q) :
  Forall (wholeUpTo b) values → v ∈ values → 0 < v → (0 < wholeSum values)%Z.
Proof.
  induction 1 as [| u values Hu Hrest IH]; intros Hin Hpos;
    [by apply elem_of_nil in Hin |].
  cbn [wholeSum foldr]. fold (wholeSum values).
  pose proof (wholeSum_nonneg _ _ Hrest) as [Hs _].
  pose proof (wholeUpTo_floor_bounds _ _ Hu) as [Hu0 _].
  apply elem_of_cons in Hin as [-> | Hin]; [| specialize (IH Hin Hpos); lia].
  rewrite (wholeUpTo_floor _ _ Hu) in Hpos.
  rewrite <- (Zlt_Qlt 0) in Hpos. lia.
Qed.

(** With whole weights and one whole value throughout, both sums of the
    aggregation are exact. *)
Lemma uniform_loop {A} (value : A → jsnumber) (w : A → Q) (v : Z) (l : list A) (W : Z) :
  (0 <= v <= 100)%Z →
  (∀ a, a ∈ l → ∃ x, value a = Finite x ∧ x == inject_Z v) →
  Forall (wholeUpTo 1000) (w <$> l) →
  (0 <= W)%Z →
  (100 * (W + 1000 * Z.of_nat (length l)) < 2 ^ 53)%Z →
  foldl (λ total a, Number.add total (Number.mul (value a) (Finite (w a))))
        (Finite (inject_Z (v * W))) l
  = Finite (inject_Z (v * (W + wholeSum (w <$> l))))
  ∧ foldl (λ total a, Number.add total (Finite (w a))) (Finite (inject_Z W)) l
    = Finite (inject_Z (W + wholeSum (w <$> l))).
Proof.
  intros Hv. revert W.
  induction l as [| a l IH]; intros W Hval Hw HW Hsmall.
  - simpl. by rewrite Z.add_0_r.
  - rewrite fmap_cons in Hw. apply Forall_cons in Hw as [Ha Hw].
    cbn [foldl length fmap list_fmap wholeSum foldr] in *.
    fold (wholeSum (w <$> l)).
    rewrite Nat2Z.inj_succ in Hsmall.
    destruct (Hval a) as (x & -> & Hx); [by left |].
    pose proof (wholeUpTo_floor_bounds _ _ Ha) as [Hn0 Hn1000].
    pose proof (wholeUpTo_floor _ _ Ha) as Hn.
    set (n := Qfloor (w a)) in *.
    assert (Hprod : Number.mul (Finite x) (Finite (w a)) = Finite (inject_Z (v * n))).
    { unfold Number.mul. apply round64_exact; [nia |].
      by rewrite Hx, Hn, inject_Z_mult. }
    assert (Hadd : Number.add (Finite (inject_Z (v * W))) (Finite (inject_Z (v * n)))
                   = Finite (inject_Z (v * (W + n)))).
    { unfold Number.add. apply round64_exact; [nia |].
      rewrite <- inject_Z_plus. by replace (v * W + v * n)%Z with (v * (W + n))%Z by lia. }
    assert (Htotal : Number.add (Finite (inject_Z W)) (Finite (w a))
                     = Finite (inject_Z (W + n))).
    { unfold Number.add. apply round64_exact; [lia |].
      by rewrite Hn, inject_Z_plus. }
    rewrite Hprod, Hadd, Htotal.
    destruct (IH (W + n)%Z) as [H1 H2]; try done; try lia.
    { intros b Hb. apply Hval. by right. }
    rewrite H1, H2. by rewrite !Z.add_assoc.
Qed.

Lemma Math_round_whole (v : Z) :
  Math_round (Finite (inject_Z v)) = Finite (inject_Z v).
Proof.
  unfold Math_round. do 2 f_equal.
  assert (Hlo : (v <= Qfloor (inject_Z v + 0.5))%Z).
  { rewrite <- (Qfloor_Z v) at 1. apply Qfloor_resp_le. lra. }
  assert (Hhi : (Qfloor (inject_Z v + 0.5) < v + 1)%Z).
  { rewrite Zlt_Qlt, inject_Z_plus. change (inject_Z 1) with 1.
    pose proof (Qfloor_le (inject_Z v + 0.5)). lra. }
  lia.
Qed.

(** X12.  With whole-number weights, not all zero over the scope, and one
    whole value between 0 and 100 carried by every category ever seen, as a
    current score or as the graduated threshold, the scope aggregation
    answers that value, whatever the weights.  (With decimals it need not:
    rounding can take the mean of one value below it.) *)
Theorem X12_uniform_scope (cfg : ProgressConfig)
  (current : list (jsstring * jsnumber)) (everSeen : list jsstring) (v : Z) :
  wholeWeights cfg →
  (∀ c, c ∈ everSeen → ownName c) →
  (∃ c, c ∈ everSeen ∧ 0 < codeWeight cfg c) →
  (0 <= v <= 100)%Z →
  (∀ c, c ∈ everSeen →
        match lookupEntry current c with
        | Some p => ∃ x, p = Finite x ∧ x == inject_Z v
        | None => CATEGORY_GRADUATED (getProgressThresholds cfg) == inject_Z v
        end) →
  (Z.of_nat (length everSeen) < 2 ^ 30)%Z →
  calculateOverallProgressWithAllCategories cfg current everSeen
  = Finite (inject_Z v).
Proof.
  intros Hwhole _ (c0 & Hc0 & Hpos) Hv Hval Hlen.
  rewrite aggregation_characterised. cbv zeta. unfold sumOver.
  assert (Hw : Forall (wholeUpTo 1000) (codeWeight cfg <$> everSeen)).
  { apply Forall_fmap, Forall_forall. intros c _. by apply codeWeight_whole. }
  destruct (uniform_loop (codeValue cfg current) (codeWeight cfg) v everSeen 0)
    as [Hws Htw]; try done; try lia.
  { intros c Hc. specialize (Hval c Hc). unfold codeValue, orNumber.
    destruct (lookupEntry current c) as [p |]; [| by eexists].
    destruct Hval as (x & -> & Hx). simpl.
    destruct (Qeq_bool x 0) eqn:E; [| by eexists].
    exists 0. split; [done |]. apply Qeq_bool_iff in E. by rewrite <- E. }
  rewrite Z.mul_0_r in Hws. change (inject_Z 0) with 0 in Hws, Htw.
  rewrite Hws, Htw, Z.add_0_l.
  set (W := wholeSum (codeWeight cfg <$> everSeen)).
  assert (HW : (0 < W)%Z).
  { apply (wholeSum_pos 1000 _ (codeWeight cfg c0)); [done | | done].
    apply list_elem_of_fmap. by exists c0. }
  pose proof (wholeSum_nonneg _ _ Hw) as [_ HWmax]. fold W in HWmax.
  rewrite length_fmap in HWmax.
  assert (HWq : 0 < inject_Z W) by (by rewrite <- (Zlt_Qlt 0)).
  unfold Number.strictEq, Number.div.
  destruct (Qeq_bool (inject_Z W) 0) eqn:E; [apply Qeq_bool_iff in E; lra |].
  rewrite (round64_exact _ v); [apply Math_round_whole | lia |].
  rewrite inject_Z_mult. field. lra.
Qed.

Lemma X12_witness :
  calculateOverallProgressWithAllCategories DEFAULT_CONFIG []
    [ utf16 "KITCHEN"; utf16 "OTHER" ] = Finite 90.
Proof.
  apply (X12_uniform_scope DEFAULT_CONFIG [] [ utf16 "KITCHEN"; utf16 "OTHER" ] 90).
  - split.
    + intros c w Hin. unfold DEFAULT_CONFIG in Hin. cbn [categoryWeights] in Hin.
      rewrite !elem_of_cons, elem_of_nil in Hin.
      repeat (destruct Hin as [[= _ ->] | Hin];
              [eexists; split; [| reflexivity]; lia |]).
      done.
    + exists 10%Z. split; [lia | reflexivity].
  - intros c Hc. rewrite !elem_of_cons, elem_of_nil in Hc.
    destruct Hc as [-> | [-> | []]]; apply (bool_decide_unpack _); by vm_compute.
  - exists (utf16 "KITCHEN"). split; [by left | by vm_compute].
  - lia.
  - intros c _. reflexivity.
  - by vm_compute.
Defined.

(** Why the weights are bounded above: a default weight near the top of the
    number range validates, and it makes the weighted sum infinite. *)
Lemma aggregation_overflows :
  valid (validateConfig hugeDefaultWeight) = true
  ∧ calculateOverallProgressWithAllCategories hugeDefaultWeight []
      [ utf16 "GARDEN" ] = PosInfinity.
Proof. by vm_compute. Qed.

(** ** The overall figure of the statistics route *)

Lemma length_setAdd (s : list jsstring) (x : jsstring) :
  (length (setAdd s x) ≤ S (length s))%nat.
Proof.
  unfold setAdd. destruct (existsb _ _); [lia |]. rewrite length_app. simpl. lia.
Qed.

(** Each record adds at most one key and at most one category. *)
Lemma processItem_sizes (itemsInLatestReport : gset jsstring) idx date st item :
  let st' := Stats.processItem itemsInLatestReport idx date st item in
  (length (Stats.itemKeys st') ≤ S (length (Stats.itemKeys st)))%nat
  ∧ (length (Stats.categoriesEverSeen st')
     ≤ S (length (Stats.categoriesEverSeen st)))%nat.
Proof.
  cbv zeta. unfold Stats.processItem; cbn [Stats.itemKeys Stats.categoriesEverSeen].
  split; [| apply length_setAdd].
  destruct (Stats.itemHistory st !! _); [lia |]. rewrite length_app. simpl. lia.
Qed.

Lemma foldl_processItem_sizes (itemsInLatestReport : gset jsstring) idx date items st :
  let st' := foldl (Stats.processItem itemsInLatestReport idx date) st items in
  (length (Stats.itemKeys st') ≤ length (Stats.itemKeys st) + length items)%nat
  ∧ (length (Stats.categoriesEverSeen st')
     ≤ length (Stats.categoriesEverSeen st) + length items)%nat.
Proof.
  cbv zeta. revert st. induction items as [| item items IH]; intros st; simpl; [lia |].
  destruct (IH (Stats.processItem itemsInLatestReport idx date st item)) as [Hk Hc].
  destruct (processItem_sizes itemsInLatestReport idx date st item) as [Hk1 Hc1].
  cbv zeta in Hk1, Hc1. lia.
Qed.

Lemma allRecords_cons (report : Report.t) (rest : list Report.t) :
  allRecords (report :: rest) = Report.workItems report ++ allRecords rest.
Proof. reflexivity. Qed.

Lemma processReports_sizes (itemsInLatestReport : gset jsstring)
  (reports : list Report.t) (idx : nat) (st : Stats.State) :
  let st' := Stats.processReports itemsInLatestReport idx st reports in
  (length (Stats.itemKeys st')
   ≤ length (Stats.itemKeys st) + length (allRecords reports))%nat
  ∧ (length (Stats.categoriesEverSeen st')
     ≤ length (Stats.categoriesEverSeen st) + length (allRecords reports))%nat.
Proof.
  cbv zeta. revert idx st.
  induction reports as [| report rest IH]; intros idx st.
  - simpl. lia.
  - rewrite allRecords_cons, length_app. cbn [Stats.processReports].
    destruct (IH (S idx) (Stats.processReport itemsInLatestReport idx st report))
      as [Hk Hc].
    destruct (foldl_processItem_sizes itemsInLatestReport idx
                (Report.reportDate report) (Report.workItems report) st)
      as [Hk0 Hc0].
    cbv zeta in Hk0, Hc0. unfold Stats.processReport in *. lia.
Qed.

Lemma length_allItems (st : Stats.State) :
  (length (StatsLists.allItems st) ≤ length (Stats.itemKeys st))%nat.
Proof.
  unfold StatsLists.allItems, omap.
  induction (Stats.itemKeys st) as [| key keys IH]; simpl; [done |].
  destruct (Stats.itemHistory st !! key); simpl; lia.
Qed.

Lemma averageProgress_percentage (cfg : ProgressConfig) (latestReportIndex : nat)
  (item : Stats.ItemHistory) (group : list Stats.ItemHistory) :
  valid (validateConfig cfg) = true →
  (Z.of_nat (length (item :: group)) < 2 ^ 40)%Z →
  percentage (StatsLists.averageProgress cfg latestReportIndex (item :: group)).
Proof.
  intros Hvalid Hlen. unfold StatsLists.averageProgress.
  apply (mean_percentage (Stats.calculateEffectiveProgress cfg latestReportIndex));
    [done | | done].
  intros. by apply effective_progress_bounds.
Qed.

(** X25.  End to end: under a configuration that passes validation and whose
    weights are whole numbers up to 1000, the overall progress the statistics
    route reports is a finite number between 0 and 100, for every list of
    reports of fewer than [2^30] records in all, none with a category named as
    an inherited member. *)
Theorem X25_overall_progress_of_the_route_within_bounds (cfg : ProgressConfig)
  (apartments : list Apartment) (reports : list Report.t) :
  valid (validateConfig cfg) = true →
  wholeWeights cfg →
  (∀ record, record ∈ allRecords reports → ownName (WorkItem.category record)) →
  (Z.of_nat (length (allRecords reports)) < 2 ^ 30)%Z →
  percentage
    (StatsLists.overallProgress cfg reports (Stats.buildHistory apartments reports)).
Proof.
  intros Hvalid Hwhole _ Hlen. unfold StatsLists.overallProgress.
  destruct (processReports_sizes (Stats.latestKeys reports) reports 0
              (Stats.initialState apartments)) as [Hkeys Hcats].
  fold (Stats.buildHistory apartments reports) in Hkeys, Hcats.
  cbn [Stats.initialState Stats.itemKeys Stats.categoriesEverSeen length] in Hkeys, Hcats.
  apply aggregation_percentage; [done | done | | lia].
  intros c p Hp. apply categoryProgress_lookup in Hp as (item & group & Hgroup & ->).
  apply averageProgress_percentage; [done |].
  pose proof (length_filter (λ i, Stats.category i = c)
                (StatsLists.allItems (Stats.buildHistory apartments reports))) as Hf.
  rewrite Hgroup in Hf.
  pose proof (length_allItems (Stats.buildHistory apartments reports)). lia.
Qed.

Lemma X25_witness :
  percentage
    (StatsLists.overallProgress kitchenOffConfig sampleReports
       (Stats.buildHistory [apartment1] sampleReports)).
Proof.
  apply X25_overall_progress_of_the_route_within_bounds.
  - by vm_compute.
  - apply kitchenOffConfig_whole.
  - apply Forall_forall. repeat constructor; apply (bool_decide_unpack _); by vm_compute.
  - by vm_compute.
Defined.

(** ** Display order of categories *)

Section DisplayOrder.

Context {T : Type}.
Variable category : T → jsstring.

Lemma insertByRank_perm (e : T) (l : list T) : insertByRank category e l ≡ₚ e :: l.
Proof.
  induction l as [| y r IH]; simpl; [done |].
  destruct (displayRank (category y) <? displayRank (category e))%nat; [| done].
  by rewrite IH, Permutation_swap.
Qed.

Lemma insertByRank_sorted (e : T) (l : list T) :
  StronglySorted (λ a b, displayRank (category a) ≤ displayRank (category b))%nat l →
  StronglySorted (λ a b, displayRank (category a) ≤ displayRank (category b))%nat
    (insertByRank category e l).
Proof.
  induction 1 as [| y r Hr IH Hy]; simpl; [repeat constructor |].
  destruct (displayRank (category y) <? displayRank (category e))%nat eqn:E.
  - apply Nat.ltb_lt in E. constructor; [done |].
    rewrite insertByRank_perm. constructor; [lia | done].
  - apply Nat.ltb_ge in E. constructor; [by constructor |].
    constructor; [done |].
    eapply Forall_impl; [exact Hy |]. simpl. intros; lia.
Qed.

Lemma insertByRank_filter (n : nat) (e : T) (l : list T) :
  filter (λ a, displayRank (category a) = n) (insertByRank category e l)
  = filter (λ a, displayRank (category a) = n) (e :: l).
Proof.
  induction l as [| y r IH]; cbn [insertByRank]; [done |].
  destruct (displayRank (category y) <? displayRank (category e))%nat eqn:E; [| done].
  apply Nat.ltb_lt in E.
  rewrite (filter_cons _ y), IH, !filter_cons.
  repeat case_decide; try done; lia.
Qed.

(** X26.  [sortCategoriesByDisplayOrder] returns a rearrangement of its input
    in display order, items of equal rank keeping their relative order.  A
    category outside the display order has the rank of OTHER, the last one, so
    such items and OTHER items stay in the order they came in. *)
Theorem X26_sortCategoriesByDisplayOrder_stable_sort (items : list T) :
  sortCategoriesByDisplayOrder category items ≡ₚ items
  ∧ StronglySorted (λ a b, displayRank (category a) ≤ displayRank (category b))%nat
      (sortCategoriesByDisplayOrder category items)
  ∧ (∀ n, filter (λ a, displayRank (category a) = n)
            (sortCategoriesByDisplayOrder category items)
          = filter (λ a, displayRank (category a) = n) items)
  ∧ (∀ c, c ∉ CATEGORY_DISPLAY_ORDER →
          displayRank c = displayRank WorkCategory.OTHER).
Proof.
  split; [| split; [| split]].
  - induction items as [| e l IH]; simpl; [done |].
    by rewrite insertByRank_perm, IH.
  - induction items as [| e l IH]; simpl; [constructor | by apply insertByRank_sorted].
  - intros n. induction items as [| e l IH]; [done |].
    cbn [sortCategoriesByDisplayOrder foldr].
    fold (sortCategoriesByDisplayOrder category l).
    by rewrite insertByRank_filter, !filter_cons, IH.
  - intros c Hc. unfold displayRank.
    assert (Hnone : ∀ l, c ∉ l → indexOf l c = None).
    { induction l as [| y l IH]; [done |]. intros [Hne Hl]%not_elem_of_cons. simpl.
      rewrite streq_neq by done. by rewrite IH. }
    by rewrite (Hnone _ Hc).
Qed.

End DisplayOrder.

(** ** Notes *)

Lemma keyword_scan_app (keywords : list jsstring) (pre n post : jsstring) :
  some (λ k, includes (toLowerCase n) (toLowerCase k)) keywords = true →
  some (λ k, includes (toLowerCase (pre ++ n ++ post)) (toLowerCase k)) keywords = true.
Proof.
  unfold some. rewrite !existsb_exists. intros (k & Hk & Hi). exists k.
  split; [done |]. unfold toLowerCase in *. rewrite !flat_map_app. by apply includes_app.
Qed.

(** X27.  Text added around notes never clears what a keyword scan found:
    notes with a negative keyword stay negative, and notes with a verification
    keyword stay verified, when more text is written before or after. *)
Theorem X27_more_text_keeps_keywords (pre n post : jsstring) :
  (hasNegativeNotes (Some n) = true → hasNegativeNotes (Some (pre ++ n ++ post)) = true)
  ∧ (isVerified (Some n) = true → isVerified (Some (pre ++ n ++ post)) = true).
Proof.
  split; intros H.
  - unfold hasNegativeNotes in *. destruct n as [| c n]; [done |].
    destruct (pre ++ (c :: n) ++ post) as [| d m] eqn:E.
    { by destruct pre. }
    rewrite <- E. by apply keyword_scan_app.
  - unfold isVerified in *. destruct n as [| c n]; [done |].
    destruct (pre ++ (c :: n) ++ post) as [| d m] eqn:E.
    { by destruct pre. }
    rewrite <- E. by apply keyword_scan_app.
Qed.

(** X28.  The status mapper honours its tables: every phrase of the status
    table normalises to the status written beside it, and every phrase of the
    category table to its category, also where a shorter phrase of the table
    occurs inside it. *)
Theorem X28_table_phrases_honoured (phrase code : jsstring) :
  ((phrase, code) ∈ hebrewStatusMap → normalizeStatus phrase = code)
  ∧ ((phrase, code) ∈ hebrewCategoryMap → normalizeCategory phrase = code).
Proof.
  split; intros Hin.
  - assert (Hall : forallb (λ e, bool_decide (normalizeStatus e.1 = e.2))
                     hebrewStatusMap = true) by (by vm_compute).
    rewrite forallb_forall in Hall. apply list_elem_of_In, Hall in Hin.
    by apply bool_decide_eq_true in Hin.
  - assert (Hall : forallb (λ e, bool_decide (normalizeCategory e.1 = e.2))
                     hebrewCategoryMap = true) by (by vm_compute).
    rewrite forallb_forall in Hall. apply list_elem_of_In, Hall in Hin.
    by apply bool_decide_eq_true in Hin.
Qed.

Lemma X21_witness :
  hadDefectAt (Stats.buildHistory [apartment1] sampleReports) (Stats.keyOf tapItem).
Proof.
  apply X21_hadDefectEver_exact. exists tapItem. split; [| by vm_compute].
  unfold allRecords, sampleReports. simpl. rewrite !elem_of_cons. auto.
Defined.

Lemma X22_witness :
  is_Some (Stats.itemHistory (Stats.buildHistory [apartment1] sampleReports)
             !! Stats.keyOf tapItem)
  ∧ utf16 "PLUMBING"
    ∈ Stats.categoriesEverSeen (Stats.buildHistory [apartment1] sampleReports).
Proof.
  assert (Hin : tapItem ∈ allRecords sampleReports).
  { unfold allRecords, sampleReports. simpl. rewrite !elem_of_cons. auto. }
  destruct (X22_history_holds_exactly_the_records [apartment1] sampleReports)
    as [Hkeys Hcats].
  split; [apply Hkeys | apply Hcats]; by exists tapItem.
Defined.

Lemma X26_witness :
  sortCategoriesByDisplayOrder id
    [ WorkCategory.OTHER; utf16 "GARDEN"; WorkCategory.AC ]
  ≡ₚ [ WorkCategory.OTHER; utf16 "GARDEN"; WorkCategory.AC ]
  ∧ displayRank (utf16 "GARDEN") = displayRank WorkCategory.OTHER.
Proof.
  destruct (X26_sortCategoriesByDisplayOrder_stable_sort id
              [ WorkCategory.OTHER; utf16 "GARDEN"; WorkCategory.AC ])
    as (Hperm & _ & _ & Hrank).
  split; [exact Hperm |]. apply Hrank.
  apply (bool_decide_unpack _). by vm_compute.
Defined.

Lemma X27_witness :
  hasNegativeNotes (Some (utf16 "בסלון " ++ utf16 "חסר כיסוי" ++ utf16 ", נבדק")) = true
  ∧ isVerified (Some (utf16 "בדיקה: " ++ utf16 "OK" ++ utf16 " (קבלן)")) = true.
Proof.
  split.
  - apply (proj1 (X27_more_text_keeps_keywords _ _ _)). by vm_compute.
  - apply (proj2 (X27_more_text_keeps_keywords _ _ _)). by vm_compute.
Defined.

Lemma X28_witness :
  normalizeStatus (utf16 "בוצע - תקין") = WorkStatus.COMPLETED_OK
  ∧ normalizeCategory (utf16 "כיבוי אש") = WorkCategory.SPRINKLERS.
Proof.
  split.
  - apply (proj1 (X28_table_phrases_honoured _ _)).
    apply (bool_decide_unpack _). by vm_compute.
  - apply (proj2 (X28_table_phrases_honoured _ _)).
    apply (bool_decide_unpack _). by vm_compute.
Defined.

(** ** The per-report timeline *)

Lemma categoryProgress_percentage (cfg : ProgressConfig)
  (item : WorkItemForProgress.t) (items : list WorkItemForProgress.t)
  (previous : jsnumber) :
  valid (validateConfig cfg) = true →
  (Z.of_nat (length (item :: items)) < 2 ^ 40)%Z →
  percentage (cp_progress (calculateCategoryProgress cfg (item :: items) previous)).
Proof.
  intros Hvalid Hlen. unfold calculateCategoryProgress.
  rewrite categoryLoop_spec. cbn [cp_progress].
  apply (mean_percentage (itemScore cfg)); [done | | done].
  intros. by apply score_bounds.
Qed.

Lemma length_setEntry {V} (o : list (jsstring * V)) (k : jsstring) (v : V) :
  (length (setEntry o k v) ≤ S (length o))%nat.
Proof.
  induction o as [| [k0 v0] o IH]; simpl; [done |].
  destruct (streq k0 k); simpl; lia.
Qed.

Lemma length_groupByCategory {T} (category : T → jsstring) (items : list T) :
  (length (groupByCategory category items) ≤ length items)%nat.
Proof.
  unfold groupByCategory.
  assert (Hgen : ∀ m : list (jsstring * list T),
    (length (foldl (λ m item,
                      setEntry m (category item)
                               (default [] (lookupEntry m (category item)) ++ [item]))
                   m items)
     ≤ length m + length items)%nat).
  { induction items as [| item items IH]; intros m; simpl; [lia |].
    etrans; [apply IH |].
    pose proof (length_setEntry m (category item)
                  (default [] (lookupEntry m (category item)) ++ [item])). lia. }
  apply (Hgen []).
Qed.

(** What [calculateProgressByCategory] returns: distinct categories, no more
    of them than items, each with a score in range. *)
Lemma progressByCategory_shape (cfg : ProgressConfig)
  (items : list WorkItemForProgress.t) :
  valid (validateConfig cfg) = true →
  (Z.of_nat (length items) < 2 ^ 30)%Z →
  NoDup (calculateProgressByCategory cfg items).*1
  ∧ (length (calculateProgressByCategory cfg items).*1 ≤ length items)%nat
  ∧ ∀ c p, lookupEntry (calculateProgressByCategory cfg items) c = Some p →
           percentage p.
Proof.
  intros Hvalid Hlen. unfold calculateProgressByCategory.
  pose proof (groupByCategory_NoDup WorkItemForProgress.category items) as Hnd.
  rewrite setEach_keys by done. split; [done |]. split.
  - rewrite length_fmap. apply length_groupByCategory.
  - intros c p. rewrite setEach_lookup, groupByCategory_lookup by done.
    pose proof (length_filter (λ i, WorkItemForProgress.category i = c) items) as Hf.
    destruct (filter _ items) as [| item group]; [done |].
    intros [= <-]. apply categoryProgress_percentage; [done |]. lia.
Qed.

(** X29.  The per-report timeline gives one entry per report, in order, and
    the issue count of a report never exceeds its number of items.  Under a
    configuration that passes validation and whose weights are whole numbers
    up to 1000, with fewer than [2^30] items a report and no category named
    as an inherited member, each overall figure and each category figure is
    a finite number between 0 and 100. *)
Theorem X29_progress_timeline (cfg : ProgressConfig) (reportItems : list ReportItems) :
  valid (validateConfig cfg) = true →
  wholeWeights cfg →
  (∀ report item, report ∈ reportItems → item ∈ ri_items report →
                  ownName (WorkItemForProgress.category item)) →
  (∀ report, report ∈ reportItems →
             (Z.of_nat (length (ri_items report)) < 2 ^ 30)%Z) →
  length (calculateProgressTimeline cfg reportItems) = length reportItems
  ∧ ∀ i report entry,
      reportItems !! i = Some report →
      calculateProgressTimeline cfg reportItems !! i = Some entry →
      rp_reportId entry = ri_reportId report
      ∧ percentage (rp_overallProgress entry)
      ∧ (∀ c p, lookupEntry (rp_categoryProgress entry) c = Some p → percentage p)
      ∧ (rp_totalIssues entry ≤ length (ri_items report))%nat.
Proof.
  intros Hvalid Hwhole _ Hsmall. unfold calculateProgressTimeline.
  split; [apply length_map |].
  intros i report entry Hreport Hentry.
  change (map ?f ?l) with (f <$> l) in Hentry.
  rewrite list_lookup_fmap, Hreport in Hentry. injection Hentry as <-.
  cbn [rp_reportId rp_overallProgress rp_categoryProgress rp_totalIssues].
  destruct (progressByCategory_shape cfg (ri_items report) Hvalid)
    as (Hnd & Hlen & Hcats).
  { apply Hsmall. by eapply list_elem_of_lookup_2. }
  split; [done |]. split; [| split; [exact Hcats |]].
  - rewrite legacy_rollup_on_keys; [| done |].
    + apply aggregation_percentage; [done | done | exact Hcats |].
      specialize (Hsmall report (list_elem_of_lookup_2 _ _ _ Hreport)). lia.
    + intros c Hin. apply (lookupEntry_NoDup _ _ _ Hnd) in Hin.
      by destruct (Hcats _ _ Hin) as (x & ? & _).
  - apply filter_length_le.
Qed.

Lemma X29_witness :
  length (calculateProgressTimeline kitchenOffConfig
            [ {| ri_reportId := utf16 "r1"; ri_reportDate := 1;
                 ri_items := [ kitchenItem WorkStatus.DEFECT ] |} ])
  = 1%nat.
Proof.
  refine (proj1 (X29_progress_timeline kitchenOffConfig _ _ _ _ _)).
  - by vm_compute.
  - apply kitchenOffConfig_whole.
  - intros report item Hreport Hitem.
    apply list_elem_of_singleton in Hreport. subst report.
    apply list_elem_of_singleton in Hitem. subst item.
    apply (bool_decide_unpack _). by vm_compute.
  - intros report Hreport. apply list_elem_of_singleton in Hreport. subst report.
    by vm_compute.
Defined.
